(** * search-query-builder: a shallow embedding of [src/search-query-builder.ts]

    The TypeScript module turns free text into an OR-joined query string.
    This file embeds its functions in Gallina and proves the properties
    its specification states about them, then further properties of the
    same functions and of the compact-artifact helpers that feed the
    builder.

    Data model.  A JavaScript string is a sequence of UTF-16 code units;
    [jsstring] is [list N], one number per code unit, so that [length],
    indexing, [===] and the regular expressions of the source (which have
    no [u] flag and therefore work on code units) mean what they mean in
    JavaScript.  Arrays are lists read with stdpp's [!!] and updated with
    [<[i:=x]>]; property bags ([Object.create(null)]) and [Map]s are
    association lists in insertion order. *)

From Stdlib Require Import ZArith NArith Lia Ascii String.
From Stdlib Require Import Sorting.Sorted Sorting.Permutation.
From stdpp Require Import base tactics option list numbers.

Local Open Scope N_scope.

(** ** Strings *)

Abbreviation jsstring := (list N) (only parsing).

(** [lit "abc"] is the JavaScript string literal with the same ASCII text. *)
Definition lit (s : string) : jsstring :=
  List.map N_of_ascii (list_ascii_of_string s).

Definition QUOTE : N := 34.        (* the straight double quote *)
Definition BACKSLASH : N := 92.
Definition SPACE : N := 32.
Definition LDQUO : N := 8220.      (* U+201C, curly opening mark *)
Definition RDQUO : N := 8221.      (* U+201D, curly closing mark *)

(** The characters [String.prototype.trim] removes and [\s] matches:
    ECMAScript's WhiteSpace and LineTerminator productions. *)
Definition isWhiteSpace (c : N) : bool :=
  ((9 <=? c) && (c <=? 13))
  || (c =? 32) || (c =? 160) || (c =? 5760)
  || ((8192 <=? c) && (c <=? 8202))
  || (c =? 8232) || (c =? 8233) || (c =? 8239) || (c =? 8287)
  || (c =? 12288) || (c =? 65279).

Fixpoint dropWhile {A} (p : A -> bool) (l : list A) : list A :=
  match l with
  | [] => []
  | x :: l' => if p x then dropWhile p l' else l
  end.

Definition trimStart (s : jsstring) : jsstring := dropWhile isWhiteSpace s.
Definition trimEnd (s : jsstring) : jsstring :=
  rev (dropWhile isWhiteSpace (rev s)).

(** [s.trim()] *)
Definition trim (s : jsstring) : jsstring := trimEnd (trimStart s).

(** [xs.join(sep)] *)
Fixpoint join (sep : jsstring) (xs : list jsstring) : jsstring :=
  match xs with
  | [] => []
  | [x] => x
  | x :: xs' => x ++ sep ++ join sep xs'
  end.

(** [s.slice(a, b)] for [0 <= a]. *)
Definition slice (s : jsstring) (a b : nat) : jsstring :=
  take (b - a) (drop a s).

(** [s.replace(/c/g, by)] for a single literal code unit [c]. *)
Definition replaceAll (c : N) (by_ : jsstring) (s : jsstring) : jsstring :=
  List.flat_map (fun x => if x =? c then by_ else [x]) s.

(** ** The host: built-ins whose result is given by Unicode tables

    [String.prototype.normalize], [toLowerCase] and [localeCompare] are
    taken from the JavaScript engine.  The model is parametric in them. *)
Record Host : Type := mkHost {
  nfkc : jsstring -> jsstring;                (* s.normalize("NFKC") *)
  toLowerCase : jsstring -> jsstring;         (* s.toLowerCase() *)
  localeCompare : jsstring -> jsstring -> Z   (* a.localeCompare(b) *)
}.


(** ** Normalizer and tokenizer (lines 37-49) *)

Definition defaultNormalize (h : Host) (s : jsstring) : jsstring :=
  trim (toLowerCase h (nfkc h s)).

(** [[a-z0-9]] under the [i] flag without [u]: the ASCII letters of both
    cases and the digits (a non-ASCII character never case-folds into the
    class when the [u] flag is absent). *)
Definition isAlnum (c : N) : bool :=
  ((48 <=? c) && (c <=? 57)) || ((65 <=? c) && (c <=? 90))
  || ((97 <=? c) && (c <=? 122)).

(** [[-']] *)
Definition isJoiner (c : N) : bool := (c =? 45) || (c =? 39).

Definition headIs (p : N -> bool) (s : jsstring) : bool :=
  match s with
  | c :: _ => p c
  | [] => false
  end.

Definition flush (start : nat) (cur : jsstring) : list (nat * jsstring) :=
  match cur with
  | [] => []
  | _ => [(start, cur)]
  end.

(** The loop [while ((m = re.exec(n))) out.push(m[0])] for
    [re = /[a-z0-9]+(?:[-'][a-z0-9]+)*/gi], as one left-to-right pass.
    [pos] is the index of the next character, [cur] the text matched so far
    by the match in progress (empty when none is), [start] its [m.index].
    - [[a-z0-9]+] is greedy: an alphanumeric always extends the match (or
      starts one);
    - an iteration of [(?:[-'][a-z0-9]+)*] needs a joiner followed by at
      least one alphanumeric, so a joiner extends a match in progress
      exactly when the next character is alphanumeric;
    - any other character ends the match: [re.lastIndex] stands on it and
      the next [exec] skips it, since no match starts with it.
    Each result is [(m.index, m[0])]. *)
Fixpoint execAll (pos start : nat) (cur : jsstring) (s : jsstring)
  : list (nat * jsstring) :=
  match s with
  | [] => flush start cur
  | c :: rest =>
      if isAlnum c then
        execAll (S pos) (match cur with [] => pos | _ => start end) (cur ++ [c]) rest
      else if isJoiner c && negb (bool_decide (cur = [])) && headIs isAlnum rest then
        execAll (S pos) start (cur ++ [c]) rest
      else
        flush start cur ++ execAll (S pos) (S pos) [] rest
  end.

Definition regexMatches (n : jsstring) : list (nat * jsstring) :=
  execAll 0 0 [] n.

Definition defaultTokenize (h : Host) (s : jsstring) : list jsstring :=
  let n := defaultNormalize h s in
  List.map snd (regexMatches n).

Definition defaultWrap (q : jsstring) : jsstring := lit "/" ++ q ++ lit "/".

(** Quote + escape inner backslashes and quotes (lines 54-57). *)
Definition quoteExact (phrase : jsstring) : jsstring :=
  let escaped :=
    replaceAll QUOTE [BACKSLASH; QUOTE]
      (replaceAll BACKSLASH [BACKSLASH; BACKSLASH] phrase) in
  [QUOTE] ++ escaped ++ [QUOTE].

(** ** Quote utilities (lines 61-111) *)

(** [s[i]], with [undefined] as [None]; [i] may be [-1]. *)
Definition charAt (s : jsstring) (i : Z) : option N :=
  if (i <? 0)%Z then None else s !! Z.to_nat i.

Definition eqChar (o : option N) (c : N) : bool :=
  match o with
  | Some x => x =? c
  | None => false
  end.

Definition countUnescapedQuotes (s : jsstring) : nat :=
  foldl (fun count i =>
           if eqChar (charAt s (Z.of_nat i)) QUOTE
              && negb (eqChar (charAt s (Z.of_nat i - 1)) BACKSLASH)
           then S count else count)
        0%nat (seq 0 (length s)).

Definition hasBalancedStraightQuotes (s : jsstring) : bool :=
  Nat.even (countUnescapedQuotes s).

(** [(s.match(/c/g) || []).length] *)
Definition countChar (c : N) (s : jsstring) : nat :=
  length (List.filter (fun x => x =? c) s).

Definition hasBalancedCurlyQuotes (s : jsstring) : bool :=
  Nat.eqb (countChar LDQUO s) (countChar RDQUO s).

(** The inner [while (j < input.length)] of [extractQuotedPhrasesBalanced]:
    the index of the first [endChar] at or after [j] that is not preceded
    by a backslash, [-1] when there is none.  [j] grows by one per
    iteration, so [length input - j] iterations reach the end of the
    input; [findClosing] is called with that bound. *)
Fixpoint findClosing (bound : nat) (input : jsstring) (endChar : N) (j : nat) : Z :=
  match bound with
  | O => (-1)%Z
  | S bound' =>
      if (j <? length input)%nat then
        if eqChar (input !! j) endChar
           && negb (eqChar (charAt input (Z.of_nat j - 1)) BACKSLASH)
        then Z.of_nat j
        else findClosing bound' input endChar (S j)
      else (-1)%Z
  end.

(** The outer [while (i < input.length)]; [None] when [fuel] runs out
    before the loop ends. *)
Fixpoint extractLoop (fuel : nat) (input : jsstring) (i : nat)
    (protectedPhrases : list jsstring) (remainder : jsstring)
  : option (list jsstring * jsstring) :=
  if (length input <=? i)%nat then Some (protectedPhrases, remainder)
  else
    match fuel with
    | O => None
    | S fuel' =>
        let ch := input !! i in
        let startStraight := eqChar ch QUOTE in
        let startCurly := eqChar ch LDQUO in
        let endChar := if startStraight then QUOTE else RDQUO in
        let found :=
          if startStraight || startCurly
          then findClosing (length input - S i) input endChar (S i)
          else (-1)%Z in
        if (startStraight || startCurly) && (Z.of_nat i <? found)%Z then
          let inside := slice input (S i) (Z.to_nat found) in
          extractLoop fuel' input (S (Z.to_nat found))
            (match trim inside with
             | [] => protectedPhrases
             | _ => protectedPhrases ++ [inside]
             end)
            remainder
        else
          extractLoop fuel' input (S i) protectedPhrases
            (remainder ++ from_option (fun c => [c]) [] ch)
    end.

Definition extractQuotedPhrasesBalanced (input : jsstring)
  : option (list jsstring * jsstring) :=
  match extractLoop (length input) input 0 [] [] with
  | Some (prot, remainder) => Some (prot, trim remainder)
  | None => None
  end.

Definition isQuoteChar (c : N) : bool :=
  (c =? QUOTE) || (c =? LDQUO) || (c =? RDQUO).

(** [s.replace(/\s+/g, " ")]: every maximal run of white space becomes one
    space.  [inRun] tells that the previous character was white space. *)
Fixpoint collapseSpaces (inRun : bool) (s : jsstring) : jsstring :=
  match s with
  | [] => []
  | c :: rest =>
      if isWhiteSpace c then
        if inRun then collapseSpaces true rest
        else SPACE :: collapseSpaces true rest
      else c :: collapseSpaces false rest
  end.

Definition stripStrayQuotes (s : jsstring) : jsstring :=
  trim (collapseSpaces false
          (List.map (fun c => if isQuoteChar c then SPACE else c) s)).

(** ** JavaScript containers *)

(** A property bag created by [Object.create(null)]: own properties in the
    order they were created.  There is no prototype, so every key,
    [__proto__] included, is an ordinary property. *)
Abbreviation props := (list (list N * nat)) (only parsing).

(** [o[k]], [None] for [undefined] *)
Fixpoint getProp (o : props) (k : jsstring) : option nat :=
  match o with
  | [] => None
  | (k', v) :: o' => if decide (k' = k) then Some v else getProp o' k
  end.

(** [o[k] = v]: an existing property keeps its place. *)
Fixpoint setProp (o : props) (k : jsstring) (v : nat) : props :=
  match o with
  | [] => [(k, v)]
  | (k', v') :: o' =>
      if decide (k' = k) then (k', v) :: o' else (k', v') :: setProp o' k v
  end.

Definition isDigit (c : N) : bool := (48 <=? c) && (c <=? 57).

Definition isSome {A} (o : option A) : bool :=
  match o with
  | Some _ => true
  | None => false
  end.

(** The value of a key that is an array index: a canonical decimal
    numeral (no leading zero) below [2^32 - 1]. *)
Definition arrayIndex (k : jsstring) : option N :=
  match k with
  | [] => None
  | c :: r =>
      if (c =? 48) && negb (bool_decide (r = [])) then None
      else if forallb isDigit k then
        let v := foldl (fun a d => 10 * a + (d - 48)) 0 k in
        if v <=? 4294967294 then Some v else None
      else None
  end.

Fixpoint insertIndexKey (v : N) (k : jsstring) (l : list (N * jsstring))
  : list (N * jsstring) :=
  match l with
  | [] => [(v, k)]
  | (v', k') :: l' =>
      if v <? v' then (v, k) :: l else (v', k') :: insertIndexKey v k l'
  end.

(** [Object.keys(o)]: the array-index keys in ascending numeric order,
    then the other keys in creation order (OrdinaryOwnPropertyKeys). *)
Definition objectKeys (o : props) : list jsstring :=
  let keys := List.map fst o in
  let indexed :=
    foldl (fun acc k =>
             match arrayIndex k with
             | Some v => insertIndexKey v k acc
             | None => acc
             end) [] keys in
  List.map snd indexed
  ++ List.filter (fun k => negb (isSome (arrayIndex k))) keys.

(** [Array.from(new Set(xs))], and the [seen]-set filter of [prepare]:
    the first occurrence of every value, in order. *)
Definition uniqStep {A} `{EqDecision A} (acc : list A) (x : A) : list A :=
  if bool_decide (x ∈ acc) then acc else acc ++ [x].

Definition uniq {A} `{EqDecision A} (xs : list A) : list A :=
  foldl uniqStep [] xs.

(** A [Map<number, V>]: entries in the order their keys were first set. *)
Fixpoint mapGet {V} (m : list (Z * V)) (k : Z) : option V :=
  match m with
  | [] => None
  | (k', v) :: m' => if (k' =? k)%Z then Some v else mapGet m' k
  end.

Fixpoint mapSet {V} (m : list (Z * V)) (k : Z) (v : V) : list (Z * V) :=
  match m with
  | [] => [(k, v)]
  | (k', v') :: m' =>
      if (k' =? k)%Z then (k', v) :: m' else (k', v') :: mapSet m' k v
  end.

(** [xs.sort(cmp)].  The engine's algorithm is not fixed by the language,
    only that it is stable and, for a consistent [cmp], yields a sorted
    permutation; every such algorithm then returns the same array, and
    insertion from the right is one of them. *)
Fixpoint insertBy {A} (cmp : A -> A -> Z) (x : A) (l : list A) : list A :=
  match l with
  | [] => [x]
  | y :: l' => if (cmp x y <=? 0)%Z then x :: l else y :: insertBy cmp x l'
  end.

Fixpoint sortBy {A} (cmp : A -> A -> Z) (l : list A) : list A :=
  match l with
  | [] => []
  | x :: l' => insertBy cmp x (sortBy cmp l')
  end.

(** ** Token Aho-Corasick over token sequences (lines 115-209) *)

Module TokenAC.

Record t : Type := mk {
  next : list props;
  fail : list nat;
  out : list (list nat);
  phrases : list jsstring;
  pLens : list nat
}.

(** The field initialisers of the class. *)
Definition empty : t :=
  {| next := [[]]; fail := [0%nat]; out := [[]]; phrases := []; pLens := [] |}.

(** Array reads.  An index outside the array reads [undefined] in
    JavaScript; on an automaton grown from [empty] every read below is
    inside its array (lemmas [addAll_inv] and [build_total]), so the
    defaults are never observed. *)
Definition nextAt (ac : t) (s : nat) : props := default [] (next ac !! s).
Definition failAt (ac : t) (s : nat) : nat := default 0%nat (fail ac !! s).
Definition outAt (ac : t) (s : nat) : list nat := default [] (out ac !! s).

(** One turn of [for (const t of tokens)] in [addTokens]. *)
Definition addStep (st : t * nat) (tok : jsstring) : t * nat :=
  let '(ac, node) := st in
  match getProp (nextAt ac node) tok with
  | None =>
      let id := length (next ac) in
      ({| next := <[node := setProp (nextAt ac node) tok id]> (next ac) ++ [[]];
          fail := fail ac ++ [0%nat];
          out := out ac ++ [[]];
          phrases := phrases ac;
          pLens := pLens ac |}, id)
  | Some child => (ac, child)
  end.

(** Fast path: insert pretokenized (normalized) phrase tokens. *)
Definition addTokens (ac : t) (tokens : list jsstring) : t :=
  match tokens with
  | [] => ac
  | _ =>
      let '(ac1, node) := foldl addStep (ac, 0%nat) tokens in
      let str := join (lit " ") tokens in
      if existsb (fun pid => bool_decide (phrases ac1 !! pid = Some str))
                 (outAt ac1 node)
      then ac1
      else
        let id := length (phrases ac1) in
        {| next := next ac1;
           fail := fail ac1;
           out := <[node := outAt ac1 node ++ [id]]> (out ac1);
           phrases := phrases ac1 ++ [str];
           pLens := pLens ac1 ++ [length tokens] |}
  end.

Definition addPhrase (tokenize : jsstring -> list jsstring) (ac : t)
    (raw : jsstring) : t :=
  addTokens ac (tokenize raw).

(** [while (j !== 0 && this.next[j][k] == null) j = this.fail[j]];
    [None] when [fuel] iterations do not end the loop. *)
Fixpoint followFail (fuel : nat) (ac : t) (j : nat) (k : jsstring) : option nat :=
  if (j =? 0)%nat || isSome (getProp (nextAt ac j) k) then Some j
  else
    match fuel with
    | O => None
    | S fuel' => followFail fuel' ac (failAt ac j) k
    end.

Definition setFail (ac : t) (s f : nat) : t :=
  {| next := next ac; fail := <[s := f]> (fail ac); out := out ac;
     phrases := phrases ac; pLens := pLens ac |}.

Definition setOut (ac : t) (s : nat) (o : list nat) : t :=
  {| next := next ac; fail := fail ac; out := <[s := o]> (out ac);
     phrases := phrases ac; pLens := pLens ac |}.

(** The first loop of [build]: the children of the root. *)
Definition rootStep (st : t * list nat) (k : jsstring) : t * list nat :=
  let '(ac, q) := st in
  let c := default 0%nat (getProp (nextAt ac 0) k) in
  if (c =? 0)%nat then (ac, q) else (setFail ac c 0, q ++ [c]).

(** One turn of [for (const k of Object.keys(this.next[v]))]. *)
Definition childStep (v : nat) (st : option (t * list nat)) (k : jsstring)
  : option (t * list nat) :=
  match st with
  | None => None
  | Some (ac, q) =>
      let u := default 0%nat (getProp (nextAt ac v) k) in
      match followFail (length (next ac)) ac (failAt ac v) k with
      | None => None
      | Some j =>
          Some (setFail ac u (default 0%nat (getProp (nextAt ac j) k)), q ++ [u])
      end
  end.

(** [while (q.length)]; [None] when [fuel] runs out first. *)
Fixpoint bfs (fuel : nat) (ac : t) (q : list nat) : option t :=
  match q with
  | [] => Some ac
  | v :: q' =>
      match fuel with
      | O => None
      | S fuel' =>
          let f := failAt ac v in
          let ac1 :=
            match outAt ac f with
            | [] => ac
            | _ => setOut ac v (outAt ac v ++ outAt ac f)
            end in
          match foldl (childStep v) (Some (ac1, q')) (objectKeys (nextAt ac1 v)) with
          | None => None
          | Some (ac2, q2) => bfs fuel' ac2 q2
          end
      end
  end.

Definition build (ac : t) : option t :=
  let '(ac0, q) := foldl rootStep (ac, []) (objectKeys (nextAt ac 0)) in
  bfs (length (next ac)) ac0 q.

(** The entries of [best]: [{ end, phrase }]. *)
Record entry : Type := mkEntry { end_ : nat; phrase : jsstring }.

(** The body of [for (const pid of outs)] at token index [i]. *)
Definition offer (ac : t) (i : nat) (best : list (Z * entry)) (pid : nat)
  : list (Z * entry) :=
  match pLens ac !! pid, phrases ac !! pid with
  | Some len, Some ph =>
      let start := (Z.of_nat i - Z.of_nat len + 1)%Z in
      if (0 <=? start)%Z then
        match mapGet best start with
        | None => mapSet best start (mkEntry i ph)
        | Some prev =>
            if (end_ prev <? i)%nat then mapSet best start (mkEntry i ph)
            else best
        end
      else best
  | _, _ => best   (* [undefined] length: [start] is NaN, the test fails *)
  end.

(** The automaton move on one token: follow failure links, then take
    the edge if there is one. *)
Definition advance (ac : t) (state : nat) (tok : jsstring) : option nat :=
  match followFail (length (next ac)) ac state tok with
  | None => None
  | Some s => Some (default 0%nat (getProp (nextAt ac s) tok))
  end.

(** [for (let i = 0; i < tokens.length; i++)], from index [i] on. *)
Fixpoint scan (ac : t) (i : nat) (state : nat) (best : list (Z * entry))
    (tokens : list jsstring) : option (list (Z * entry)) :=
  match tokens with
  | [] => Some best
  | tok :: rest =>
      match advance ac state tok with
      | None => None
      | Some state' =>
          scan ac (S i) state' (foldl (offer ac i) best (outAt ac state')) rest
      end
  end.

(** [(a, b) => b.length - a.length || a.localeCompare(b)] *)
Definition byLengthThenLocale (h : Host) (a b : jsstring) : Z :=
  let d := (Z.of_nat (length b) - Z.of_nat (length a))%Z in
  if (d =? 0)%Z then localeCompare h a b else d.

(** O(n + matches). Longest-per-start; unique; length-desc then lex order. *)
Definition findAll (h : Host) (ac : t) (tokens : list jsstring)
  : option (list jsstring) :=
  if (length (next ac) =? 1)%nat then Some []
  else
    match scan ac 0 0 [] tokens with
    | None => None
    | Some best =>
        let selected := List.map (fun kv => phrase (snd kv)) best in
        Some (sortBy (byLengthThenLocale h) (uniq selected))
    end.

End TokenAC.

(** ** The query builder (lines 13-35 and 211-309) *)

Module PrepareQueryOptions.
Record t : Type := mk {
  stopWords : list jsstring;                          (* the elements of the set *)
  utterances : option (list jsstring);
  pretokenizedUtterances : option (list (list jsstring));
  normalize : option (jsstring -> jsstring);
  tokenize : option (jsstring -> list jsstring);
  wrap : option (jsstring -> jsstring);
  alwaysIncludeCleaned : bool;
  acOverride : option TokenAC.t
}.
End PrepareQueryOptions.

Record PreparedQuery : Type := mkPreparedQuery {
  originalInput : jsstring;
  protectedPhrases : list jsstring;
  cleanedTokens : list jsstring;
  cleanedText : jsstring;
  utteranceMatches : list jsstring;
  queryString : jsstring;
  hadUnbalancedQuotes : bool
}.

Module SearchQueryBuilder.

Record t : Type := mk {
  stopWords : list jsstring;
  normalize : jsstring -> jsstring;
  tokenize : jsstring -> list jsstring;
  wrap : jsstring -> jsstring;
  alwaysIncludeCleaned : bool;
  ac : TokenAC.t
}.

Definition nonEmpty {A} (o : option (list A)) : option (list A) :=
  match o with
  | Some (_ :: _) => o
  | _ => None
  end.

(** The automaton the constructor makes when there is no [acOverride];
    [None] when [TokenAC.build] does not finish. *)
Definition newAC (tokenize : jsstring -> list jsstring)
    (opts : PrepareQueryOptions.t) : option TokenAC.t :=
  let ac0 :=
    match nonEmpty (PrepareQueryOptions.pretokenizedUtterances opts) with
    | Some pre => foldl TokenAC.addTokens TokenAC.empty pre
    | None =>
        match nonEmpty (PrepareQueryOptions.utterances opts) with
        | Some us => foldl (TokenAC.addPhrase tokenize) TokenAC.empty us
        | None => TokenAC.empty
        end
    end in
  TokenAC.build ac0.

Definition new (h : Host) (opts : PrepareQueryOptions.t) : option t :=
  let normalize := default (defaultNormalize h) (PrepareQueryOptions.normalize opts) in
  let tokenize := default (defaultTokenize h) (PrepareQueryOptions.tokenize opts) in
  let wrap := default defaultWrap (PrepareQueryOptions.wrap opts) in
  match
    match PrepareQueryOptions.acOverride opts with
    | Some ac => Some ac
    | None => newAC tokenize opts
    end
  with
  | Some ac =>
      Some {| stopWords := PrepareQueryOptions.stopWords opts;
              normalize := normalize;
              tokenize := tokenize;
              wrap := wrap;
              alwaysIncludeCleaned := PrepareQueryOptions.alwaysIncludeCleaned opts;
              ac := ac |}
  | None => None
  end.

(** Lines 254-268: the balance check and the two ways to the remainder.
    The result is [(quotesBalanced, protectedPhrases, remainder)]. *)
Definition analyzeQuotes (originalInput : jsstring)
  : option (bool * list jsstring * jsstring) :=
  let straightBalanced := hasBalancedStraightQuotes originalInput in
  let curlyBalanced := hasBalancedCurlyQuotes originalInput in
  let quotesBalanced := straightBalanced && curlyBalanced in
  if quotesBalanced then
    match extractQuotedPhrasesBalanced originalInput with
    | Some (prot, rem) =>
        Some (true,
              List.filter (fun p => negb (bool_decide (p = [])))
                          (List.map trim prot),
              rem)
    | None => None
    end
  else Some (false, [], stripStrayQuotes originalInput).

(** Lines 278-291: the clauses before deduplication. *)
Definition clausesOf (b : t) (originalInput trimmed cleanedText : jsstring)
    (quotesBalanced : bool) (protectedPhrases utteranceMatches : list jsstring)
  : list jsstring :=
  let normOriginal := normalize b originalInput in
  [quoteExact trimmed]
  ++ (if negb (bool_decide (cleanedText = []))
         && (alwaysIncludeCleaned b
             || negb (bool_decide (cleanedText = normOriginal)))
      then [quoteExact cleanedText] else [])
  ++ (if quotesBalanced then List.map quoteExact protectedPhrases else [])
  ++ List.map quoteExact utteranceMatches.

Definition prepare (h : Host) (b : t) (userInput : jsstring)
  : option PreparedQuery :=
  let originalInput := userInput in
  let trimmed := trim originalInput in
  match trimmed with
  | [] =>
      Some {| originalInput := originalInput;
              protectedPhrases := [];
              cleanedTokens := [];
              cleanedText := [];
              utteranceMatches := [];
              queryString := [];
              hadUnbalancedQuotes := false |}
  | _ =>
      match analyzeQuotes originalInput with
      | None => None
      | Some (quotesBalanced, protectedPhrases, remainder) =>
          let remainderTokens := tokenize b remainder in
          let cleanedTokens :=
            match stopWords b with
            | [] => remainderTokens
            | _ => List.filter
                     (fun t => negb (bool_decide (t ∈ stopWords b)))
                     remainderTokens
            end in
          let cleanedText := trim (join (lit " ") cleanedTokens) in
          match TokenAC.findAll h (ac b) cleanedTokens with
          | None => None
          | Some utteranceMatches =>
              let clauses :=
                clausesOf b originalInput trimmed cleanedText quotesBalanced
                          protectedPhrases utteranceMatches in
              let ordered := uniq clauses in
              let queryString :=
                join (lit " OR ") (List.map (wrap b) ordered) in
              Some {| originalInput := originalInput;
                      protectedPhrases := protectedPhrases;
                      cleanedTokens := cleanedTokens;
                      cleanedText := cleanedText;
                      utteranceMatches := utteranceMatches;
                      queryString := queryString;
                      hadUnbalancedQuotes := negb quotesBalanced |}
          end
      end
  end.

End SearchQueryBuilder.

(** ** Compact artifacts

    [pretokenizeFromCompact] (the artifact helpers next to the builder) and
    [toCompact] (scripts/generate-demo-data.ts), which writes the artifacts
    the demos read. *)

Module CompactArtifact.
Record t : Type := mk {
  version : nat;
  dict : list jsstring;            (* normalized tokens *)
  phrases : list (list nat)        (* arrays of token indexes into dict *)
}.
End CompactArtifact.

(** Expand compact artifact to pretokenized utterances.  [art.dict[i]] is
    [undefined] for an index outside [dict]; [None] stands for it. *)
Definition pretokenizeFromCompact (art : CompactArtifact.t)
  : list (list (option jsstring)) :=
  List.map (fun idxs => List.map (fun i => CompactArtifact.dict art !! i) idxs)
           (CompactArtifact.phrases art).

(** [s.split(/\s+/g)]: the texts between the maximal runs of white space,
    the empty text before a leading and after a trailing run included; the
    empty string gives one empty text.  [cur] is the text since the last
    run, [inRun] tells that the previous character was white space. *)
Fixpoint splitLoop (cur : jsstring) (inRun : bool) (s : jsstring)
  : list jsstring :=
  match s with
  | [] => [cur]
  | c :: rest =>
      if isWhiteSpace c then
        if inRun then splitLoop [] true rest
        else cur :: splitLoop [] true rest
      else splitLoop (cur ++ [c]) false rest
  end.

Definition splitWhiteSpace (s : jsstring) : list jsstring := splitLoop [] false s.

(** One turn of [for (const t of toks)] in [toCompact].  [idx] is a
    [Map<string, number>]; read with [has] and [get] and written with
    [set] it is the association list of its entries.  [idx.get(t)] is
    [undefined] for a missing key; [None] stands for it. *)
Definition compactToken (st : list jsstring * props * list (option nat))
    (t : jsstring) : list jsstring * props * list (option nat) :=
  let '(dict, idx, ids) := st in
  let '(dict1, idx1) :=
    if isSome (getProp idx t) then (dict, idx)
    else (dict ++ [t], setProp idx t (length dict)) in
  (dict1, idx1, ids ++ [getProp idx1 t]).

(** One turn of [for (const p of phrases)]. *)
Definition compactPhrase
    (st : list jsstring * props * list (list (option nat))) (p : jsstring)
  : list jsstring * props * list (list (option nat)) :=
  let '(dict, idx, out) := st in
  let toks := splitWhiteSpace (trim p) in
  let '(dict1, idx1, ids) := foldl compactToken (dict, idx, []) toks in
  (dict1, idx1, out ++ [ids]).

(** The result is [{ dict, phrases: out }]. *)
Definition toCompact (phrases : list jsstring)
  : list jsstring * list (list (option nat)) :=
  let '(dict, _, out) := foldl compactPhrase ([], [], []) phrases in
  (dict, out).

(** ** A concrete host for closed examples

    [UnicodeFragment] gives the three built-ins on a small alphabet: the
    ASCII characters, U+030C COMBINING CARON and U+01F0 LATIN SMALL LETTER
    J WITH CARON.  The Unicode Character Database facts it encodes:
    - ASCII characters have no decomposition, so NFKC leaves ASCII text
      unchanged;
    - U+01F0 decomposes canonically to <U+006A, U+030C> and is not
      excluded from composition, so NFKC composes "j" followed by U+030C
      into U+01F0; no capital J with caron exists, so "J" followed by
      U+030C is already in NFKC form;
    - lower-casing maps "A".."Z" to "a".."z" and leaves the other
      characters of the alphabet unchanged.
    The comparison is by code units, one consistent comparison among
    those an engine may implement. *)
Module UnicodeFragment.

Definition CARON : N := 780.        (* U+030C *)
Definition J_CARON : N := 496.      (* U+01F0 *)

Fixpoint nfkc (s : jsstring) : jsstring :=
  match s with
  | [] => []
  | c :: rest =>
      match rest with
      | m :: rest' =>
          if (c =? 106) && (m =? CARON) then J_CARON :: nfkc rest'
          else c :: nfkc rest
      | [] => [c]
      end
  end.

Definition lowerChar (c : N) : N :=
  if (65 <=? c) && (c <=? 90) then c + 32 else c.

Definition toLowerCase (s : jsstring) : jsstring := List.map lowerChar s.

Fixpoint compareUnits (a b : jsstring) : Z :=
  match a, b with
  | [], [] => 0
  | [], _ :: _ => -1
  | _ :: _, [] => 1
  | x :: a', y :: b' =>
      if x <? y then -1 else if y <? x then 1 else compareUnits a' b'
  end.

Definition host : Host :=
  mkHost nfkc toLowerCase compareUnits.

End UnicodeFragment.

(** ** A collation for closed examples

    [String.prototype.localeCompare] compares by the collation of the
    engine's locale, not by code units.  [CollationFragment] gives the
    comparison of the root collation of the Unicode Common Locale Data
    Repository, which the engines built on ICU use by default, on a small
    alphabet: the digits, the lower-case ASCII letters, HYPHEN-MINUS and
    APOSTROPHE.  The facts it encodes:
    - every character of the alphabet has a primary weight of its own
      (punctuation is not ignored), and two strings over the alphabet
      compare as the sequences of the primary weights of their
      characters, a proper prefix before the longer string;
    - punctuation sorts before the digits and the digits before the
      letters; the digits and the letters are in the order of their code
      units;
    - HYPHEN-MINUS sorts before APOSTROPHE, against the order of their
      code units (U+002D and U+0027). *)
Module CollationFragment.

Definition HYPHEN : N := 45.        (* U+002D *)
Definition APOSTROPHE : N := 39.    (* U+0027 *)

Definition weight (c : N) : N :=
  if c =? HYPHEN then 0
  else if c =? APOSTROPHE then 1
  else c + 2.

Definition localeCompare (a b : jsstring) : Z :=
  UnicodeFragment.compareUnits (List.map weight a) (List.map weight b).

Definition host : Host :=
  mkHost UnicodeFragment.nfkc UnicodeFragment.toLowerCase localeCompare.

End CollationFragment.

(** ** A composing normalization for closed examples

    [CompositionFragment] gives NFKC on the ASCII characters, U+0307
    COMBINING DOT ABOVE and U+1E03 LATIN SMALL LETTER B WITH DOT ABOVE.
    The Unicode Character Database facts it encodes: ASCII characters
    have no decomposition; U+1E03 decomposes canonically to
    <U+0062, U+0307> and is not excluded from composition, so NFKC
    composes b followed by U+0307 into U+1E03, which lower-casing leaves
    unchanged. *)
Module CompositionFragment.

Definition DOT_ABOVE : N := 775.      (* U+0307 *)
Definition B_DOT_ABOVE : N := 7683.   (* U+1E03 *)

Fixpoint nfkc (s : jsstring) : jsstring :=
  match s with
  | [] => []
  | c :: rest =>
      match rest with
      | m :: rest' =>
          if (c =? 98) && (m =? DOT_ABOVE) then B_DOT_ABOVE :: nfkc rest'
          else c :: nfkc rest
      | [] => [c]
      end
  end.

Definition host : Host :=
  mkHost nfkc UnicodeFragment.toLowerCase UnicodeFragment.compareUnits.

End CompositionFragment.

(** * The vocabulary of the properties

    Ghost state, invariants and specification-level functions that the
    statements below are written with. *)

(** ** The trie grown by [addTokens] *)

Record TrieInv (nx : list props) (paths : list (list jsstring)) : Prop := {
  ti_len : length paths = length nx;
  ti_root : paths !! 0%nat = Some [];
  ti_nodup : NoDup paths;
  ti_depth : forall v p, paths !! v = Some p -> (length p <= v)%nat;
  ti_keys : forall v o, nx !! v = Some o -> NoDup (o.*1);
  ti_edge : forall v o k u,
      nx !! v = Some o -> getProp o k = Some u ->
      exists p, paths !! v = Some p /\ paths !! u = Some (p ++ [k]);
  ti_node : forall v p u k,
      paths !! v = Some p -> paths !! u = Some (p ++ [k]) ->
      getProp (default [] (nx !! v)) k = Some u;
  ti_parent : forall u q k,
      paths !! u = Some (q ++ [k]) -> exists v, paths !! v = Some q
}.

(** ** Insertion: the invariant of [addTokens] *)

Record Inv (ac : TokenAC.t) (paths seqs : list (list jsstring)) : Prop := {
  inv_trie : TrieInv (TokenAC.next ac) paths;
  inv_fail_len : length (TokenAC.fail ac) = length (TokenAC.next ac);
  inv_out_len : length (TokenAC.out ac) = length (TokenAC.next ac);
  inv_fail0 : forall v f, TokenAC.fail ac !! v = Some f -> f = 0%nat;
  inv_phrases : TokenAC.phrases ac = List.map (join (lit " ")) seqs;
  inv_pLens : TokenAC.pLens ac = List.map length seqs;
  inv_seqs_nodup : NoDup seqs;
  inv_seqs_ne : forall s, s ∈ seqs -> s <> [];
  inv_seq_node : forall pid s, seqs !! pid = Some s -> exists v, paths !! v = Some s;
  inv_out : forall v pid,
      pid ∈ TokenAC.outAt ac v <->
      exists s, seqs !! pid = Some s /\ paths !! v = Some s
}.

(** What one insertion does to the registered sequences. *)
Definition seqsStep (seqs : list (list jsstring)) (tokens : list jsstring)
  : list (list jsstring) :=
  match tokens with
  | [] => seqs
  | _ => uniqStep seqs tokens
  end.

Definition addAll (inputs : list (list jsstring)) : TokenAC.t :=
  foldl TokenAC.addTokens TokenAC.empty inputs.

(** ** [build]: failure links by breadth-first search *)

Definition depth (paths : list (list jsstring)) (v : nat) : nat :=
  length (default [] (paths !! v)).

Record WF (ac : TokenAC.t) (paths : list (list jsstring)) : Prop := {
  wf_trie : TrieInv (TokenAC.next ac) paths;
  wf_fail_len : length (TokenAC.fail ac) = length (TokenAC.next ac);
  wf_out_len : length (TokenAC.out ac) = length (TokenAC.next ac);
  wf_lens : length (TokenAC.pLens ac) = length (TokenAC.phrases ac);
  wf_fail : forall v,
      (0 < v < length (TokenAC.next ac))%nat ->
      (TokenAC.failAt ac v < length (TokenAC.next ac))%nat
      /\ (depth paths (TokenAC.failAt ac v) < depth paths v)%nat;
  wf_out : forall v pid,
      pid ∈ TokenAC.outAt ac v -> (pid < length (TokenAC.phrases ac))%nat
}.

(** The children of [v], in the order [Object.keys] lists their keys. *)
Definition childrenOf (o : props) : list nat :=
  List.map (fun k => default 0%nat (getProp o k)) (objectKeys o).

(** The queue of [build] never holds a state twice: [visited] are the
    states already taken from the queue. *)
Definition QInv (nx : list props) (visited q : list nat) : Prop :=
  NoDup (visited ++ q)
  /\ forall u, u ∈ visited ++ q ->
       (0 < u < length nx)%nat
       /\ forall v o k, nx !! v = Some o -> getProp o k = Some u ->
                        v = 0%nat \/ v ∈ visited.

(** ** Matching always returns *)

Definition buildAC (inputs : list (list jsstring)) : option TokenAC.t :=
  TokenAC.build (addAll inputs).

(** ** The phrase store *)

Definition canonical (tokens : list jsstring) : jsstring := join (lit " ") tokens.

Definition nonEmptySeqs (inputs : list (list jsstring)) : list (list jsstring) :=
  List.filter (fun t => negb (bool_decide (t = []))) inputs.

Definition spaceFree (tok : jsstring) : Prop := SPACE ∉ tok.

(** ** [findAll]: the candidates and the [best] map *)

(** The match candidate that phrase [pid] gives at token index [i]:
    [(start, { end: i, phrase })], when [start >= 0]. *)
Definition candidate (ac : TokenAC.t) (i pid : nat) : option (Z * TokenAC.entry) :=
  match TokenAC.pLens ac !! pid, TokenAC.phrases ac !! pid with
  | Some len, Some ph =>
      let start := (Z.of_nat i - Z.of_nat len + 1)%Z in
      if (0 <=? start)%Z then Some (start, TokenAC.mkEntry i ph) else None
  | _, _ => None
  end.

(** All candidates of a scan, in the order the loops meet them. *)
Fixpoint candidates (ac : TokenAC.t) (i state : nat) (tokens : list jsstring)
  : option (list (Z * TokenAC.entry)) :=
  match tokens with
  | [] => Some []
  | tok :: rest =>
      match TokenAC.advance ac state tok with
      | None => None
      | Some state' =>
          match candidates ac (S i) state' rest with
          | None => None
          | Some cs => Some (omap (candidate ac i) (TokenAC.outAt ac state') ++ cs)
          end
      end
  end.

(** [if (!prev || i > prev.end) best.set(start, { end: i, phrase })] *)
Definition keep (best : list (Z * TokenAC.entry)) (c : Z * TokenAC.entry)
  : list (Z * TokenAC.entry) :=
  match mapGet best c.1 with
  | None => mapSet best c.1 c.2
  | Some prev =>
      if (TokenAC.end_ prev <? TokenAC.end_ c.2)%nat then mapSet best c.1 c.2
      else best
  end.

(** [(s, e)] is, among the candidates [cs] that start at [s], the first
    one with the largest end. *)
Definition Longest (cs : list (Z * TokenAC.entry)) (s : Z) (e : TokenAC.entry) : Prop :=
  exists pre post,
    cs = pre ++ (s, e) :: post
    /\ (forall e', (s, e') ∈ pre -> (TokenAC.end_ e' < TokenAC.end_ e)%nat)
    /\ (forall e', (s, e') ∈ post -> (TokenAC.end_ e' <= TokenAC.end_ e)%nat).

Record BestOf (cs best : list (Z * TokenAC.entry)) : Prop := {
  best_keys : NoDup best.*1;
  best_longest : forall s e, mapGet best s = Some e -> Longest cs s e;
  best_covers : forall s e, (s, e) ∈ cs -> is_Some (mapGet best s)
}.

(** ** [findAll]: the order of the result *)



(** ** [trim] *)

Definition allSpace (s : jsstring) : Prop := forallb isWhiteSpace s = true.

(** No white space at either end. *)
Definition trimmedText (s : jsstring) : Prop :=
  headIs isWhiteSpace s = false /\ headIs isWhiteSpace (rev s) = false.

(** ** Builders made by the constructor *)

Definition Constructed (h : Host) (b : SearchQueryBuilder.t) : Prop :=
  exists opts,
    PrepareQueryOptions.acOverride opts = None
    /\ SearchQueryBuilder.new h opts = Some b.

(** ** [prepare], step by step *)

(** Lines 270-273: the tokens of the remainder, without the stop words. *)
Definition cleanedTokensOf (b : SearchQueryBuilder.t) (remainder : jsstring)
  : list jsstring :=
  match SearchQueryBuilder.stopWords b with
  | [] => SearchQueryBuilder.tokenize b remainder
  | _ => List.filter
           (fun t => negb (bool_decide (t ∈ SearchQueryBuilder.stopWords b)))
           (SearchQueryBuilder.tokenize b remainder)
  end.

Definition emptyQuery (userInput : jsstring) : PreparedQuery :=
  {| originalInput := userInput;
     protectedPhrases := [];
     cleanedTokens := [];
     cleanedText := [];
     utteranceMatches := [];
     queryString := [];
     hadUnbalancedQuotes := false |}.

Definition plainOptions : PrepareQueryOptions.t :=
  {| PrepareQueryOptions.stopWords := [];
     PrepareQueryOptions.utterances := None;
     PrepareQueryOptions.pretokenizedUtterances := None;
     PrepareQueryOptions.normalize := None;
     PrepareQueryOptions.tokenize := None;
     PrepareQueryOptions.wrap := None;
     PrepareQueryOptions.alwaysIncludeCleaned := false;
     PrepareQueryOptions.acOverride := None |}.

(** The builder [new SearchQueryBuilder({ stopWords: new Set() })] on the
    concrete host. *)
Definition plainBuilder : SearchQueryBuilder.t :=
  {| SearchQueryBuilder.stopWords := [];
     SearchQueryBuilder.normalize := defaultNormalize UnicodeFragment.host;
     SearchQueryBuilder.tokenize := defaultTokenize UnicodeFragment.host;
     SearchQueryBuilder.wrap := defaultWrap;
     SearchQueryBuilder.alwaysIncludeCleaned := false;
     SearchQueryBuilder.ac :=
       {| TokenAC.next := [[]]; TokenAC.fail := [0%nat]; TokenAC.out := [[]];
          TokenAC.phrases := []; TokenAC.pLens := [] |} |}.

(** The same builder on the host of [CompositionFragment]. *)
Definition composingBuilder : SearchQueryBuilder.t :=
  {| SearchQueryBuilder.stopWords := [];
     SearchQueryBuilder.normalize := defaultNormalize CompositionFragment.host;
     SearchQueryBuilder.tokenize := defaultTokenize CompositionFragment.host;
     SearchQueryBuilder.wrap := defaultWrap;
     SearchQueryBuilder.alwaysIncludeCleaned := false;
     SearchQueryBuilder.ac :=
       {| TokenAC.next := [[]]; TokenAC.fail := [0%nat]; TokenAC.out := [[]];
          TokenAC.phrases := []; TokenAC.pLens := [] |} |}.

(** ** Quote balance *)

(** The straight quotation marks of [s] that are not immediately preceded
    by a backslash; [prev] is the character before [s]. *)
Fixpoint unescapedQuotes (prev : option N) (s : jsstring) : nat :=
  match s with
  | [] => 0
  | c :: rest =>
      let hit :=
        if (c =? QUOTE) && negb (eqChar prev BACKSLASH) then 1%nat else 0%nat in
      (hit + unescapedQuotes (Some c) rest)%nat
  end.

Definition straightCount (s : jsstring) : nat := unescapedQuotes None s.
Definition curlyOpens (s : jsstring) : nat := countChar LDQUO s.
Definition curlyCloses (s : jsstring) : nat := countChar RDQUO s.


(** ** The unbalanced path *)

(** Every maximal run of characters satisfying [p] becomes one space. *)
Fixpoint collapseRuns (p : N -> bool) (inRun : bool) (s : jsstring) : jsstring :=
  match s with
  | [] => []
  | c :: rest =>
      if p c then
        if inRun then collapseRuns p true rest
        else SPACE :: collapseRuns p true rest
      else c :: collapseRuns p false rest
  end.

(** The remainder in the words of the specification: the quote
    characters deleted, then runs of white space collapsed, trimmed. *)
Definition deleteQuotesThenCollapse (s : jsstring) : jsstring :=
  trim (collapseSpaces false
          (List.filter (fun c => negb (isQuoteChar c)) s)).

(** ** Quote-escaping *)

(** What [quoteExact] writes for one character. *)
Definition escapeChar (c : N) : jsstring :=
  if c =? BACKSLASH then [BACKSLASH; BACKSLASH]
  else if c =? QUOTE then [BACKSLASH; QUOTE]
  else [c].

(** De-escaping, the inverse the specification speaks of: a backslash
    stands for the character after it, which has to be a backslash or a
    double quote; a bare double quote is not escaped text. *)
Fixpoint unescape (s : jsstring) : option jsstring :=
  match s with
  | [] => Some []
  | c :: rest =>
      if c =? BACKSLASH then
        match rest with
        | d :: rest' =>
            if (d =? BACKSLASH) || (d =? QUOTE)
            then option_map (cons d) (unescape rest')
            else None
        | [] => None
        end
      else if c =? QUOTE then None
      else option_map (cons c) (unescape rest)
  end.

(** Remove the enclosing double quotes, then de-escape. *)
Definition unquoteExact (q : jsstring) : option jsstring :=
  match q with
  | c :: body =>
      if c =? QUOTE then
        match rev body with
        | d :: rbody => if d =? QUOTE then unescape (rev rbody) else None
        | [] => None
        end
      else None
  | [] => None
  end.

(** The texts of the clauses, before escaping (lines 278-291). *)
Definition clauseTexts (b : SearchQueryBuilder.t)
    (originalInput trimmed cleanedText : jsstring) (quotesBalanced : bool)
    (protectedPhrases utteranceMatches : list jsstring) : list jsstring :=
  [trimmed]
  ++ (if negb (bool_decide (cleanedText = []))
         && (SearchQueryBuilder.alwaysIncludeCleaned b
             || negb (bool_decide
                        (cleanedText = SearchQueryBuilder.normalize b originalInput)))
      then [cleanedText] else [])
  ++ (if quotesBalanced then protectedPhrases else [])
  ++ utteranceMatches.

(** ** The default normalizer *)

Definition isAscii (c : N) : Prop := c < 128.

(** ** The tokenizer: tokens are the maximal runs of token characters *)

Definition optIs (p : N -> bool) (o : option N) : bool :=
  match o with
  | Some c => p c
  | None => false
  end.

Definition before (text : jsstring) (k : nat) : option N :=
  match k with
  | O => None
  | S k' => text !! k'
  end.

Definition tokAt (text : jsstring) (k : nat) : bool :=
  match text !! k with
  | Some c =>
      isAlnum c
      || (isJoiner c && optIs isAlnum (before text k)
          && optIs isAlnum (text !! S k))
  | None => false
  end.

(** [t] is the part of [text] from index [i] on. *)
Definition occurs (text : jsstring) (i : nat) (t : jsstring) : Prop :=
  take (length t) (drop i text) = t.

(** A maximal run of token characters. *)
Record Run (text : jsstring) (i : nat) (t : jsstring) : Prop := {
  run_ne : t <> [];
  run_occ : occurs text i t;
  run_tok : forall k, (i <= k < i + length t)%nat -> tokAt text k = true;
  run_left : (0 < i)%nat -> tokAt text (i - 1) = false;
  run_right : tokAt text (i + length t) = false
}.

(** What the scan has behind it: [pre] is the text before the match in
    progress [cur]; every character of [cur] is a token character and the
    character before [cur] is none. *)
Definition ScanInv (text pre cur : jsstring) : Prop :=
  (forall k, (length pre <= k < length pre + length cur)%nat -> tokAt text k = true)
  /\ (pre <> [] -> tokAt text (length pre - 1) = false).

(** ** The shape of a token *)

Definition allAlnum (r : jsstring) : Prop := forallb isAlnum r = true.

(** [[a-z0-9]+(?:[-'][a-z0-9]+)*]: runs of alphanumerics, one joiner
    between every two of them. *)
Inductive TokenShape : jsstring -> Prop :=
| shape_run r : r <> [] -> allAlnum r -> TokenShape r
| shape_join t j r :
    TokenShape t -> isJoiner j = true -> r <> [] -> allAlnum r ->
    TokenShape (t ++ j :: r).

(** The pattern in the words of the specification: one run of
    alphanumerics, optionally followed by a single joiner and one more
    run. *)
Definition SingleJoinShape (t : jsstring) : Prop :=
  (t <> [] /\ allAlnum t)
  \/ exists r1 j r2,
       t = r1 ++ j :: r2
       /\ r1 <> [] /\ allAlnum r1 /\ isJoiner j = true
       /\ r2 <> [] /\ allAlnum r2.

(** [t], found in [text] at [i], matches [shape] and no larger part of
    [text] around it does. *)
Definition MaximalMatch (shape : jsstring -> Prop) (text : jsstring)
    (i : nat) (t : jsstring) : Prop :=
  shape t /\ occurs text i t
  /\ forall i' t',
       shape t' -> occurs text i' t' ->
       (i' <= i)%nat -> (i + length t <= i' + length t')%nat ->
       i' = i /\ t' = t.

(** ** The balanced path: a quoted span leaves no gap *)






(** An opening mark and the closing mark of its family. *)
Definition QuoteFamily (o c : N) : Prop :=
  (o = QUOTE /\ c = QUOTE) \/ (o = LDQUO /\ c = RDQUO).




(** ** The automaton after [build] *)

(** Following the edges labelled [toks] from [node]. *)
Fixpoint walk (nx : list props) (node : nat) (toks : list jsstring) : option nat :=
  match toks with
  | [] => Some node
  | tok :: rest =>
      match getProp (default [] (nx !! node)) tok with
      | Some child => walk nx child rest
      | None => None
      end
  end.

(** [w] is the state of the longest suffix of [X] that is a path of the
    trie. *)
Definition LongestSuffixNode (paths : list (list jsstring))
    (X : list jsstring) (w : nat) : Prop :=
  exists q,
    paths !! w = Some q /\ q `suffix_of` X
    /\ forall q' w', q' `suffix_of` X -> paths !! w' = Some q' ->
                     (length q' <= length q)%nat.

(** The failure link of [u] is right: it leads to the longest proper
    suffix of the path of [u] that is a path itself. *)
Definition FailOK (ac : TokenAC.t) (paths : list (list jsstring)) (u : nat) : Prop :=
  forall p, paths !! u = Some p ->
            LongestSuffixNode paths (tail p) (TokenAC.failAt ac u).

(** The loop invariant of following failure links on token [k]: the
    path of [j] is a suffix of [X], and no longer suffix of [X] has an
    edge [k]. *)
Definition Cand (paths : list (list jsstring)) (X : list jsstring)
    (k : jsstring) (j : nat) : Prop :=
  exists p,
    paths !! j = Some p /\ p `suffix_of` X
    /\ forall q w w', q `suffix_of` X -> paths !! w = Some q ->
                      paths !! w' = Some (q ++ [k]) ->
                      (length q <= length p)%nat.

(** The registered token sequences are not empty and have their states. *)
Record Registered (paths seqs : list (list jsstring)) : Prop := {
  reg_ne : forall s, s ∈ seqs -> s <> [];
  reg_node : forall pid s, seqs !! pid = Some s -> exists v, paths !! v = Some s
}.

(** The outputs of [f] are complete: the registered sequences that are
    suffixes of its path. *)
Definition OutFull (ac : TokenAC.t) (paths seqs : list (list jsstring))
    (f : nat) : Prop :=
  forall p pid, paths !! f = Some p ->
    (pid ∈ TokenAC.outAt ac f
     <-> exists s, seqs !! pid = Some s /\ s `suffix_of` p).

(** The state of the breadth-first search: [visited] then [q] lists the
    states in the order they entered the queue, nearest the root first. *)
Record BfsInv (ac : TokenAC.t) (paths seqs : list (list jsstring))
    (visited q : list nat) : Prop := {
  bi_wf : WF ac paths;
  bi_q : QInv (TokenAC.next ac) visited q;
  bi_sorted : forall i j a b,
      (visited ++ q) !! i = Some a -> (visited ++ q) !! j = Some b ->
      (i <= j)%nat -> (depth paths a <= depth paths b)%nat;
  bi_near : forall a b, a ∈ q -> b ∈ visited ++ q ->
      (depth paths b <= S (depth paths a))%nat;
  bi_root : forall k u,
      getProp (TokenAC.nextAt ac 0) k = Some u -> u ∈ visited ++ q;
  bi_children : forall v k u, v ∈ visited ->
      getProp (TokenAC.nextAt ac v) k = Some u -> u ∈ visited ++ q;
  bi_fail : forall u, u ∈ visited ++ q -> FailOK ac paths u;
  bi_out_done : forall v, v ∈ visited -> OutFull ac paths seqs v;
  bi_out_todo : forall v pid, v ∉ visited ->
      (pid ∈ TokenAC.outAt ac v
       <-> exists s, seqs !! pid = Some s /\ paths !! v = Some s)
}.

(** What [build] establishes. *)
Record Built (ac : TokenAC.t) (paths seqs : list (list jsstring)) : Prop := {
  built_wf : WF ac paths;
  built_reg : Registered paths seqs;
  built_phrases : TokenAC.phrases ac = List.map (join (lit " ")) seqs;
  built_pLens : TokenAC.pLens ac = List.map length seqs;
  built_fail : forall u, (0 < u)%nat -> FailOK ac paths u;
  built_out : forall v, OutFull ac paths seqs v
}.

(** ** [findAll]: what is reported *)

(** The token sequence [s] stands in [tokens] from index [start] on. *)
Definition phraseAt (tokens : list jsstring) (start : nat) (s : list jsstring)
  : Prop :=
  s <> [] /\ exists pre post, tokens = pre ++ s ++ post /\ length pre = start.

(** The value of [state] when the loop of [findAll] has read [tokens]. *)
Fixpoint stateAfter (ac : TokenAC.t) (state : nat) (tokens : list jsstring)
  : option nat :=
  match tokens with
  | [] => Some state
  | tok :: rest =>
      match TokenAC.advance ac state tok with
      | Some state' => stateAfter ac state' rest
      | None => None
      end
  end.

(** ** The constructor and the clauses *)

(** The token sequences the constructor registers (lines 230-234): the
    pretokenized utterances when there are any, else the tokens of the
    utterances. *)
Definition registeredOf (tokenize : jsstring -> list jsstring)
    (opts : PrepareQueryOptions.t) : list (list jsstring) :=
  match SearchQueryBuilder.nonEmpty (PrepareQueryOptions.pretokenizedUtterances opts) with
  | Some pre => pre
  | None =>
      match SearchQueryBuilder.nonEmpty (PrepareQueryOptions.utterances opts) with
      | Some us => List.map tokenize us
      | None => []
      end
  end.

(** The cleaned clause of [prepare] (lines 282-287), as a list of texts. *)
Definition cleanedClause (b : SearchQueryBuilder.t) (originalInput cleanedText : jsstring)
  : list jsstring :=
  if negb (bool_decide (cleanedText = []))
     && (SearchQueryBuilder.alwaysIncludeCleaned b
         || negb (bool_decide
                    (cleanedText = SearchQueryBuilder.normalize b originalInput)))
  then [cleanedText] else [].

(** ** Separators *)

(** A character that can be no part of a token. *)
Definition isSeparator (c : N) : bool := negb (isAlnum c) && negb (isJoiner c).

(** ** Quoted spans *)

(** [p] stands in [input] between an opening mark and the first closing
    mark of its family after it that no backslash precedes: a closing mark
    inside [p] follows a backslash, and [p] does not end in one. *)
Definition QuotedSpan (input p : jsstring) : Prop :=
  exists pre post o c,
    QuoteFamily o c
    /\ input = pre ++ o :: p ++ c :: post
    /\ list.last p <> Some BACKSLASH
    /\ forall k, p !! k = Some c ->
                 exists k', k = S k' /\ p !! k' = Some BACKSLASH.

(** ** What [stripStrayQuotes] keeps *)

(** A character that [stripStrayQuotes] keeps as it is. *)
Definition isKept (c : N) : bool := negb (isQuoteChar c) && negb (isWhiteSpace c).

(** ** The dictionary of [toCompact] *)

(** The index map of [toCompact] mirrors the dictionary. *)
Definition IdxInv (dict : list jsstring) (idx : props) : Prop :=
  NoDup dict /\ forall t i, getProp idx t = Some i <-> dict !! i = Some t.

(** The tokens of a phrase, as [toCompact] takes them. *)
Definition phraseTokens (p : jsstring) : list jsstring := splitWhiteSpace (trim p).

(** * Properties *)

(** ** Property bags and [Object.keys] *)

Lemma getProp_None (o : props) k : getProp o k = None <-> k ∉ o.*1.
Proof.
  induction o as [|[k' v] o IH]; simpl.
  - split; [intros _; apply not_elem_of_nil | done].
  - destruct (decide (k' = k)) as [->|Hne].
    + split; [done | intros H; exfalso; apply H; left].
    + rewrite IH, not_elem_of_cons. simpl. split; [auto | intros [_ ?]; done].
Qed.

Lemma getProp_Some_elem (o : props) k v : getProp o k = Some v -> (k, v) ∈ o.
Proof.
  induction o as [|[k' v'] o IH]; simpl; [done|].
  destruct (decide (k' = k)) as [->|Hne].
  - intros [= ->]. left.
  - intros H. right. auto.
Qed.

Lemma getProp_is_Some (o : props) k : k ∈ o.*1 -> is_Some (getProp o k).
Proof.
  intros Hin. destruct (getProp o k) eqn:E; [eauto|].
  apply getProp_None in E. done.
Qed.

Lemma getProp_setProp_eq (o : props) k v : getProp (setProp o k v) k = Some v.
Proof.
  induction o as [|[k' v'] o IH]; simpl.
  - by rewrite decide_True.
  - destruct (decide (k' = k)) as [->|Hne]; simpl.
    + by rewrite decide_True.
    + by rewrite decide_False.
Qed.

Lemma getProp_setProp_ne (o : props) k k' v :
  k <> k' -> getProp (setProp o k v) k' = getProp o k'.
Proof.
  intros Hne. induction o as [|[k0 v0] o IH]; simpl.
  - by rewrite decide_False.
  - destruct (decide (k0 = k)) as [->|Hne0]; simpl.
    + by rewrite !decide_False.
    + destruct (decide (k0 = k')); [done | apply IH].
Qed.

Lemma setProp_fresh_keys (o : props) k v :
  getProp o k = None -> (setProp o k v).*1 = o.*1 ++ [k].
Proof.
  induction o as [|[k0 v0] o IH]; simpl; [done|].
  destruct (decide (k0 = k)); [done|]. intros H. simpl. f_equal. auto.
Qed.

Lemma insertIndexKey_perm v k l : insertIndexKey v k l ≡ₚ (v, k) :: l.
Proof.
  induction l as [|[v' k'] l IH]; simpl; [done|].
  destruct (v <? v'); [done|]. rewrite IH. apply Permutation_swap.
Qed.

Lemma indexedKeys_perm (keys : list jsstring) acc :
  (foldl (fun acc k =>
            match arrayIndex k with
            | Some v => insertIndexKey v k acc
            | None => acc
            end) acc keys).*2
  ≡ₚ acc.*2 ++ List.filter (fun k => isSome (arrayIndex k)) keys.
Proof.
  revert acc. induction keys as [|k keys IH]; intros acc; simpl.
  - by rewrite app_nil_r.
  - rewrite IH. destruct (arrayIndex k) as [v|]; simpl; [|done].
    rewrite insertIndexKey_perm. simpl.
    by rewrite Permutation_middle.
Qed.

Lemma filter_split_perm {A} (p : A -> bool) (l : list A) :
  List.filter p l ++ List.filter (fun x => negb (p x)) l ≡ₚ l.
Proof.
  induction l as [|x l IH]; simpl; [done|].
  destruct (p x); simpl.
  - by rewrite IH.
  - by rewrite <- Permutation_middle, IH.
Qed.

Lemma objectKeys_perm (o : props) : objectKeys o ≡ₚ o.*1.
Proof.
  unfold objectKeys.
  change (List.map snd ?l) with (l.*2). change (List.map fst o) with (o.*1).
  rewrite indexedKeys_perm. simpl.
  apply (filter_split_perm (fun k => isSome (arrayIndex k))).
Qed.

(** ** The trie grown by [addTokens]

    [paths] is ghost state: [paths !! v] is the token sequence spelled by
    the edges from the root to state [v]. *)

Lemma TrieInv_empty : TrieInv [[]] [[]].
Proof.
  split; try done.
  - apply NoDup_singleton.
  - intros [|v] p; simpl; [intros [= <-]; simpl; lia | done].
  - intros [|v] o; simpl; [intros [= <-]; constructor | done].
  - intros [|v] o k u; simpl; [intros [= <-]; done | done].
  - intros [|v] p [|u] k; simpl; try done.
    intros _ [= H]. by destruct p.
  - intros [|u] q k; simpl; [|done]. intros [= H]. by destruct q.
Qed.

Section trie_facts.
Context {nx : list props} {paths : list (list jsstring)}.
Hypothesis T : TrieInv nx paths.

Lemma trie_inj u v p : paths !! u = Some p -> paths !! v = Some p -> u = v.
Proof. intros Hu Hv. eapply NoDup_lookup; eauto using ti_nodup. Qed.

Lemma trie_lt v p : paths !! v = Some p -> (v < length nx)%nat.
Proof. intros H. rewrite <- (ti_len _ _ T). by eapply lookup_lt_Some. Qed.

Lemma trie_path v : (v < length nx)%nat -> exists p, paths !! v = Some p.
Proof.
  intros H. apply lookup_lt_is_Some. by rewrite (ti_len _ _ T).
Qed.

Lemma trie_child_lt v o k u :
  nx !! v = Some o -> getProp o k = Some u -> (0 < u < length nx)%nat.
Proof.
  intros Hv Hk. destruct (ti_edge _ _ T _ _ _ _ Hv Hk) as (p & Hp & Hu).
  split; [|by eapply trie_lt].
  destruct u; [|lia]. rewrite (ti_root _ _ T) in Hu.
  injection Hu as Hu. by destruct p.
Qed.

Lemma trie_unique_parent v o k u v' o' k' :
  nx !! v = Some o -> getProp o k = Some u ->
  nx !! v' = Some o' -> getProp o' k' = Some u ->
  v = v' /\ k = k'.
Proof.
  intros Hv Hk Hv' Hk'.
  destruct (ti_edge _ _ T _ _ _ _ Hv Hk) as (p & Hp & Hu).
  destruct (ti_edge _ _ T _ _ _ _ Hv' Hk') as (p' & Hp' & Hu').
  rewrite Hu in Hu'. injection Hu' as Hu'.
  apply app_inj_tail in Hu' as [-> ->]. split; [|done].
  by eapply trie_inj.
Qed.
End trie_facts.

(** A new edge out of [node] to the fresh state [length nx]. *)
Lemma TrieInv_extend nx paths node p tok :
  TrieInv nx paths ->
  paths !! node = Some p ->
  getProp (default [] (nx !! node)) tok = None ->
  TrieInv (<[node := setProp (default [] (nx !! node)) tok (length nx)]> nx ++ [[]])
          (paths ++ [p ++ [tok]]).
Proof.
  intros T Hp Hnone.
  pose proof (trie_lt T _ _ Hp) as Hlt.
  destruct (lookup_lt_is_Some_2 nx node Hlt) as [o Ho].
  rewrite Ho in Hnone |- *; simpl in Hnone |- *.
  assert (Hfresh : forall u, paths !! u <> Some (p ++ [tok])).
  { intros u Hu. pose proof (ti_node _ _ T _ _ _ _ Hp Hu) as H.
    rewrite Ho in H; simpl in H. congruence. }
  assert (Hlen : length paths = length nx) by apply T.
  assert (Hnx : forall v o', (<[node := setProp o tok (length nx)]> nx ++ [[]]) !! v = Some o' ->
                  (v = node /\ o' = setProp o tok (length nx))
                  \/ (v <> node /\ nx !! v = Some o')
                  \/ (v = length nx /\ o' = [])).
  { intros v o' H. apply lookup_app_Some in H as [H|[Hge H]].
    - destruct (decide (v = node)) as [->|Hne].
      + rewrite list_lookup_insert_eq in H by done. left. naive_solver.
      + rewrite list_lookup_insert_ne in H by done. right; left. done.
    - rewrite length_insert in Hge, H. right; right.
      destruct (v - length nx)%nat eqn:E; simpl in H; [|done].
      split; [lia | congruence]. }
  split.
  - rewrite !length_app, length_insert. simpl. lia.
  - rewrite lookup_app_l; [apply T|]. apply lookup_lt_Some with (x := p) in Hp as ?.
    lia.
  - apply list.NoDup_app. split; [apply T|]. split; [|apply NoDup_singleton].
    intros x Hx Hx'. apply list_elem_of_singleton in Hx' as ->.
    apply list_elem_of_lookup in Hx as [u Hu]. by eapply Hfresh.
  - intros v q Hv. apply lookup_app_Some in Hv as [Hv|[Hge Hv]].
    + by eapply ti_depth.
    + destruct (v - length paths)%nat eqn:E; simpl in Hv; [|done].
      injection Hv as <-. rewrite length_app; simpl.
      pose proof (ti_depth _ _ T _ _ Hp). lia.
  - intros v o' H. apply Hnx in H as [[-> ->]|[[Hne H]|[-> ->]]].
    + rewrite setProp_fresh_keys by done. apply list.NoDup_app.
      split; [by eapply ti_keys|]. split; [|apply NoDup_singleton].
      intros x Hx Hx'. apply list_elem_of_singleton in Hx' as ->.
      by apply getProp_None in Hnone.
    + by eapply ti_keys.
    + constructor.
  - intros v o' k u H Hk. apply Hnx in H as [[-> ->]|[[Hne H]|[-> ->]]].
    + destruct (decide (tok = k)) as [->|Hk'].
      * rewrite getProp_setProp_eq in Hk. injection Hk as <-.
        exists p. split; [by apply lookup_app_l_Some|].
        rewrite lookup_app_r by lia. by rewrite Hlen, Nat.sub_diag.
      * rewrite getProp_setProp_ne in Hk by done.
        destruct (ti_edge _ _ T _ _ _ _ Ho Hk) as (p' & Hp' & Hu).
        exists p'. split; by apply lookup_app_l_Some.
    + destruct (ti_edge _ _ T _ _ _ _ H Hk) as (p' & Hp' & Hu).
      exists p'. split; by apply lookup_app_l_Some.
    + done.
  - intros v q u k Hv Hu.
    apply lookup_app_Some in Hu as [Hu|[Hge Hu]].
    + (* an old child *)
      apply lookup_app_Some in Hv as [Hv|[Hge Hv]].
      * pose proof (ti_node _ _ T _ _ _ _ Hv Hu) as H.
        pose proof (trie_lt T _ _ Hv) as Hvlt.
        rewrite lookup_app_l by (rewrite length_insert; lia).
        destruct (decide (v = node)) as [->|Hne].
        -- rewrite list_lookup_insert_eq by done. simpl.
           rewrite Ho in H; simpl in H.
           rewrite getProp_setProp_ne; [done|]. intros ->. congruence.
        -- by rewrite list_lookup_insert_ne.
      * destruct (v - length paths)%nat eqn:E; simpl in Hv; [|done].
        injection Hv as <-.
        destruct (ti_parent _ _ T _ _ _ Hu) as [w Hw]. by apply Hfresh in Hw.
    + (* the fresh state *)
      destruct (u - length paths)%nat eqn:E; simpl in Hu; [|done].
      injection Hu as Hu. apply app_inj_tail in Hu as [-> ->].
      assert (u = length nx) as -> by lia.
      apply lookup_app_Some in Hv as [Hv|[Hge' Hv]].
      * assert (v = node) as -> by (by eapply (trie_inj T)).
        rewrite lookup_app_l by (rewrite length_insert; lia).
        rewrite list_lookup_insert_eq by done. simpl.
        apply getProp_setProp_eq.
      * destruct (v - length paths)%nat eqn:E'; simpl in Hv; [|done].
        injection Hv as Hv. apply (f_equal length) in Hv.
        rewrite length_app in Hv. simpl in Hv. lia.
  - intros u q k Hu. apply lookup_app_Some in Hu as [Hu|[Hge Hu]].
    + destruct (ti_parent _ _ T _ _ _ Hu) as [w Hw].
      exists w. by apply lookup_app_l_Some.
    + destruct (u - length paths)%nat eqn:E; simpl in Hu; [|done].
      injection Hu as Hu. apply app_inj_tail in Hu as [-> ->].
      exists node. by apply lookup_app_l_Some.
Qed.

(** ** Insertion: the invariant of [addTokens]

    [seqs] is ghost state too: [seqs !! pid] is the token sequence that
    was registered as phrase [pid]. *)

Lemma Inv_empty : Inv TokenAC.empty [[]] [].
Proof.
  split; simpl; try done.
  - apply TrieInv_empty.
  - intros [|v] f; simpl; [by intros [= <-] | done].
  - constructor.
  - intros s Hs. by apply elem_of_nil in Hs.
  - intros v pid. split.
    + destruct v as [|v]; unfold TokenAC.outAt; simpl; intros H;
        by apply elem_of_nil in H.
    + by intros (s & Hs & _).
Qed.

Lemma addStep_inv ac node tok paths seqs p :
  Inv ac paths seqs -> paths !! node = Some p ->
  exists more,
    Inv (fst (TokenAC.addStep (ac, node) tok)) (paths ++ more) seqs
    /\ (paths ++ more) !! snd (TokenAC.addStep (ac, node) tok) = Some (p ++ [tok]).
Proof.
  intros I Hp. pose proof (inv_trie _ _ _ I) as T.
  pose proof (trie_lt T _ _ Hp) as Hlt.
  destruct (lookup_lt_is_Some_2 _ _ Hlt) as [o Ho].
  unfold TokenAC.addStep, TokenAC.nextAt. rewrite Ho. simpl.
  destruct (getProp o tok) as [child|] eqn:Hk; simpl.
  - exists []. rewrite app_nil_r. split; [done|].
    destruct (ti_edge _ _ T _ _ _ _ Ho Hk) as (p' & Hp' & Hu). congruence.
  - exists [p ++ [tok]].
    assert (Hlen : length paths = length (TokenAC.next ac)) by apply T.
    split; [|rewrite lookup_app_r by lia; by rewrite Hlen, Nat.sub_diag].
    assert (Hfresh : forall u, paths !! u <> Some (p ++ [tok])).
    { intros u Hu. pose proof (ti_node _ _ T _ _ _ _ Hp Hu) as H.
      rewrite Ho in H; simpl in H. congruence. }
    split; simpl; try apply I.
    + pose proof (TrieInv_extend _ _ _ _ tok T Hp) as H.
      rewrite Ho in H. simpl in H. by apply H.
    + rewrite !length_app, length_insert. simpl. f_equal. apply I.
    + rewrite !length_app, length_insert. simpl. f_equal. apply I.
    + intros v f Hv. apply lookup_app_Some in Hv as [Hv|[_ Hv]].
      * by eapply inv_fail0.
      * destruct (v - _)%nat; simpl in Hv; [congruence | done].
    + intros pid s Hs. destruct (inv_seq_node _ _ _ I _ _ Hs) as [v Hv].
      exists v. by apply lookup_app_l_Some.
    + intros v pid. unfold TokenAC.outAt. simpl.
      pose proof (inv_out _ _ _ I v pid) as Hout. unfold TokenAC.outAt in Hout.
      destruct (decide (v < length (TokenAC.out ac))%nat) as [Hv|Hv].
      * rewrite lookup_app_l by done. rewrite Hout.
        rewrite lookup_app_l; [done|]. rewrite Hlen, <- (inv_out_len _ _ _ I). done.
      * rewrite lookup_app_r by lia. split.
        -- destruct (v - _)%nat as [|[|?]]; simpl; intros H;
             by apply elem_of_nil in H.
        -- intros (s & Hs & Hv'). exfalso.
           apply lookup_app_Some in Hv' as [Hv'|[_ Hv']].
           ++ apply lookup_lt_Some in Hv'.
              rewrite Hlen, <- (inv_out_len _ _ _ I) in Hv'. lia.
           ++ destruct (v - _)%nat; simpl in Hv'; [|done].
              injection Hv' as <-.
              destruct (inv_seq_node _ _ _ I _ _ Hs) as [w Hw].
              by apply Hfresh in Hw.
Qed.

Lemma addStep_walk toks : forall ac node paths seqs p,
  Inv ac paths seqs -> paths !! node = Some p ->
  exists more,
    Inv (fst (foldl TokenAC.addStep (ac, node) toks)) (paths ++ more) seqs
    /\ (paths ++ more) !! snd (foldl TokenAC.addStep (ac, node) toks)
       = Some (p ++ toks).
Proof.
  induction toks as [|tok toks IH]; intros ac node paths seqs p I Hp;
    cbn [foldl].
  - exists []. rewrite !app_nil_r. done.
  - destruct (addStep_inv ac node tok paths seqs p I Hp) as (m1 & I1 & Hp1).
    destruct (TokenAC.addStep (ac, node) tok) as [ac1 node1]. simpl in I1, Hp1.
    destruct (IH ac1 node1 _ _ _ I1 Hp1) as (m2 & I2 & Hp2).
    exists (m1 ++ m2). rewrite app_assoc.
    split; [done|]. rewrite Hp2. by rewrite <- app_assoc.
Qed.

Lemma addTokens_inv ac tokens paths seqs :
  Inv ac paths seqs ->
  exists more, Inv (TokenAC.addTokens ac tokens) (paths ++ more) (seqsStep seqs tokens).
Proof.
  intros I. destruct tokens as [|t0 ts].
  { exists []. by rewrite app_nil_r. }
  unfold TokenAC.addTokens, seqsStep. set (tokens := t0 :: ts).
  destruct (addStep_walk tokens ac 0%nat paths seqs [] I) as (more & I1 & Hnode).
  { apply I. }
  destruct (foldl TokenAC.addStep (ac, 0%nat) tokens) as [ac1 node].
  simpl in I1, Hnode. exists more.
  set (paths1 := paths ++ more) in *.
  pose proof (inv_out _ _ _ I1 node) as Hout.
  assert (Hreg : forall pid, seqs !! pid = Some tokens <-> pid ∈ TokenAC.outAt ac1 node).
  { intros pid. rewrite Hout. split; [eauto|]. intros (s & Hs & Hv). congruence. }
  unfold uniqStep.
  destruct (existsb _ _) eqn:Hex.
  - apply existsb_exists in Hex as (pid & Hin & _).
    apply list_elem_of_In, Hreg in Hin.
    rewrite bool_decide_eq_true_2; [done|].
    apply list_elem_of_lookup. eauto.
  - assert (Hnew : tokens ∉ seqs).
    { intros Hin. apply list_elem_of_lookup in Hin as [pid Hpid].
      apply not_true_iff_false in Hex. apply Hex.
      apply existsb_exists. exists pid. split.
      - apply list_elem_of_In. by apply Hreg.
      - apply bool_decide_eq_true_2.
        rewrite (inv_phrases _ _ _ I1).
        change (List.map ?f ?l) with (f <$> l).
        by rewrite list_lookup_fmap, Hpid. }
    rewrite bool_decide_eq_false_2 by done.
    assert (Hplen : length (TokenAC.phrases ac1) = length seqs).
    { rewrite (inv_phrases _ _ _ I1). apply length_map. }
    split; simpl; try apply I1.
    + rewrite length_insert. apply I1.
    + rewrite (inv_phrases _ _ _ I1), List.map_app. done.
    + rewrite (inv_pLens _ _ _ I1), List.map_app. done.
    + apply list.NoDup_app. split; [apply I1|]. split; [|apply NoDup_singleton].
      intros x Hx Hx'. apply list_elem_of_singleton in Hx' as ->. done.
    + intros s Hs. apply elem_of_app in Hs as [Hs|Hs].
      * by eapply inv_seqs_ne.
      * apply list_elem_of_singleton in Hs as ->. done.
    + intros pid s Hs. apply lookup_app_Some in Hs as [Hs|[_ Hs]].
      * by eapply inv_seq_node.
      * destruct (pid - _)%nat; simpl in Hs; [|done].
        injection Hs as <-. eauto.
    + intros v pid. unfold TokenAC.outAt; simpl.
      pose proof (inv_out _ _ _ I1 v pid) as Hv. unfold TokenAC.outAt in Hv, Hreg.
      assert (Hnlt : (node < length (TokenAC.out ac1))%nat).
      { rewrite (inv_out_len _ _ _ I1). by eapply trie_lt; [apply I1|]. }
      destruct (decide (v = node)) as [->|Hne].
      * rewrite list_lookup_insert_eq by done. simpl.
        rewrite elem_of_app, list_elem_of_singleton, Hv. split.
        -- intros [(s & Hs & Hp) | ->].
           ++ exists s. split; [by apply lookup_app_l_Some | done].
           ++ exists tokens. split; [|done].
              rewrite lookup_app_r by lia. by rewrite Hplen, Nat.sub_diag.
        -- intros (s & Hs & Hp). apply lookup_app_Some in Hs as [Hs|[Hge Hs]].
           ++ left. eauto.
           ++ right. destruct (pid - _)%nat eqn:E; simpl in Hs; [|done].
              apply lookup_lt_Some in Hnode. lia.
      * rewrite list_lookup_insert_ne by done. rewrite Hv. split.
        -- intros (s & Hs & Hp). exists s. split; [by apply lookup_app_l_Some|done].
        -- intros (s & Hs & Hp). apply lookup_app_Some in Hs as [Hs|[Hge Hs]].
           ++ eauto.
           ++ exfalso. destruct (pid - _)%nat; simpl in Hs; [|done].
              injection Hs as <-. apply Hne.
              eapply (trie_inj (inv_trie _ _ _ I1)); eauto.
Qed.

Lemma foldl_addTokens_inv inputs : forall ac paths seqs,
  Inv ac paths seqs ->
  exists paths', Inv (foldl TokenAC.addTokens ac inputs) paths'
                     (foldl seqsStep seqs inputs).
Proof.
  induction inputs as [|x inputs IH]; intros ac paths seqs I; simpl; [eauto|].
  destruct (addTokens_inv ac x paths seqs I) as (more & I1). eauto.
Qed.

Lemma addAll_inv inputs :
  exists paths, Inv (addAll inputs) paths (foldl seqsStep [] inputs).
Proof. apply (foldl_addTokens_inv inputs _ _ _ Inv_empty). Qed.

(** ** [build]: failure links by breadth-first search

    What matching needs of a built automaton: every failure link of a
    state other than the root leads to a state strictly nearer the root,
    so following failure links ends. *)

Section depth_facts.
Context {nx : list props} {paths : list (list jsstring)}.
Hypothesis T : TrieInv nx paths.

Lemma depth_root : depth paths 0 = 0%nat.
Proof. unfold depth. by rewrite (ti_root _ _ T). Qed.

Lemma depth_pos v : (0 < v < length nx)%nat -> (0 < depth paths v)%nat.
Proof.
  intros [Hv Hlt]. destruct (trie_path T v Hlt) as [p Hp].
  unfold depth. rewrite Hp. simpl. destruct p; simpl; [|lia].
  pose proof (trie_inj T _ _ _ Hp (ti_root _ _ T)). lia.
Qed.

Lemma depth_le v : (v < length nx)%nat -> (depth paths v <= v)%nat.
Proof.
  intros Hlt. destruct (trie_path T v Hlt) as [p Hp].
  unfold depth. rewrite Hp. simpl. by eapply ti_depth.
Qed.

Lemma depth_child v o k u :
  nx !! v = Some o -> getProp o k = Some u ->
  depth paths u = S (depth paths v).
Proof.
  intros Hv Hk. destruct (ti_edge _ _ T _ _ _ _ Hv Hk) as (p & Hp & Hu).
  unfold depth. rewrite Hp, Hu. simpl. rewrite length_app. simpl. lia.
Qed.
End depth_facts.

Lemma Inv_WF ac paths seqs : Inv ac paths seqs -> WF ac paths.
Proof.
  intros I. split; try apply I.
  - rewrite (inv_pLens _ _ _ I), (inv_phrases _ _ _ I).
    by rewrite !length_map.
  - intros v Hv. unfold TokenAC.failAt.
    assert (default 0%nat (TokenAC.fail ac !! v) = 0%nat) as ->.
    { destruct (TokenAC.fail ac !! v) eqn:E; [|done]. simpl.
      by eapply inv_fail0. }
    split; [lia|]. rewrite (depth_root (inv_trie _ _ _ I)).
    by eapply depth_pos; [apply I|].
  - intros v pid Hin. apply (inv_out _ _ _ I) in Hin as (s & Hs & _).
    rewrite (inv_phrases _ _ _ I), length_map. by eapply lookup_lt_Some.
Qed.

Lemma nextAt_lookup ac v o : TokenAC.next ac !! v = Some o -> TokenAC.nextAt ac v = o.
Proof. unfold TokenAC.nextAt. by intros ->. Qed.

Lemma nextAt_is_lookup ac paths v :
  WF ac paths -> (v < length (TokenAC.next ac))%nat ->
  TokenAC.next ac !! v = Some (TokenAC.nextAt ac v).
Proof.
  intros _ Hlt. destruct (lookup_lt_is_Some_2 _ _ Hlt) as [o Ho].
  by rewrite (nextAt_lookup _ _ _ Ho).
Qed.

(** Following failure links ends, at a state of the automaton. *)
Lemma followFail_total ac paths k :
  WF ac paths ->
  forall fuel j,
    (j < length (TokenAC.next ac))%nat -> (depth paths j <= fuel)%nat ->
    exists j', TokenAC.followFail fuel ac j k = Some j'
               /\ (j' < length (TokenAC.next ac))%nat
               /\ (depth paths j' <= depth paths j)%nat.
Proof.
  intros W. induction fuel as [|fuel IH]; intros j Hj Hd; simpl.
  - destruct (Nat.eqb_spec j 0) as [->|Hne]; simpl; [eauto|].
    pose proof (depth_pos (wf_trie _ _ W) j). lia.
  - destruct (Nat.eqb_spec j 0) as [->|Hne]; simpl; [eauto|].
    destruct (isSome _); [eauto|].
    destruct (wf_fail _ _ W j) as [Hf Hdf]; [lia|].
    destruct (IH (TokenAC.failAt ac j)) as (j' & E & Hj' & Hd'); [done|lia|].
    exists j'. split; [done|]. split; [done|lia].
Qed.

Lemma followFail_enough ac paths k j :
  WF ac paths -> (j < length (TokenAC.next ac))%nat ->
  exists j', TokenAC.followFail (length (TokenAC.next ac)) ac j k = Some j'
             /\ (j' < length (TokenAC.next ac))%nat
             /\ (depth paths j' <= depth paths j)%nat.
Proof.
  intros W Hj. apply (followFail_total ac paths k W); [done|].
  pose proof (depth_le (wf_trie _ _ W) j Hj). lia.
Qed.

Lemma WF_setFail ac paths u f :
  WF ac paths ->
  (f < length (TokenAC.next ac))%nat ->
  (depth paths f < depth paths u)%nat ->
  WF (TokenAC.setFail ac u f) paths.
Proof.
  intros W Hf Hd. split; simpl; try apply W.
  - rewrite length_insert. apply W.
  - intros v Hv. unfold TokenAC.failAt. simpl.
    destruct (decide (v = u)) as [->|Hne].
    + rewrite list_lookup_insert_eq by (rewrite (wf_fail_len _ _ W); lia). done.
    + rewrite list_lookup_insert_ne by done. by apply (wf_fail _ _ W).
Qed.

Lemma WF_setOut ac paths v o :
  WF ac paths ->
  (forall pid, pid ∈ o -> (pid < length (TokenAC.phrases ac))%nat) ->
  WF (TokenAC.setOut ac v o) paths.
Proof.
  intros W Ho. split; simpl; try apply W.
  - rewrite length_insert. apply W.
  - intros w pid. unfold TokenAC.outAt. simpl.
    destruct (decide (w = v)) as [->|Hne].
    + destruct (decide (v < length (TokenAC.out ac))%nat).
      * rewrite list_lookup_insert_eq by done. simpl. apply Ho.
      * rewrite list_insert_ge by lia. apply (wf_out _ _ W).
    + rewrite list_lookup_insert_ne by done. apply (wf_out _ _ W).
Qed.

Lemma childSteps_total paths nx v o :
  (0 < v)%nat -> nx !! v = Some o ->
  forall ks, (forall k, k ∈ ks -> k ∈ o.*1) ->
  forall ac q, WF ac paths -> TokenAC.next ac = nx ->
  exists ac',
    foldl (TokenAC.childStep v) (Some (ac, q)) ks
    = Some (ac', q ++ List.map (fun k => default 0%nat (getProp o k)) ks)
    /\ WF ac' paths /\ TokenAC.next ac' = nx
    /\ TokenAC.phrases ac' = TokenAC.phrases ac
    /\ TokenAC.pLens ac' = TokenAC.pLens ac.
Proof.
  intros Hv0 Ho. induction ks as [|k ks IH]; intros Hks ac q W Hnx; simpl.
  - exists ac. by rewrite app_nil_r.
  - subst nx. pose proof (wf_trie _ _ W) as T.
    assert (Hvlt : (v < length (TokenAC.next ac))%nat) by (by eapply lookup_lt_Some).
    rewrite (nextAt_lookup _ _ _ Ho).
    destruct (getProp_is_Some o k) as [u Hu]; [apply Hks; left|].
    rewrite Hu. simpl.
    destruct (wf_fail _ _ W v) as [Hf Hdf]; [lia|].
    destruct (followFail_enough ac paths k _ W Hf) as (j & -> & Hj & Hdj).
    pose proof (depth_child T _ _ _ _ Ho Hu) as Hdu.
    set (f := default 0%nat (getProp (TokenAC.nextAt ac j) k)).
    assert (Hfu : (f < length (TokenAC.next ac))%nat
                  /\ (depth paths f < depth paths u)%nat).
    { subst f. destruct (getProp (TokenAC.nextAt ac j) k) as [w|] eqn:Hw; simpl.
      - pose proof (nextAt_is_lookup _ _ _ W Hj) as Hjo.
        split; [by eapply (trie_child_lt T)|].
        rewrite (depth_child T _ _ _ _ Hjo Hw). lia.
      - rewrite (depth_root T). lia. }
    destruct Hfu as [Hflt Hfd].
    pose proof (WF_setFail ac paths u f W Hflt Hfd) as W'.
    destruct (IH (fun k' H => Hks k' (list_elem_of_further _ _ _ H))
                 (TokenAC.setFail ac u f) (q ++ [u]) W' eq_refl)
      as (ac' & E & W'' & Hn & Hph & Hpl).
    exists ac'. rewrite E, <- app_assoc. done.
Qed.

Lemma rootSteps_total paths nx o :
  nx !! 0%nat = Some o ->
  forall ks, (forall k, k ∈ ks -> k ∈ o.*1) ->
  forall ac q, WF ac paths -> TokenAC.next ac = nx ->
  exists ac',
    foldl TokenAC.rootStep (ac, q) ks
    = (ac', q ++ List.map (fun k => default 0%nat (getProp o k)) ks)
    /\ WF ac' paths /\ TokenAC.next ac' = nx
    /\ TokenAC.phrases ac' = TokenAC.phrases ac
    /\ TokenAC.pLens ac' = TokenAC.pLens ac.
Proof.
  intros Ho. induction ks as [|k ks IH]; intros Hks ac q W Hnx; simpl.
  - exists ac. by rewrite app_nil_r.
  - subst nx. pose proof (wf_trie _ _ W) as T.
    rewrite (nextAt_lookup _ _ _ Ho).
    destruct (getProp_is_Some o k) as [u Hu]; [apply Hks; left|].
    rewrite Hu. simpl.
    destruct (trie_child_lt T _ _ _ _ Ho Hu) as [Hu0 Hult].
    destruct (Nat.eqb_spec u 0) as [->|_]; [lia|].
    assert (W' : WF (TokenAC.setFail ac u 0) paths).
    { apply WF_setFail; [done|lia|].
      rewrite (depth_root T). apply (depth_pos T). lia. }
    destruct (IH (fun k' H => Hks k' (list_elem_of_further _ _ _ H))
                 (TokenAC.setFail ac u 0) (q ++ [u]) W' eq_refl)
      as (ac' & E & W'' & Hn & Hph & Hpl).
    exists ac'. rewrite E, <- app_assoc. done.
Qed.

Lemma NoDup_below (l : list nat) n :
  NoDup l -> (forall x, x ∈ l -> (0 < x < n)%nat) -> (length l <= n - 1)%nat.
Proof.
  intros Hnd Hin.
  assert (l ⊆+ seq 1 (n - 1)) as Hsub.
  { apply NoDup_submseteq; [done|]. intros x Hx. apply elem_of_seq.
    specialize (Hin x Hx). lia. }
  apply submseteq_length in Hsub. by rewrite length_seq in Hsub.
Qed.

Lemma childrenOf_spec paths nx v o :
  TrieInv nx paths -> nx !! v = Some o ->
  NoDup (childrenOf o)
  /\ forall u, u ∈ childrenOf o <-> exists k, getProp o k = Some u.
Proof.
  intros T Ho. unfold childrenOf.
  change (List.map ?f ?l) with (f <$> l).
  assert (Hkeys : forall k, k ∈ objectKeys o -> is_Some (getProp o k)).
  { intros k Hk. apply getProp_is_Some. by rewrite <- (objectKeys_perm o). }
  split.
  - apply NoDup_fmap_2_strong.
    + intros k1 k2 H1 H2 Heq.
      destruct (Hkeys _ H1) as [u1 E1], (Hkeys _ H2) as [u2 E2].
      rewrite E1, E2 in Heq. simpl in Heq. subst u2.
      by destruct (trie_unique_parent T _ _ _ _ _ _ _ Ho E1 Ho E2).
    + rewrite (objectKeys_perm o). by eapply ti_keys.
  - intros u. rewrite list_elem_of_fmap. split.
    + intros (k & -> & Hk). destruct (Hkeys _ Hk) as [u E].
      exists k. by rewrite E.
    + intros (k & Hk). exists k. rewrite Hk. split; [done|].
      rewrite (objectKeys_perm o). apply getProp_Some_elem in Hk.
      apply list_elem_of_fmap. by exists (k, u).
Qed.

Lemma bfs_total paths nx :
  forall fuel ac q visited,
    WF ac paths -> TokenAC.next ac = nx -> QInv nx visited q ->
    (length nx <= S (fuel + length visited))%nat ->
    exists ac', TokenAC.bfs fuel ac q = Some ac'
                /\ WF ac' paths /\ TokenAC.next ac' = nx
                /\ TokenAC.phrases ac' = TokenAC.phrases ac
                /\ TokenAC.pLens ac' = TokenAC.pLens ac.
Proof.
  induction fuel as [|fuel IH]; intros ac q visited W Hnx [Hnd Hq] Hfuel;
    (destruct q as [|v q']; [exists ac; done|]).
  - (* no fuel left: the queue has to be empty *)
    exfalso. pose proof (NoDup_below _ (length nx) Hnd) as Hb.
    rewrite length_app in Hb. simpl in Hb.
    assert (length visited + S (length q') <= length nx - 1)%nat; [|lia].
    apply Hb. intros x Hx. by apply Hq.
  - cbn [TokenAC.bfs]. subst nx. pose proof (wf_trie _ _ W) as T.
    destruct (Hq v) as [[Hv0 Hvlt] _]; [apply elem_of_app; right; left|].
    set (ac1 := match TokenAC.outAt ac (TokenAC.failAt ac v) with
                | [] => ac
                | _ => TokenAC.setOut ac v
                         (TokenAC.outAt ac v
                          ++ TokenAC.outAt ac (TokenAC.failAt ac v))
                end).
    assert (W1 : WF ac1 paths /\ TokenAC.next ac1 = TokenAC.next ac
                 /\ TokenAC.phrases ac1 = TokenAC.phrases ac
                 /\ TokenAC.pLens ac1 = TokenAC.pLens ac).
    { subst ac1. destruct (TokenAC.outAt ac (TokenAC.failAt ac v)) eqn:E;
        [done|]. split; [|done]. apply WF_setOut; [done|].
      intros pid Hpid. apply elem_of_app in Hpid as [H|H].
      - by eapply wf_out.
      - rewrite <- E in H. by eapply wf_out. }
    destruct W1 as (W1 & Hn1 & Hph1 & Hpl1).
    destruct (lookup_lt_is_Some_2 _ _ Hvlt) as [o Ho].
    assert (TokenAC.nextAt ac1 v = o) as ->.
    { apply nextAt_lookup. by rewrite Hn1. }
    destruct (childSteps_total paths _ v o Hv0 Ho (objectKeys o)) with
      (ac := ac1) (q := q') as (ac2 & E & W2 & Hn2 & Hph2 & Hpl2);
      [by intros k Hk; rewrite <- (objectKeys_perm o) | done | done |].
    rewrite E. fold (childrenOf o).
    destruct (childrenOf_spec paths _ v o T Ho) as [Hcnd Hc].
    destruct (IH ac2 (q' ++ childrenOf o) (visited ++ [v]) W2 Hn2)
      as (ac' & E' & W' & Hn' & Hph' & Hpl').
    + (* the queue invariant *)
      assert (Hfresh : forall u, u ∈ childrenOf o -> u ∉ visited ++ v :: q').
      { intros u Hu Hin. apply Hc in Hu as [k Hk].
        destruct (Hq u Hin) as [_ Hpar].
        destruct (Hpar v o k Ho Hk) as [->|Hd]; [lia|].
        apply list.NoDup_app in Hnd as (_ & Hdis & _).
        apply (Hdis v Hd). left. }
      split.
      * replace ((visited ++ [v]) ++ q' ++ childrenOf o)
          with ((visited ++ v :: q') ++ childrenOf o)
          by (by rewrite <- !app_assoc).
        apply list.NoDup_app. split; [done|].
        split; [|done]. intros x Hx Hx'. by apply (Hfresh x).
      * intros u Hu.
        assert (u ∈ visited ++ v :: q' \/ u ∈ childrenOf o) as [Hold|Hnew].
        { rewrite !elem_of_app, list_elem_of_singleton in Hu.
          rewrite elem_of_app, elem_of_cons. tauto. }
        -- destruct (Hq u Hold) as [Hr Hpar]. split; [done|].
           intros w ow k Hw Hk.
           destruct (Hpar w ow k Hw Hk); [by left | right; apply elem_of_app; by left].
        -- apply Hc in Hnew as [k Hk]. split.
           ++ by eapply (trie_child_lt T).
           ++ intros w ow k' Hw Hk'.
              destruct (trie_unique_parent T _ _ _ _ _ _ _ Hw Hk' Ho Hk) as [-> _].
              right. apply elem_of_app. right. left.
    + rewrite length_app. simpl. lia.
    + exists ac'. rewrite E'. split; [done|]. split; [done|].
      split; [done|]. split; congruence.
Qed.

(** [build] finishes on every automaton grown by [addTokens]. *)
Lemma build_total ac paths seqs :
  Inv ac paths seqs ->
  exists ac', TokenAC.build ac = Some ac'
              /\ WF ac' paths
              /\ TokenAC.next ac' = TokenAC.next ac
              /\ TokenAC.phrases ac' = TokenAC.phrases ac
              /\ TokenAC.pLens ac' = TokenAC.pLens ac.
Proof.
  intros I. pose proof (Inv_WF _ _ _ I) as W. pose proof (wf_trie _ _ W) as T.
  unfold TokenAC.build.
  destruct (TokenAC.next ac !! 0%nat) as [o|] eqn:Ho.
  2:{ apply lookup_ge_None in Ho. pose proof (ti_root _ _ T) as Hr.
      apply lookup_lt_Some in Hr. rewrite (ti_len _ _ T) in Hr. lia. }
  rewrite (nextAt_lookup _ _ _ Ho).
  destruct (rootSteps_total paths _ o Ho (objectKeys o)) with
    (ac := ac) (q := @nil nat) as (ac0 & E & W0 & Hn0 & Hph0 & Hpl0);
    [by intros k Hk; rewrite <- (objectKeys_perm o) | done | done |].
  rewrite E. simpl. fold (childrenOf o).
  destruct (childrenOf_spec paths _ 0%nat o T Ho) as [Hcnd Hc].
  destruct (bfs_total paths (TokenAC.next ac) (length (TokenAC.next ac)) ac0
              (childrenOf o) [] W0 Hn0)
    as (ac' & E' & W' & Hn' & Hph' & Hpl').
  - split; [done|]. simpl. intros u Hu. apply Hc in Hu as [k Hk]. split.
    + by eapply (trie_child_lt T).
    + intros w ow k' Hw Hk'.
      destruct (trie_unique_parent T _ _ _ _ _ _ _ Hw Hk' Ho Hk) as [-> _].
      by left.
  - simpl. lia.
  - exists ac'. rewrite E'. split; [done|]. split; [done|].
    split; [done|]. split; congruence.
Qed.

(** ** Matching always returns *)

Lemma buildAC_total inputs :
  exists ac paths,
    buildAC inputs = Some ac /\ WF ac paths
    /\ TokenAC.phrases ac = TokenAC.phrases (addAll inputs)
    /\ TokenAC.pLens ac = TokenAC.pLens (addAll inputs).
Proof.
  destruct (addAll_inv inputs) as [paths I].
  destruct (build_total _ _ _ I) as (ac & E & W & _ & Hph & Hpl).
  by exists ac, paths.
Qed.

Lemma advance_total ac paths state tok :
  WF ac paths -> (state < length (TokenAC.next ac))%nat ->
  exists s', TokenAC.advance ac state tok = Some s'
             /\ (s' < length (TokenAC.next ac))%nat.
Proof.
  intros W Hs. unfold TokenAC.advance.
  destruct (followFail_enough ac paths tok state W Hs) as (j & -> & Hj & _).
  eexists. split; [done|].
  destruct (getProp (TokenAC.nextAt ac j) tok) as [u|] eqn:Hu; simpl; [|lia].
  pose proof (nextAt_is_lookup _ _ _ W Hj) as Hjo.
  by eapply (trie_child_lt (wf_trie _ _ W)).
Qed.

Lemma scan_total ac paths :
  WF ac paths ->
  forall tokens i state best,
    (state < length (TokenAC.next ac))%nat ->
    exists best', TokenAC.scan ac i state best tokens = Some best'.
Proof.
  intros W. induction tokens as [|tok rest IH]; intros i state best Hs; simpl.
  - eauto.
  - destruct (advance_total ac paths state tok W Hs) as (s' & -> & Hs').
    by apply IH.
Qed.

Lemma findAll_total h ac paths tokens :
  WF ac paths -> exists r, TokenAC.findAll h ac tokens = Some r.
Proof.
  intros W. unfold TokenAC.findAll.
  destruct (length (TokenAC.next ac) =? 1)%nat eqn:E; [eauto|].
  destruct (scan_total ac paths W tokens 0%nat 0%nat []) as [best ->]; [|eauto].
  pose proof (ti_root _ _ (wf_trie _ _ W)) as Hr.
  apply lookup_lt_Some in Hr. by rewrite (ti_len _ _ (wf_trie _ _ W)) in Hr.
Qed.

(** ** [uniq] and [sortBy] *)

Lemma uniq_acc {A} `{EqDecision A} (l : list A) : forall acc,
  NoDup acc ->
  NoDup (foldl uniqStep acc l)
  /\ forall x, x ∈ foldl uniqStep acc l <-> x ∈ acc \/ x ∈ l.
Proof.
  induction l as [|y l IH]; intros acc Hnd; simpl.
  - split; [done|]. intros x. rewrite elem_of_nil. tauto.
  - unfold uniqStep at 2 4. case_bool_decide as Hy.
    + destruct (IH acc Hnd) as [H1 H2]. split; [done|].
      intros x. rewrite H2, elem_of_cons. split; [tauto|].
      intros [?|[->|?]]; auto.
    + destruct (IH (acc ++ [y])) as [H1 H2].
      { apply list.NoDup_app. split; [done|]. split; [|apply NoDup_singleton].
        intros x Hx Hx'. apply list_elem_of_singleton in Hx' as ->. done. }
      split; [done|]. intros x.
      rewrite H2, elem_of_app, list_elem_of_singleton, elem_of_cons. tauto.
Qed.

Lemma uniq_NoDup {A} `{EqDecision A} (l : list A) : NoDup (uniq l).
Proof. apply uniq_acc. constructor. Qed.

Lemma elem_of_uniq {A} `{EqDecision A} (l : list A) x : x ∈ uniq l <-> x ∈ l.
Proof.
  unfold uniq. destruct (uniq_acc l [] (NoDup_nil_2)) as [_ H].
  rewrite H, elem_of_nil. tauto.
Qed.

Lemma uniq_acc_head {A} `{EqDecision A} (l : list A) : forall acc,
  exists more, foldl uniqStep acc l = acc ++ more.
Proof.
  induction l as [|y l IH]; intros acc; simpl.
  - exists []. by rewrite app_nil_r.
  - unfold uniqStep at 2. case_bool_decide; [apply IH|].
    destruct (IH (acc ++ [y])) as [more ->]. exists (y :: more).
    by rewrite <- app_assoc.
Qed.

Lemma uniq_fmap_inj {A B} `{EqDecision A} `{EqDecision B} (f : A -> B) (l : list A) :
  forall acc,
    (forall x y, x ∈ acc ++ l -> y ∈ acc ++ l -> f x = f y -> x = y) ->
    foldl uniqStep (f <$> acc) (f <$> l) = f <$> foldl uniqStep acc l.
Proof.
  induction l as [|y l IH]; intros acc Hinj; simpl; [done|].
  unfold uniqStep at 2 4.
  assert (Hiff : f y ∈ f <$> acc <-> y ∈ acc).
  { rewrite list_elem_of_fmap. split.
    - intros (x & Hxy & Hx).
      rewrite (Hinj y x); [done| |by apply elem_of_app; left|done].
      apply elem_of_app. right. left.
    - intros Hy. eauto. }
  case_bool_decide as H1; case_bool_decide as H2; try tauto.
  - apply IH. intros x z Hx Hz. apply Hinj.
    + apply elem_of_app in Hx as [?|?]; apply elem_of_app; [by left|].
      right. by right.
    + apply elem_of_app in Hz as [?|?]; apply elem_of_app; [by left|].
      right. by right.
  - rewrite <- (IH (acc ++ [y])).
    + by rewrite fmap_app.
    + intros x z Hx Hz. apply Hinj.
      * rewrite <- app_assoc in Hx. done.
      * rewrite <- app_assoc in Hz. done.
Qed.

Lemma insertBy_perm {A} (cmp : A -> A -> Z) x l : insertBy cmp x l ≡ₚ x :: l.
Proof.
  induction l as [|y l IH]; simpl; [done|].
  destruct (cmp x y <=? 0)%Z; [done|]. rewrite IH. apply Permutation_swap.
Qed.

Lemma sortBy_perm {A} (cmp : A -> A -> Z) l : sortBy cmp l ≡ₚ l.
Proof.
  induction l as [|x l IH]; simpl; [done|]. by rewrite insertBy_perm, IH.
Qed.

Section sorting.
Context {A : Type} (cmp : A -> A -> Z).
Hypothesis total : forall a b, (cmp a b <= 0)%Z \/ (cmp b a <= 0)%Z.



End sorting.

(** ** The phrase store *)

Lemma trie_prefix_closed nx paths a b :
  TrieInv nx paths ->
  forall u, paths !! u = Some (a ++ b) -> exists w, paths !! w = Some a.
Proof.
  intros T. induction b as [|k b IH] using rev_ind; intros u Hu.
  - rewrite app_nil_r in Hu. eauto.
  - rewrite app_assoc in Hu. destruct (ti_parent _ _ T _ _ _ Hu) as [v Hv]. eauto.
Qed.

Lemma walk_existing ac paths seqs toks :
  Inv ac paths seqs ->
  forall node p u,
    paths !! node = Some p -> paths !! u = Some (p ++ toks) ->
    foldl TokenAC.addStep (ac, node) toks = (ac, u).
Proof.
  intros I. pose proof (inv_trie _ _ _ I) as T.
  induction toks as [|tok rest IH]; intros node p u Hp Hu; cbn [foldl].
  - rewrite app_nil_r in Hu. by rewrite (trie_inj T _ _ _ Hp Hu).
  - replace (p ++ tok :: rest) with ((p ++ [tok]) ++ rest) in Hu
      by (by rewrite <- app_assoc).
    destruct (trie_prefix_closed _ _ _ _ T _ Hu) as [w Hw].
    pose proof (ti_node _ _ T _ _ _ _ Hp Hw) as Hk.
    unfold TokenAC.addStep at 2. unfold TokenAC.nextAt. rewrite Hk.
    by apply (IH w (p ++ [tok])).
Qed.

Lemma addTokens_registered ac paths seqs tokens :
  Inv ac paths seqs -> tokens ∈ seqs -> TokenAC.addTokens ac tokens = ac.
Proof.
  intros I Hin. pose proof (inv_seqs_ne _ _ _ I _ Hin) as Hne.
  apply list_elem_of_lookup in Hin as [pid Hpid].
  destruct (inv_seq_node _ _ _ I _ _ Hpid) as [v Hv].
  unfold TokenAC.addTokens. destruct tokens as [|t0 ts]; [done|].
  rewrite (walk_existing ac paths seqs (t0 :: ts) I 0%nat [] v);
    [|apply I|done].
  assert (existsb
            (fun pid => bool_decide
               (TokenAC.phrases ac !! pid = Some (join (lit " ") (t0 :: ts))))
            (TokenAC.outAt ac v) = true) as ->; [|done].
  apply existsb_exists. exists pid. split.
  - apply list_elem_of_In, (inv_out _ _ _ I). eauto.
  - apply bool_decide_eq_true_2. rewrite (inv_phrases _ _ _ I).
    change (List.map ?f ?l) with (f <$> l).
    by rewrite list_lookup_fmap, Hpid.
Qed.

Lemma seqsStep_uniq inputs : forall acc,
  foldl seqsStep acc inputs = foldl uniqStep acc (nonEmptySeqs inputs).
Proof.
  induction inputs as [|t inputs IH]; intros acc; simpl; [done|].
  destruct t as [|t0 ts]; simpl; apply IH.
Qed.

Lemma addAll_store inputs :
  exists paths, Inv (addAll inputs) paths (uniq (nonEmptySeqs inputs)).
Proof.
  destruct (addAll_inv inputs) as [paths I]. exists paths.
  by rewrite seqsStep_uniq in I.
Qed.

Lemma app_space_inj (x y r r' : jsstring) :
  spaceFree x -> spaceFree y ->
  x ++ SPACE :: r = y ++ SPACE :: r' -> x = y /\ r = r'.
Proof.
  unfold spaceFree. revert y. induction x as [|c x IH]; intros [|d y] Hx Hy E;
    simpl in E.
  - by injection E.
  - injection E as <- _. exfalso. apply Hy. left.
  - injection E as -> _. exfalso. apply Hx. left.
  - injection E as -> E. apply not_elem_of_cons in Hx as [_ Hx].
    apply not_elem_of_cons in Hy as [_ Hy].
    destruct (IH y Hx Hy E) as [-> ->]. done.
Qed.

Lemma canonical_inj (a b : list jsstring) :
  Forall spaceFree a -> Forall spaceFree b -> a <> [] -> b <> [] ->
  canonical a = canonical b -> a = b.
Proof.
  unfold canonical. change (lit " ") with [SPACE].
  revert b. induction a as [|x a IH]; intros b Ha Hb Hane Hbne E; [done|].
  destruct b as [|y b]; [done|].
  apply list.Forall_cons in Ha as [Hx Ha]. apply list.Forall_cons in Hb as [Hy Hb].
  destruct a as [|x' a], b as [|y' b].
  - simpl in E. by subst.
  - exfalso. cbn [join] in E. apply Hx. rewrite E.
    apply elem_of_app. right. left.
  - exfalso. cbn [join] in E. apply Hy. rewrite <- E.
    apply elem_of_app. right. left.
  - change (x ++ SPACE :: join [SPACE] (x' :: a)
            = y ++ SPACE :: join [SPACE] (y' :: b)) in E.
    destruct (app_space_inj _ _ _ _ Hx Hy E) as [-> E'].
    f_equal. by apply IH.
Qed.

(** [C6], as amended.  The store deduplicates by token sequence.
    Inserting a token sequence a second time leaves the automaton as it
    is; empty sequences are ignored; the phrases are the canonical strings
    of the distinct non-empty token sequences inserted, in order of first
    insertion, so the phrase count is the number of those sequences; and
    when no token contains a space, that is also the number of distinct
    canonical strings. *)
Theorem phrase_store_dedup (inputs : list (list jsstring)) :
  (forall tokens,
      TokenAC.addTokens (TokenAC.addTokens (addAll inputs) tokens) tokens
      = TokenAC.addTokens (addAll inputs) tokens)
  /\ TokenAC.phrases (addAll inputs) = canonical <$> uniq (nonEmptySeqs inputs)
  /\ TokenAC.pLens (addAll inputs) = length <$> uniq (nonEmptySeqs inputs)
  /\ length (TokenAC.phrases (addAll inputs)) = length (uniq (nonEmptySeqs inputs))
  /\ (Forall (Forall spaceFree) inputs ->
      length (TokenAC.phrases (addAll inputs))
      = length (uniq (canonical <$> nonEmptySeqs inputs))).
Proof.
  destruct (addAll_store inputs) as [paths I].
  assert (Hlen : length (TokenAC.phrases (addAll inputs))
                 = length (uniq (nonEmptySeqs inputs))).
  { rewrite (inv_phrases _ _ _ I). apply length_map. }
  split; [|split; [apply I|split; [apply I|split; [done|]]]].
  - intros tokens.
    destruct (addTokens_inv _ tokens _ _ I) as [more I1].
    destruct tokens as [|t0 ts]; [done|].
    apply (addTokens_registered _ _ _ _ I1).
    unfold seqsStep, uniqStep. case_bool_decide; [done|].
    apply elem_of_app. right. left.
  - intros Hsf. rewrite Hlen. unfold uniq.
    pose proof (uniq_fmap_inj canonical (nonEmptySeqs inputs) []) as Hmap.
    simpl in Hmap. rewrite Hmap; [by rewrite length_fmap|]. clear Hmap.
    assert (Hin : forall x, x ∈ nonEmptySeqs inputs -> Forall spaceFree x /\ x <> []).
    { intros x Hx. apply list_elem_of_In, filter_In in Hx as [Hx Hne].
      split.
      - rewrite Forall_forall in Hsf. by apply Hsf.
      - intros ->. done. }
    intros x y Hx Hy E.
    destruct (Hin x Hx), (Hin y Hy). by apply canonical_inj.
Qed.

Lemma phrase_store_dedup_witness :
  Forall (Forall spaceFree) [[lit "pre"; lit "clear"]; [lit "pre"; lit "clear"]]
  /\ length (TokenAC.phrases
               (addAll [[lit "pre"; lit "clear"]; [lit "pre"; lit "clear"]]))
     = 1%nat.
Proof.
  assert (H : Forall (Forall spaceFree)
                [[lit "pre"; lit "clear"]; [lit "pre"; lit "clear"]]).
  { repeat constructor; unfold spaceFree; intros Hc;
      apply list_elem_of_In in Hc; vm_compute in Hc; intuition discriminate. }
  split; [exact H|].
  destruct (phrase_store_dedup
              [[lit "pre"; lit "clear"]; [lit "pre"; lit "clear"]])
    as (_ & _ & _ & _ & Hc).
  rewrite (Hc H). reflexivity.
Defined.

(** [C6] as stated fails: two token sequences with the same canonical
    string, ["a b"] and ["a", "b"], get two phrase ids. *)
Lemma phrase_count_counterexample :
  let inputs := [[lit "a b"]; [lit "a"; lit "b"]] in
  length (TokenAC.phrases (addAll inputs)) = 2%nat
  /\ length (uniq (canonical <$> inputs)) = 1%nat
  /\ length (TokenAC.phrases (addAll inputs))
     <> length (uniq (canonical <$> inputs)).
Proof. vm_compute. repeat split; discriminate. Qed.

(** ** [findAll]: the candidates and the [best] map *)

Lemma mapGet_None {V} (m : list (Z * V)) k : mapGet m k = None <-> k ∉ m.*1.
Proof.
  induction m as [|[k' v] m IH]; simpl.
  - split; [intros _; apply not_elem_of_nil | done].
  - destruct (Z.eqb_spec k' k) as [->|Hne].
    + split; [done | intros H; exfalso; apply H; left].
    + rewrite IH, not_elem_of_cons. split; [auto | intros [_ ?]; done].
Qed.

Lemma mapGet_mapSet_eq {V} (m : list (Z * V)) k v : mapGet (mapSet m k v) k = Some v.
Proof.
  induction m as [|[k' v'] m IH]; simpl.
  - by rewrite Z.eqb_refl.
  - destruct (Z.eqb_spec k' k) as [->|Hne]; simpl.
    + by rewrite Z.eqb_refl.
    + by destruct (Z.eqb_spec k' k).
Qed.

Lemma mapGet_mapSet_ne {V} (m : list (Z * V)) k k' v :
  k <> k' -> mapGet (mapSet m k v) k' = mapGet m k'.
Proof.
  intros Hne. induction m as [|[k0 v0] m IH]; simpl.
  - by destruct (Z.eqb_spec k k').
  - destruct (Z.eqb_spec k0 k) as [->|Hne0]; simpl.
    + by destruct (Z.eqb_spec k k').
    + by destruct (Z.eqb_spec k0 k').
Qed.

Lemma mapSet_keys {V} (m : list (Z * V)) k v :
  (mapSet m k v).*1
  = match mapGet m k with
    | Some _ => m.*1
    | None => m.*1 ++ [k]
    end.
Proof.
  induction m as [|[k0 v0] m IH]; simpl; [done|].
  destruct (Z.eqb_spec k0 k) as [->|Hne]; simpl; [done|].
  change (k0 :: (mapSet m k v).*1
          = match mapGet m k with
            | Some _ => k0 :: m.*1
            | None => k0 :: m.*1 ++ [k]
            end).
  rewrite IH. by destruct (mapGet m k).
Qed.

Lemma mapSet_NoDup {V} (m : list (Z * V)) k v :
  NoDup m.*1 -> NoDup (mapSet m k v).*1.
Proof.
  intros Hnd. rewrite mapSet_keys. destruct (mapGet m k) eqn:E; [done|].
  apply list.NoDup_app. split; [done|]. split; [|apply NoDup_singleton].
  intros x Hx Hx'. apply list_elem_of_singleton in Hx' as ->.
  by apply mapGet_None in E.
Qed.

Lemma Longest_bound cs s e e' :
  Longest cs s e -> (s, e') ∈ cs -> (TokenAC.end_ e' <= TokenAC.end_ e)%nat.
Proof.
  intros (pre & post & -> & Hpre & Hpost) Hin.
  apply elem_of_app in Hin as [Hin|Hin].
  - specialize (Hpre _ Hin). lia.
  - apply elem_of_cons in Hin as [[= ->]|Hin]; [lia|]. by apply Hpost.
Qed.

Lemma Longest_later cs s e c :
  Longest cs s e ->
  (c.1 = s -> (TokenAC.end_ c.2 <= TokenAC.end_ e)%nat) ->
  Longest (cs ++ [c]) s e.
Proof.
  intros (pre & post & -> & Hpre & Hpost) Hc.
  exists pre, (post ++ [c]). split; [by rewrite <- app_assoc|].
  split; [done|]. intros e' Hin. apply elem_of_app in Hin as [Hin|Hin].
  - by apply Hpost.
  - apply list_elem_of_singleton in Hin as <-. by apply Hc.
Qed.

Lemma keep_BestOf cs best c :
  BestOf cs best -> BestOf (cs ++ [c]) (keep best c).
Proof.
  intros [Hk Hl Hc]. destruct c as [s0 e0]. unfold keep. simpl.
  assert (Hnew : (forall e', (s0, e') ∈ cs ->
                     (TokenAC.end_ e' < TokenAC.end_ e0)%nat) ->
                 BestOf (cs ++ [(s0, e0)]) (mapSet best s0 e0)).
  { intros Hlt. split.
    - by apply mapSet_NoDup.
    - intros s e. destruct (decide (s0 = s)) as [<-|Hne].
      + rewrite mapGet_mapSet_eq. intros [= <-].
        exists cs, []. split; [done|]. split; [done|].
        intros e' H. by apply elem_of_nil in H.
      + rewrite mapGet_mapSet_ne by done. intros H.
        apply Longest_later; [by apply Hl|]. simpl. done.
    - intros s e Hin. destruct (decide (s0 = s)) as [<-|Hne].
      + rewrite mapGet_mapSet_eq. eauto.
      + rewrite mapGet_mapSet_ne by done.
        apply elem_of_app in Hin as [Hin|Hin]; [by eapply Hc|].
        apply list_elem_of_singleton in Hin. congruence. }
  destruct (mapGet best s0) as [prev|] eqn:Hprev.
  - destruct (Nat.ltb_spec (TokenAC.end_ prev) (TokenAC.end_ e0)) as [Hlt|Hge].
    + apply Hnew. intros e' Hin.
      pose proof (Longest_bound _ _ _ _ (Hl _ _ Hprev) Hin). lia.
    + split; [done| |].
      * intros s e H. apply Longest_later; [by apply Hl|]. simpl.
        intros <-. rewrite Hprev in H. injection H as <-. lia.
      * intros s e Hin. apply elem_of_app in Hin as [Hin|Hin]; [by eapply Hc|].
        apply list_elem_of_singleton in Hin. injection Hin as -> ->.
        rewrite Hprev. eauto.
  - apply Hnew. intros e' Hin. destruct (Hc _ _ Hin) as [x Hx]. congruence.
Qed.

Lemma foldl_keep_BestOf cs : forall cs0 best,
  BestOf cs0 best -> BestOf (cs0 ++ cs) (foldl keep best cs).
Proof.
  induction cs as [|c cs IH]; intros cs0 best B; simpl.
  - by rewrite app_nil_r.
  - replace (cs0 ++ c :: cs) with ((cs0 ++ [c]) ++ cs)
      by (by rewrite <- app_assoc).
    apply IH. by apply keep_BestOf.
Qed.

Lemma BestOf_nil : BestOf [] [].
Proof.
  split; simpl.
  - constructor.
  - done.
  - intros s e H. by apply elem_of_nil in H.
Qed.

Lemma offer_keep ac i best pid :
  TokenAC.offer ac i best pid
  = match candidate ac i pid with
    | Some c => keep best c
    | None => best
    end.
Proof.
  unfold TokenAC.offer, candidate, keep.
  destruct (TokenAC.pLens ac !! pid) as [len|]; [|done].
  destruct (TokenAC.phrases ac !! pid) as [ph|]; [|done].
  simpl. by destruct (0 <=? _)%Z.
Qed.

Lemma foldl_offer_keep ac i outs : forall best,
  foldl (TokenAC.offer ac i) best outs
  = foldl keep best (omap (candidate ac i) outs).
Proof.
  induction outs as [|pid outs IH]; intros best; simpl; [done|].
  rewrite IH, offer_keep. by destruct (candidate ac i pid).
Qed.

Lemma scan_candidates ac tokens : forall i state best,
  TokenAC.scan ac i state best tokens
  = match candidates ac i state tokens with
    | Some cs => Some (foldl keep best cs)
    | None => None
    end.
Proof.
  induction tokens as [|tok rest IH]; intros i state best; simpl; [done|].
  destruct (TokenAC.advance ac state tok) as [s'|]; [|done].
  rewrite IH, foldl_offer_keep.
  destruct (candidates ac (S i) s' rest); [|done].
  by rewrite foldl_app.
Qed.

(** [C1].  On the automaton built from any phrases and for any tokens,
    the scan ends, and [best] then holds exactly one entry for every start
    index that had a candidate: the first candidate with the largest end
    index among those of that start; [findAll] returns the phrases of
    these entries, deduplicated and sorted.  With the phrases "pre clear"
    and "pre clear trade", the tokens [pre, clear, trade] yield exactly
    ["pre clear trade"]. *)
Theorem findAll_longest_per_start (h : Host) :
  (forall (inputs : list (list jsstring)) (tokens : list jsstring),
      exists ac cs best,
        buildAC inputs = Some ac
        /\ candidates ac 0 0 tokens = Some cs
        /\ TokenAC.scan ac 0 0 [] tokens = Some best
        /\ NoDup best.*1
        /\ (forall s e, mapGet best s = Some e -> Longest cs s e)
        /\ (forall s e, (s, e) ∈ cs -> is_Some (mapGet best s))
        /\ TokenAC.findAll h ac tokens
           = Some (if (length (TokenAC.next ac) =? 1)%nat then []
                   else sortBy (TokenAC.byLengthThenLocale h)
                          (uniq (List.map (fun kv => TokenAC.phrase kv.2) best))))
  /\ (exists ac,
         buildAC [[lit "pre"; lit "clear"]; [lit "pre"; lit "clear"; lit "trade"]]
         = Some ac
         /\ TokenAC.findAll h ac [lit "pre"; lit "clear"; lit "trade"]
            = Some [lit "pre clear trade"]).
Proof.
  split.
  - intros inputs tokens.
    destruct (buildAC_total inputs) as (ac & paths & E & W & _).
    assert (H0 : (0 < length (TokenAC.next ac))%nat).
    { pose proof (ti_root _ _ (wf_trie _ _ W)) as Hr.
      apply lookup_lt_Some in Hr. by rewrite (ti_len _ _ (wf_trie _ _ W)) in Hr. }
    destruct (scan_total ac paths W tokens 0%nat 0%nat [] H0) as [best Hs].
    pose proof Hs as Hs'. rewrite scan_candidates in Hs'.
    destruct (candidates ac 0 0 tokens) as [cs|] eqn:Hcs; [|done].
    injection Hs' as <-.
    destruct (foldl_keep_BestOf cs [] [] BestOf_nil) as [B1 B2 B3].
    exists ac, cs, (foldl keep [] cs).
    repeat (split; [done|]).
    unfold TokenAC.findAll. rewrite Hs.
    by destruct (length (TokenAC.next ac) =? 1)%nat.
  - eexists. split; [vm_compute; reflexivity|]. vm_compute. reflexivity.
Qed.

(** ** [findAll]: the order of the result *)












(** ** [trim] *)

Lemma dropWhile_all {A} (p : A -> bool) l r :
  forallb p l = true -> dropWhile p (l ++ r) = dropWhile p r.
Proof.
  induction l as [|x l IH]; simpl; [done|].
  intros H. apply andb_prop in H as [-> H]. auto.
Qed.

Lemma dropWhile_split {A} (p : A -> bool) l :
  exists pre, l = pre ++ dropWhile p l /\ forallb p pre = true.
Proof.
  induction l as [|x l (pre & E & Hp)]; simpl.
  - by exists [].
  - destruct (p x) eqn:Hx.
    + exists (x :: pre). simpl. rewrite Hx, Hp. split; [by f_equal|done].
    + by exists [].
Qed.

Lemma dropWhile_head (p : N -> bool) l : headIs p (dropWhile p l) = false.
Proof.
  induction l as [|x l IH]; simpl; [done|].
  destruct (p x) eqn:Hx; [done|]. simpl. done.
Qed.

Lemma dropWhile_stop (p : N -> bool) l : headIs p l = false -> dropWhile p l = l.
Proof. destruct l as [|x l]; simpl; [done|]. by intros ->. Qed.

Lemma forallb_rev {A} (p : A -> bool) l : forallb p (rev l) = forallb p l.
Proof.
  induction l as [|x l IH]; simpl; [done|].
  rewrite forallb_app, IH. simpl. rewrite andb_true_r. apply andb_comm.
Qed.

Lemma trim_of_parts ws1 r ws2 :
  allSpace ws1 -> allSpace ws2 -> trimmedText r -> trim (ws1 ++ r ++ ws2) = r.
Proof.
  unfold allSpace, trim, trimStart, trimEnd. intros H1 H2 [Hh Hl].
  rewrite dropWhile_all by done.
  destruct r as [|c r].
  - simpl. rewrite <- (app_nil_r ws2) at 1. rewrite dropWhile_all by done.
    done.
  - simpl in Hh. simpl app at 1. simpl dropWhile. rewrite Hh.
    change (c :: r ++ ws2) with ((c :: r) ++ ws2).
    rewrite rev_app_distr, dropWhile_all by (by rewrite forallb_rev).
    rewrite dropWhile_stop by done. apply rev_involutive.
Qed.

Lemma trim_parts s :
  exists ws1 ws2,
    s = ws1 ++ trim s ++ ws2 /\ allSpace ws1 /\ allSpace ws2
    /\ trimmedText (trim s).
Proof.
  unfold trim, trimStart, trimEnd.
  destruct (dropWhile_split isWhiteSpace s) as (ws1 & E1 & H1).
  set (t := dropWhile isWhiteSpace s) in *.
  destruct (dropWhile_split isWhiteSpace (rev t)) as (ws2 & E2 & H2).
  set (u := dropWhile isWhiteSpace (rev t)) in *.
  exists ws1, (rev ws2). split; [|split; [done|split]].
  - rewrite E1 at 1. f_equal. rewrite <- rev_app_distr, <- E2.
    by rewrite rev_involutive.
  - unfold allSpace. by rewrite forallb_rev.
  - split.
    + destruct (rev u) as [|c r] eqn:Eu; [done|]. simpl.
      destruct (isWhiteSpace c) eqn:Hc; [exfalso|done].
      assert (Ht : headIs isWhiteSpace t = false) by apply dropWhile_head.
      apply (f_equal (@rev N)) in E2. rewrite rev_involutive, rev_app_distr, Eu in E2.
      rewrite E2 in Ht. simpl in Ht. congruence.
    + rewrite rev_involutive. apply dropWhile_head.
Qed.

Lemma trim_idem s : trim (trim s) = trim s.
Proof.
  destruct (trim_parts s) as (ws1 & ws2 & _ & _ & _ & Ht).
  rewrite <- (app_nil_r (trim s)) at 1.
  by apply (trim_of_parts [] (trim s) []).
Qed.

Lemma trim_nil_allSpace s : trim s = [] <-> allSpace s.
Proof.
  split.
  - intros E. destruct (trim_parts s) as (ws1 & ws2 & Hs & H1 & H2 & _).
    rewrite E in Hs. simpl in Hs. rewrite Hs. unfold allSpace in *.
    by rewrite forallb_app, H1, H2.
  - intros H. rewrite <- (app_nil_r s).
    by apply (trim_of_parts s [] []).
Qed.

Lemma trim_fixed s : trimmedText s -> trim s = s.
Proof.
  intros H. rewrite <- (app_nil_r s) at 1.
  by apply (trim_of_parts [] s []).
Qed.

(** ** [extractQuotedPhrasesBalanced] always returns *)

Lemma findClosing_range bound input endChar j :
  let found := findClosing bound input endChar j in
  found = (-1)%Z \/ (Z.of_nat j <= found < Z.of_nat (length input))%Z.
Proof.
  revert j. induction bound as [|bound IH]; intros j; simpl; [by left|].
  destruct (Nat.ltb_spec j (length input)); [|by left].
  destruct (_ && _); [right; lia|].
  destruct (IH (S j)) as [->|H']; [by left | right; lia].
Qed.

Lemma extractLoop_total input : forall fuel i prot rem,
  (length input <= i + fuel)%nat ->
  exists r, extractLoop fuel input i prot rem = Some r.
Proof.
  induction fuel as [|fuel IH]; intros i prot rem Hlen; simpl.
  - destruct (Nat.leb_spec (length input) i); [eauto | lia].
  - destruct (Nat.leb_spec (length input) i); [eauto|].
    match goal with
    | |- context [(Z.of_nat i <? ?f)%Z] => set (found := f)
    end.
    destruct (_ && (Z.of_nat i <? found)%Z) eqn:E.
    + apply andb_prop in E as [_ E]. apply Z.ltb_lt in E.
      apply IH. lia.
    + apply IH. lia.
Qed.

Lemma extractQuotedPhrasesBalanced_total input :
  exists prot rem, extractQuotedPhrasesBalanced input = Some (prot, rem).
Proof.
  unfold extractQuotedPhrasesBalanced.
  destruct (extractLoop_total input (length input) 0 [] []) as [[p r] ->];
    [lia | eauto].
Qed.

(** ** Builders made by the constructor *)

Lemma foldl_addPhrase tokenize us : forall ac,
  foldl (TokenAC.addPhrase tokenize) ac us
  = foldl TokenAC.addTokens ac (List.map tokenize us).
Proof. induction us as [|u us IH]; intros ac; simpl; [done | apply IH]. Qed.

Lemma newAC_total tokenize opts :
  exists ac paths, SearchQueryBuilder.newAC tokenize opts = Some ac /\ WF ac paths.
Proof.
  unfold SearchQueryBuilder.newAC.
  assert (H : forall inputs, exists ac paths,
               TokenAC.build (foldl TokenAC.addTokens TokenAC.empty inputs) = Some ac
               /\ WF ac paths).
  { intros inputs. destruct (buildAC_total inputs) as (ac & paths & E & W & _).
    eauto. }
  destruct (SearchQueryBuilder.nonEmpty _) as [pre|]; [apply H|].
  destruct (SearchQueryBuilder.nonEmpty _) as [us|]; [|apply (H [])].
  rewrite foldl_addPhrase. apply H.
Qed.

Lemma new_total h opts :
  PrepareQueryOptions.acOverride opts = None ->
  exists b, SearchQueryBuilder.new h opts = Some b.
Proof.
  intros Hov. unfold SearchQueryBuilder.new. rewrite Hov.
  destruct (newAC_total
              (default (defaultTokenize h) (PrepareQueryOptions.tokenize opts)) opts)
    as (ac & paths & -> & _).
  eauto.
Qed.

Lemma Constructed_WF h b :
  Constructed h b -> exists paths, WF (SearchQueryBuilder.ac b) paths.
Proof.
  intros (opts & Hov & Hb). unfold SearchQueryBuilder.new in Hb.
  rewrite Hov in Hb.
  destruct (newAC_total
              (default (defaultTokenize h) (PrepareQueryOptions.tokenize opts)) opts)
    as (ac & paths & E & W).
  rewrite E in Hb. injection Hb as <-. eauto.
Qed.

Lemma analyzeQuotes_total s :
  exists r, SearchQueryBuilder.analyzeQuotes s = Some r.
Proof.
  unfold SearchQueryBuilder.analyzeQuotes.
  destruct (_ && _); [|eauto].
  destruct (extractQuotedPhrasesBalanced_total s) as (p & r & ->). eauto.
Qed.

Lemma prepare_total h b s :
  Constructed h b -> exists pq, SearchQueryBuilder.prepare h b s = Some pq.
Proof.
  intros Hb. destruct (Constructed_WF h b Hb) as [paths W].
  unfold SearchQueryBuilder.prepare. destruct (trim s); [eauto|].
  destruct (analyzeQuotes_total s) as [[[bal prot] rem] ->].
  match goal with
  | |- context [TokenAC.findAll h _ ?toks] =>
      destruct (findAll_total h (SearchQueryBuilder.ac b) paths toks W) as [r ->]
  end.
  eauto.
Qed.

(** ** [prepare], step by step *)

Lemma prepare_blank h b s :
  trim s = [] -> SearchQueryBuilder.prepare h b s = Some (emptyQuery s).
Proof. intros E. unfold SearchQueryBuilder.prepare. by rewrite E. Qed.

Lemma prepare_Some h b s pq :
  trim s <> [] ->
  SearchQueryBuilder.prepare h b s = Some pq ->
  exists bal prot rem ms,
    SearchQueryBuilder.analyzeQuotes s = Some (bal, prot, rem)
    /\ TokenAC.findAll h (SearchQueryBuilder.ac b) (cleanedTokensOf b rem) = Some ms
    /\ pq = {| originalInput := s;
               protectedPhrases := prot;
               cleanedTokens := cleanedTokensOf b rem;
               cleanedText := trim (join (lit " ") (cleanedTokensOf b rem));
               utteranceMatches := ms;
               queryString :=
                 join (lit " OR ")
                   (List.map (SearchQueryBuilder.wrap b)
                      (uniq (SearchQueryBuilder.clausesOf b s (trim s)
                               (trim (join (lit " ") (cleanedTokensOf b rem)))
                               bal prot ms)));
               hadUnbalancedQuotes := negb bal |}.
Proof.
  intros Hne. unfold SearchQueryBuilder.prepare.
  destruct (trim s) as [|c t] eqn:Et; [done|].
  destruct (SearchQueryBuilder.analyzeQuotes s) as [[[bal prot] rem]|]; [|done].
  destruct (TokenAC.findAll h (SearchQueryBuilder.ac b) _)
    as [ms|] eqn:Hf; [|done].
  intros [= <-]. exists bal, prot, rem, ms.
  split; [done|]. split; [exact Hf | reflexivity].
Qed.

Lemma join_head_nonempty sep x xs : x <> [] -> join sep (x :: xs) <> [].
Proof. destruct xs; simpl; [done|]. by destruct x. Qed.

Lemma uniq_cons_head {A} `{EqDecision A} (x : A) l :
  exists more, uniq (x :: l) = x :: more.
Proof.
  unfold uniq. simpl. unfold uniqStep at 2. simpl.
  destruct (uniq_acc_head l [x]) as [more ->]. by exists more.
Qed.

(** [C8], as amended.  For a builder whose [wrap] never returns the empty
    string (the default [wrap] does not), [prepare] returns a query string
    that is empty if and only if the trimmed input is empty; for every
    builder made by the constructor, a blank input gives the all-empty
    result with [hadUnbalancedQuotes = false]. *)
Theorem prepare_empty_iff (h : Host) (b : SearchQueryBuilder.t) (s : jsstring) :
  Constructed h b ->
  exists pq,
    SearchQueryBuilder.prepare h b s = Some pq
    /\ (trim s = [] ->
        protectedPhrases pq = [] /\ cleanedTokens pq = []
        /\ utteranceMatches pq = [] /\ cleanedText pq = []
        /\ queryString pq = [] /\ hadUnbalancedQuotes pq = false)
    /\ ((forall c, SearchQueryBuilder.wrap b c <> []) ->
        (queryString pq = [] <-> trim s = [])).
Proof.
  intros Hb. destruct (prepare_total h b s Hb) as [pq Hpq].
  exists pq. split; [done|]. split.
  - intros E. rewrite (prepare_blank h b s E) in Hpq. by injection Hpq as <-.
  - intros Hwrap. split.
    + intros Hq. destruct (decide (trim s = [])) as [|Hne]; [done|]. exfalso.
      destruct (prepare_Some h b s pq Hne Hpq)
        as (bal & prot & rem & ms & _ & _ & ->).
      simpl in Hq. unfold SearchQueryBuilder.clausesOf in Hq.
      simpl in Hq.
      match type of Hq with
      | context [uniq (?c :: ?l)] => destruct (uniq_cons_head c l) as [more Hu]
      end.
      rewrite Hu in Hq. simpl List.map in Hq.
      by apply join_head_nonempty in Hq.
    + intros E. rewrite (prepare_blank h b s E) in Hpq. by injection Hpq as <-.
Qed.

Lemma plainBuilder_Constructed : Constructed UnicodeFragment.host plainBuilder.
Proof. exists plainOptions. split; reflexivity. Qed.

Lemma defaultWrap_nonempty c : defaultWrap c <> [].
Proof. done. Qed.

Lemma prepare_empty_iff_witness :
  Constructed UnicodeFragment.host plainBuilder
  /\ trim (lit "   ") = []
  /\ (forall c, SearchQueryBuilder.wrap plainBuilder c <> [])
  /\ exists pq,
       SearchQueryBuilder.prepare UnicodeFragment.host plainBuilder (lit "   ")
       = Some pq
       /\ queryString pq = [] /\ hadUnbalancedQuotes pq = false.
Proof.
  split; [exact plainBuilder_Constructed|].
  split; [reflexivity|]. split; [exact defaultWrap_nonempty|].
  destruct (prepare_empty_iff UnicodeFragment.host plainBuilder (lit "   ")
              plainBuilder_Constructed) as (pq & Hpq & Hblank & Hiff).
  exists pq. split; [exact Hpq|].
  destruct (Hblank eq_refl) as (_ & _ & _ & _ & Hq & Hu).
  split; [exact Hq | exact Hu].
Defined.

(** [C8] as stated fails for a builder whose [wrap] returns the empty
    string: the input "a" is not blank, yet the query string is empty. *)
Lemma prepare_empty_iff_counterexample :
  let opts :=
    {| PrepareQueryOptions.stopWords := [];
       PrepareQueryOptions.utterances := None;
       PrepareQueryOptions.pretokenizedUtterances := None;
       PrepareQueryOptions.normalize := None;
       PrepareQueryOptions.tokenize := None;
       PrepareQueryOptions.wrap := Some (fun _ => []);
       PrepareQueryOptions.alwaysIncludeCleaned := false;
       PrepareQueryOptions.acOverride := None |} in
  exists b pq,
    SearchQueryBuilder.new UnicodeFragment.host opts = Some b
    /\ SearchQueryBuilder.prepare UnicodeFragment.host b (lit "a") = Some pq
    /\ queryString pq = []
    /\ trim (lit "a") <> [].
Proof.
  eexists _, _. split; [reflexivity|]. split; [reflexivity|].
  split; [reflexivity | discriminate].
Qed.

(** ** Quote balance *)

Lemma charAt_app_r (pre r : jsstring) c :
  charAt (pre ++ c :: r) (Z.of_nat (length pre)) = Some c.
Proof.
  unfold charAt. destruct (Z.ltb_spec (Z.of_nat (length pre)) 0); [lia|].
  rewrite Nat2Z.id. by apply list_lookup_middle.
Qed.

Lemma charAt_before (pre r : jsstring) :
  charAt (pre ++ r) (Z.of_nat (length pre) - 1) = list.last pre.
Proof.
  unfold charAt. destruct pre as [|x pre] using rev_ind; [done|].
  rewrite length_app, last_snoc. simpl.
  destruct (Z.ltb_spec (Z.of_nat (length pre + 1) - 1) 0); [lia|].
  replace (Z.to_nat (Z.of_nat (length pre + 1) - 1)) with (length pre) by lia.
  rewrite <- app_assoc. simpl. by apply list_lookup_middle.
Qed.

Lemma countLoop_spec (r : jsstring) : forall (pre : jsstring) (acc : nat),
  foldl (fun count i =>
           if eqChar (charAt (pre ++ r) (Z.of_nat i)) QUOTE
              && negb (eqChar (charAt (pre ++ r) (Z.of_nat i - 1)) BACKSLASH)
           then S count else count)
        acc (seq (length pre) (length r))
  = (acc + unescapedQuotes (list.last pre) r)%nat.
Proof.
  induction r as [|c r IH]; intros pre acc; simpl; [lia|].
  rewrite charAt_app_r, charAt_before. simpl.
  specialize (IH (pre ++ [c])).
  rewrite <- app_assoc, length_app, last_snoc in IH. simpl in IH.
  rewrite Nat.add_1_r in IH. rewrite IH.
  destruct (_ && _); lia.
Qed.

Lemma countUnescapedQuotes_spec s : countUnescapedQuotes s = straightCount s.
Proof. apply (countLoop_spec s [] 0%nat). Qed.

Lemma allSpace_no_quotes s :
  allSpace s ->
  (forall prev, unescapedQuotes prev s = 0%nat)
  /\ curlyOpens s = 0%nat /\ curlyCloses s = 0%nat.
Proof.
  unfold allSpace, curlyOpens, curlyCloses, countChar.
  induction s as [|c s IH]; simpl; [done|].
  intros H. apply andb_prop in H as [Hc Hs].
  destruct (IH Hs) as (I1 & I2 & I3).
  assert ((c =? QUOTE) = false /\ (c =? LDQUO) = false /\ (c =? RDQUO) = false)
    as (-> & -> & ->).
  { repeat split; apply N.eqb_neq; intros ->; discriminate. }
  simpl. split; [intros prev; apply I1 | done].
Qed.

Lemma analyzeQuotes_flag s bal prot rem :
  SearchQueryBuilder.analyzeQuotes s = Some (bal, prot, rem) ->
  bal = hasBalancedStraightQuotes s && hasBalancedCurlyQuotes s.
Proof.
  unfold SearchQueryBuilder.analyzeQuotes.
  destruct (_ && _).
  - destruct (extractQuotedPhrasesBalanced s) as [[p r]|]; [|done].
    by intros [= <- _ _].
  - by intros [= <- _ _].
Qed.

Lemma hadUnbalancedQuotes_spec h b s pq :
  SearchQueryBuilder.prepare h b s = Some pq ->
  hadUnbalancedQuotes pq = false
  <-> Nat.Even (straightCount s) /\ curlyOpens s = curlyCloses s.
Proof.
  intros Hpq. destruct (decide (trim s = [])) as [E|Hne].
  - rewrite (prepare_blank h b s E) in Hpq. injection Hpq as <-. simpl.
    apply trim_nil_allSpace, allSpace_no_quotes in E as (E1 & -> & ->).
    unfold straightCount. rewrite E1. split; [|done].
    intros _. split; [by exists 0%nat | done].
  - destruct (prepare_Some h b s pq Hne Hpq)
      as (bal & prot & rem & ms & Ha & _ & ->).
    simpl. rewrite (analyzeQuotes_flag _ _ _ _ Ha).
    unfold hasBalancedStraightQuotes, hasBalancedCurlyQuotes.
    rewrite countUnescapedQuotes_spec, negb_false_iff, andb_true_iff.
    rewrite Nat.even_spec, Nat.eqb_eq. done.
Qed.



(** ** The unbalanced path *)

Lemma collapseSpaces_quotes_as_space s : forall inRun,
  collapseSpaces inRun
    (List.map (fun c => if isQuoteChar c then SPACE else c) s)
  = collapseRuns (fun c => isQuoteChar c || isWhiteSpace c) inRun s.
Proof.
  induction s as [|c s IH]; intros inRun; simpl; [done|].
  destruct (isQuoteChar c) eqn:Hq; simpl.
  - by rewrite !IH.
  - by rewrite !IH.
Qed.

Lemma analyzeQuotes_unbalanced s prot rem :
  SearchQueryBuilder.analyzeQuotes s = Some (false, prot, rem) ->
  prot = [] /\ rem = stripStrayQuotes s.
Proof.
  unfold SearchQueryBuilder.analyzeQuotes. destruct (_ && _).
  - by destruct (extractQuotedPhrasesBalanced s) as [[p r]|].
  - by intros [= <- <-].
Qed.

(** [C3], as amended.  For an input whose quotes are unbalanced,
    [prepare] returns (it does not fail) with [hadUnbalancedQuotes] true
    and no protected phrases, and the remainder it tokenizes is the input
    with every quote character replaced by a space, runs of white space
    then collapsed to single spaces, trimmed: every maximal run of quote
    characters and white space becomes one space. *)
Theorem unbalanced_quotes_stripped (h : Host) (b : SearchQueryBuilder.t)
    (s : jsstring) :
  Constructed h b ->
  ~ (Nat.Even (straightCount s) /\ curlyOpens s = curlyCloses s) ->
  exists pq,
    SearchQueryBuilder.prepare h b s = Some pq
    /\ hadUnbalancedQuotes pq = true
    /\ protectedPhrases pq = []
    /\ SearchQueryBuilder.analyzeQuotes s = Some (false, [], stripStrayQuotes s)
    /\ cleanedTokens pq = cleanedTokensOf b (stripStrayQuotes s)
    /\ stripStrayQuotes s
       = trim (collapseRuns (fun c => isQuoteChar c || isWhiteSpace c) false s).
Proof.
  intros Hb Hunb. destruct (prepare_total h b s Hb) as [pq Hpq].
  exists pq. split; [done|].
  pose proof (hadUnbalancedQuotes_spec h b s pq Hpq) as Hflag.
  assert (Hne : trim s <> []).
  { intros E. apply Hunb, Hflag. rewrite (prepare_blank h b s E) in Hpq.
    by injection Hpq as <-. }
  destruct (prepare_Some h b s pq Hne Hpq)
    as (bal & prot & rem & ms & Ha & _ & ->).
  simpl in *. destruct bal; [exfalso; by apply Hunb, Hflag|].
  destruct (analyzeQuotes_unbalanced _ _ _ Ha) as [-> ->].
  repeat (split; [done|]).
  unfold stripStrayQuotes. by rewrite collapseSpaces_quotes_as_space.
Qed.

Lemma unbalanced_quotes_stripped_witness :
  let s := lit "how do i " ++ [QUOTE] ++ lit "pre clear trade today" in
  Constructed UnicodeFragment.host plainBuilder
  /\ ~ (Nat.Even (straightCount s) /\ curlyOpens s = curlyCloses s)
  /\ exists pq,
       SearchQueryBuilder.prepare UnicodeFragment.host plainBuilder s = Some pq
       /\ hadUnbalancedQuotes pq = true
       /\ protectedPhrases pq = []
       /\ cleanedTokens pq
          = cleanedTokensOf plainBuilder (lit "how do i pre clear trade today").
Proof.
  intros s.
  assert (Hunb : ~ (Nat.Even (straightCount s) /\ curlyOpens s = curlyCloses s)).
  { intros [[k Hk] _].
    assert (E : straightCount s = 1%nat) by reflexivity.
    rewrite E in Hk. lia. }
  split; [exact plainBuilder_Constructed|]. split; [exact Hunb|].
  destruct (unbalanced_quotes_stripped UnicodeFragment.host plainBuilder s
              plainBuilder_Constructed Hunb)
    as (pq & Hpq & Hflag & Hprot & _ & Htok & _).
  exists pq. split; [exact Hpq|]. split; [exact Hflag|].
  split; [exact Hprot | exact Htok].
Defined.

(** [C3] as stated fails: in the input made of ab, one straight quote
    and cd, the quote is not deleted but replaced by a space, so the
    remainder is "ab cd" and gives two tokens, where deleting the quote
    would give "abcd" and one token. *)
Lemma unbalanced_quotes_counterexample :
  let s := lit "ab" ++ [QUOTE] ++ lit "cd" in
  hasBalancedStraightQuotes s = false
  /\ stripStrayQuotes s = lit "ab cd"
  /\ deleteQuotesThenCollapse s = lit "abcd"
  /\ stripStrayQuotes s <> deleteQuotesThenCollapse s
  /\ exists pq,
       SearchQueryBuilder.prepare UnicodeFragment.host plainBuilder s = Some pq
       /\ cleanedTokens pq = [lit "ab"; lit "cd"]
       /\ cleanedTokensOf plainBuilder (deleteQuotesThenCollapse s) = [lit "abcd"].
Proof.
  repeat split; try reflexivity; try discriminate.
  eexists. repeat split; reflexivity.
Qed.

(** ** Quote-escaping *)

Lemma replaceAll_app c by_ a b :
  replaceAll c by_ (a ++ b) = replaceAll c by_ a ++ replaceAll c by_ b.
Proof. unfold replaceAll. apply flat_map_app. Qed.

Lemma quoteExact_shape s :
  quoteExact s = [QUOTE] ++ List.flat_map escapeChar s ++ [QUOTE].
Proof.
  unfold quoteExact. do 2 f_equal.
  induction s as [|c s IH]; [done|].
  change (replaceAll BACKSLASH [BACKSLASH; BACKSLASH] (c :: s))
    with ((if c =? BACKSLASH then [BACKSLASH; BACKSLASH] else [c])
          ++ replaceAll BACKSLASH [BACKSLASH; BACKSLASH] s).
  rewrite replaceAll_app, IH. simpl. f_equal. unfold escapeChar.
  destruct (N.eqb_spec c BACKSLASH) as [->|Hb]; [done|].
  simpl. by destruct (c =? QUOTE).
Qed.

Lemma unescape_escape s : unescape (List.flat_map escapeChar s) = Some s.
Proof.
  induction s as [|c s IH]; [done|]. simpl. unfold escapeChar at 1.
  destruct (N.eqb_spec c BACKSLASH) as [->|Hb]; simpl; [by rewrite IH|].
  destruct (N.eqb_spec c QUOTE) as [->|Hq]; simpl; [by rewrite IH|].
  destruct (N.eqb_spec c BACKSLASH); [done|].
  destruct (N.eqb_spec c QUOTE); [done|]. by rewrite IH.
Qed.

Lemma unquoteExact_quoteExact s : unquoteExact (quoteExact s) = Some s.
Proof.
  rewrite quoteExact_shape. simpl.
  rewrite rev_app_distr. simpl. rewrite rev_involutive. apply unescape_escape.
Qed.

Lemma quoteExact_inj a b : quoteExact a = quoteExact b -> a = b.
Proof.
  intros E. apply (f_equal unquoteExact) in E.
  rewrite !unquoteExact_quoteExact in E. by injection E.
Qed.

Lemma clausesOf_escaped b s trimmed cleanedText bal prot ms :
  SearchQueryBuilder.clausesOf b s trimmed cleanedText bal prot ms
  = List.map quoteExact (clauseTexts b s trimmed cleanedText bal prot ms).
Proof.
  unfold SearchQueryBuilder.clausesOf, clauseTexts.
  rewrite !List.map_app. simpl. do 2 f_equal.
  - by destruct (_ && _).
  - by destruct bal.
Qed.

(** [C9].  [quoteExact] encloses the phrase in double quotes, writes
    every backslash twice and puts a backslash before every double quote;
    de-escaping gives the phrase back, whatever it contains; and in
    [prepare] every clause is escaped before the clauses are
    deduplicated. *)
Theorem quoteExact_escapes (h : Host) (b : SearchQueryBuilder.t) (s : jsstring) :
  Constructed h b ->
  (forall x, quoteExact x = [QUOTE] ++ List.flat_map escapeChar x ++ [QUOTE])
  /\ (forall x, unquoteExact (quoteExact x) = Some x)
  /\ exists pq,
       SearchQueryBuilder.prepare h b s = Some pq
       /\ (trim s <> [] ->
           exists texts,
             queryString pq
             = join (lit " OR ")
                 (List.map (SearchQueryBuilder.wrap b)
                    (uniq (List.map quoteExact (trim s :: texts))))).
Proof.
  intros Hb. split; [apply quoteExact_shape|].
  split; [apply unquoteExact_quoteExact|].
  destruct (prepare_total h b s Hb) as [pq Hpq].
  exists pq. split; [done|]. intros Hne.
  destruct (prepare_Some h b s pq Hne Hpq)
    as (bal & prot & rem & ms & _ & _ & ->).
  simpl. rewrite clausesOf_escaped. unfold clauseTexts. simpl. eauto.
Qed.

Lemma quoteExact_escapes_witness :
  let s := lit "say " ++ [QUOTE] ++ lit "a" ++ [BACKSLASH] ++ lit "b" in
  Constructed UnicodeFragment.host plainBuilder
  /\ trim s <> []
  /\ quoteExact s
     = [QUOTE] ++ lit "say " ++ [BACKSLASH; QUOTE] ++ lit "a"
       ++ [BACKSLASH; BACKSLASH] ++ lit "b" ++ [QUOTE]
  /\ unquoteExact (quoteExact s) = Some s
  /\ exists pq texts,
       SearchQueryBuilder.prepare UnicodeFragment.host plainBuilder s = Some pq
       /\ queryString pq
          = join (lit " OR ")
              (List.map (SearchQueryBuilder.wrap plainBuilder)
                 (uniq (List.map quoteExact (trim s :: texts)))).
Proof.
  intros s.
  assert (Hne : trim s <> []) by discriminate.
  destruct (quoteExact_escapes UnicodeFragment.host plainBuilder s
              plainBuilder_Constructed) as (Hshape & Hinv & pq & Hpq & Hq).
  split; [exact plainBuilder_Constructed|]. split; [exact Hne|].
  split; [reflexivity|]. split; [exact (Hinv s)|].
  destruct (Hq Hne) as [texts Ht].
  exists pq, texts. split; [exact Hpq | exact Ht].
Defined.

(** ** The default normalizer *)

Lemma Forall_trim (P : N -> Prop) s : Forall P s -> Forall P (trim s).
Proof.
  intros H. destruct (trim_parts s) as (ws1 & ws2 & E & _).
  rewrite E in H. apply list.Forall_app in H as [_ H].
  by apply list.Forall_app in H as [H _].
Qed.

Lemma fragment_nfkc_ascii s :
  Forall isAscii s -> UnicodeFragment.nfkc s = s.
Proof.
  induction s as [|c s IH]; [done|]. intros H.
  apply list.Forall_cons in H as [Hc Hs]. specialize (IH Hs).
  destruct s as [|m s']; [done|].
  change (UnicodeFragment.nfkc (c :: m :: s'))
    with (if (c =? 106) && (m =? UnicodeFragment.CARON)
          then UnicodeFragment.J_CARON :: UnicodeFragment.nfkc s'
          else c :: UnicodeFragment.nfkc (m :: s')).
  apply list.Forall_cons in Hs as [Hm _].
  assert ((m =? UnicodeFragment.CARON) = false) as ->.
  { apply N.eqb_neq. intros ->. unfold isAscii in Hm. vm_compute in Hm. done. }
  rewrite andb_false_r. by rewrite IH.
Qed.

Lemma fragment_lower_ascii s :
  Forall isAscii s ->
  Forall isAscii (UnicodeFragment.toLowerCase s)
  /\ Forall (fun c => UnicodeFragment.lowerChar c = c)
            (UnicodeFragment.toLowerCase s).
Proof.
  unfold UnicodeFragment.toLowerCase.
  induction 1 as [|c s Hc Hs [IH1 IH2]]; simpl; [by split|].
  assert (isAscii (UnicodeFragment.lowerChar c)
          /\ UnicodeFragment.lowerChar (UnicodeFragment.lowerChar c)
             = UnicodeFragment.lowerChar c) as [H1 H2].
  { unfold UnicodeFragment.lowerChar, isAscii in *.
    destruct (N.leb_spec 65 c), (N.leb_spec c 90); simpl.
    - destruct (N.leb_spec 65 (c + 32)), (N.leb_spec (c + 32) 90); simpl; lia.
    - destruct (N.leb_spec 65 c), (N.leb_spec c 90); simpl; lia.
    - destruct (N.leb_spec 65 c), (N.leb_spec c 90); simpl; lia.
    - destruct (N.leb_spec 65 c), (N.leb_spec c 90); simpl; lia. }
  split; by constructor.
Qed.

Lemma fragment_lower_fixed s :
  Forall (fun c => UnicodeFragment.lowerChar c = c) s ->
  UnicodeFragment.toLowerCase s = s.
Proof.
  unfold UnicodeFragment.toLowerCase.
  induction 1 as [|c s Hc Hs IH]; simpl; [done|]. by rewrite Hc, IH.
Qed.

Lemma normalize_fixed h t :
  nfkc h t = t -> toLowerCase h t = t -> trim t = t -> defaultNormalize h t = t.
Proof. unfold defaultNormalize. by intros -> -> ->. Qed.

(** [C7], as amended.  [normalize (normalize x) = normalize x] holds for
    every [x] whose normal form is itself unchanged by NFKC normalization
    and by lower-casing; that is the case of every ASCII string (shown on
    the host fragment, where the built-ins are given for ASCII text). *)
Theorem normalize_idempotent_when_stable (h : Host) (x : jsstring) :
  (nfkc h (defaultNormalize h x) = defaultNormalize h x ->
   toLowerCase h (defaultNormalize h x) = defaultNormalize h x ->
   defaultNormalize h (defaultNormalize h x) = defaultNormalize h x)
  /\ (Forall isAscii x ->
      defaultNormalize UnicodeFragment.host
        (defaultNormalize UnicodeFragment.host x)
      = defaultNormalize UnicodeFragment.host x).
Proof.
  split.
  - intros H1 H2. apply normalize_fixed; [done|done|].
    unfold defaultNormalize. apply trim_idem.
  - intros Hx. unfold defaultNormalize at 2 3. simpl.
    rewrite (fragment_nfkc_ascii x Hx).
    destruct (fragment_lower_ascii x Hx) as [Ha Hl].
    apply normalize_fixed; simpl.
    + apply fragment_nfkc_ascii. by apply Forall_trim.
    + apply fragment_lower_fixed. by apply Forall_trim.
    + apply trim_idem.
Qed.

Lemma normalize_idempotent_when_stable_witness :
  let h := UnicodeFragment.host in
  let x := lit "  Pre-Clear TRADE " in
  nfkc h (defaultNormalize h x) = defaultNormalize h x
  /\ toLowerCase h (defaultNormalize h x) = defaultNormalize h x
  /\ Forall isAscii x
  /\ defaultNormalize h x = lit "pre-clear trade"
  /\ defaultNormalize h (defaultNormalize h x) = defaultNormalize h x.
Proof.
  intros h x.
  assert (H1 : nfkc h (defaultNormalize h x) = defaultNormalize h x)
    by reflexivity.
  assert (H2 : toLowerCase h (defaultNormalize h x) = defaultNormalize h x)
    by reflexivity.
  assert (H3 : Forall isAscii x) by (repeat constructor).
  split; [exact H1|]. split; [exact H2|]. split; [exact H3|].
  split; [reflexivity|].
  exact (proj1 (normalize_idempotent_when_stable h x) H1 H2).
Defined.

(** [C7] as stated fails.  Take "J" followed by U+030C COMBINING CARON.
    It is in NFKC form (there is no capital J with caron); lower-casing
    gives "j" followed by U+030C, which is not in NFKC form; normalizing
    again composes it into U+01F0.  So [normalize] maps the input to a
    string of two code units and that string to a string of one. *)
Lemma normalize_not_idempotent :
  let h := UnicodeFragment.host in
  let x := [74; UnicodeFragment.CARON] in
  defaultNormalize h x = [106; UnicodeFragment.CARON]
  /\ defaultNormalize h (defaultNormalize h x) = [UnicodeFragment.J_CARON]
  /\ defaultNormalize h (defaultNormalize h x) <> defaultNormalize h x.
Proof. repeat split; try reflexivity. discriminate. Qed.

(** ** The tokenizer: tokens are the maximal runs of token characters

    A position of the text is a token character when it holds an
    alphanumeric, or a joiner with an alphanumeric on each side. *)

Lemma alnum_not_joiner c : isAlnum c = true -> isJoiner c = false.
Proof.
  unfold isAlnum, isJoiner. intros H.
  destruct (N.eqb_spec c 45) as [->|?]; [done|].
  destruct (N.eqb_spec c 39) as [->|?]; done.
Qed.

Lemma headIs_head p s : headIs p s = optIs p (head s).
Proof. by destruct s. Qed.

Lemma before_app_last (l r : jsstring) :
  before (l ++ r) (length l) = list.last l.
Proof.
  destruct l as [|x l] using rev_ind; [done|].
  rewrite length_app, last_snoc. simpl. rewrite Nat.add_1_r. simpl.
  rewrite <- app_assoc. simpl. by apply list_lookup_middle.
Qed.

Lemma tokAt_lt text k : tokAt text k = true -> (k < length text)%nat.
Proof.
  unfold tokAt. destruct (text !! k) eqn:E; [|done]. intros _.
  by eapply lookup_lt_Some.
Qed.

(** The decision [execAll] takes on a character is [tokAt]. *)
Lemma execAll_decision (pre cur rest : jsstring) c :
  let text := pre ++ cur ++ c :: rest in
  (forall k, (length pre <= k < length pre + length cur)%nat -> tokAt text k = true) ->
  (pre <> [] -> tokAt text (length pre - 1) = false) ->
  tokAt text (length pre + length cur)
  = isAlnum c
    || (isJoiner c && negb (bool_decide (cur = [])) && headIs isAlnum rest).
Proof.
  intros text Hcur Hleft.
  assert (Hc : text !! (length pre + length cur)%nat = Some c).
  { subst text. rewrite app_assoc. apply list_lookup_middle.
    by rewrite length_app. }
  assert (Hn : text !! S (length pre + length cur) = head rest).
  { subst text. rewrite app_assoc.
    replace (S (length pre + length cur)) with (length (pre ++ cur) + 1)%nat
      by (rewrite length_app; lia).
    rewrite lookup_app_r by lia.
    replace (length (pre ++ cur) + 1 - length (pre ++ cur))%nat with 1%nat by lia.
    by destruct rest. }
  assert (Hb : before text (length pre + length cur) = list.last (pre ++ cur)).
  { subst text. rewrite app_assoc, <- length_app. apply before_app_last. }
  unfold tokAt at 1. rewrite Hc, Hn, Hb, headIs_head.
  destruct (isAlnum c) eqn:Ha; [done|]. simpl.
  destruct (isJoiner c) eqn:Hj; [|done]. simpl.
  destruct (optIs isAlnum (head rest)) eqn:Hr; [|by rewrite !andb_false_r].
  rewrite !andb_true_r.
  destruct cur as [|x cur] using rev_ind.
  - (* no match in progress: the previous character is no token character *)
    rewrite app_nil_r. simpl.
    destruct pre as [|y pre] using rev_ind; [done|].
    rewrite last_snoc. simpl.
    assert (Hl : tokAt text (length (pre ++ [y]) - 1) = false)
      by (apply Hleft; by destruct pre).
    rewrite length_app in Hl. simpl in Hl.
    replace (length pre + 1 - 1)%nat with (length pre) in Hl by lia.
    unfold tokAt in Hl.
    assert (text !! length pre = Some y) as Hy.
    { subst text. rewrite <- !app_assoc. by apply list_lookup_middle. }
    rewrite Hy in Hl. by apply orb_false_iff in Hl as [-> _].
  - (* a match in progress: its last character is alphanumeric *)
    rewrite app_assoc, last_snoc. simpl.
    rewrite bool_decide_eq_false_2 by (by destruct cur). simpl.
    assert (Ht : tokAt text (length pre + length cur) = true).
    { apply Hcur. rewrite length_app. simpl. lia. }
    unfold tokAt in Ht.
    assert (Hx : text !! (length pre + length cur)%nat = Some x).
    { subst text. rewrite <- !app_assoc, app_assoc.
      apply list_lookup_middle. by rewrite length_app. }
    assert (Hnx : text !! S (length pre + length cur) = Some c).
    { rewrite length_app in Hc. simpl in Hc. rewrite <- Hc. f_equal. lia. }
    rewrite Hx, Hnx in Ht. simpl in Ht. rewrite Ha, andb_false_r in Ht.
    by rewrite orb_false_r in Ht.
Qed.

Lemma occurs_middle (pre cur s : jsstring) : occurs (pre ++ cur ++ s) (length pre) cur.
Proof.
  unfold occurs. rewrite drop_app_length. by rewrite take_app_length.
Qed.

Lemma occurs_length text i t :
  t <> [] -> occurs text i t -> (i + length t <= length text)%nat.
Proof.
  unfold occurs. intros Hne E. apply (f_equal length) in E.
  rewrite length_take, length_drop in E.
  assert (0 < length t)%nat by (destruct t; [done | simpl; lia]). lia.
Qed.

Lemma occurs_inj text i t t' :
  occurs text i t -> occurs text i t' -> length t = length t' -> t = t'.
Proof.
  unfold occurs. intros H1 H2 Hl.
  transitivity (take (length t) (drop i text)); [done|]. by rewrite Hl.
Qed.

Lemma flush_runs (pre cur s : jsstring) :
  let text := pre ++ cur ++ s in
  ScanInv text pre cur ->
  tokAt text (length pre + length cur) = false ->
  forall i t,
    (i, t) ∈ flush (length pre) cur
    <-> Run text i t /\ (length pre <= i <= length pre + length cur)%nat.
Proof.
  intros text [Hcur Hleft] Hend i t. split.
  - intros Hin. destruct cur as [|c cur]; [by apply elem_of_nil in Hin|].
    apply list_elem_of_singleton in Hin. injection Hin as -> ->.
    split; [|lia]. split; [done|apply occurs_middle|done| |done].
    intros Hpos. apply Hleft. intros ->. simpl in Hpos. lia.
  - intros [[Hne Hocc Htok Hl Hr] [Hge Hle]].
    assert (Hti : tokAt text i = true).
    { apply Htok. destruct t; [done|]. simpl. lia. }
    assert (i = length pre) as ->.
    { destruct (decide (i = length pre)) as [|Hn]; [done|]. exfalso.
      assert (tokAt text (i - 1) = true) as Hc; [|rewrite Hl in Hc; [done|lia]].
      apply Hcur. destruct (decide (i = length pre + length cur)%nat) as [->|];
        [congruence | lia]. }
    assert (length t = length cur) as Hlen.
    { destruct (Nat.lt_trichotomy (length t) (length cur)) as [Hlt|[|Hgt]];
        [exfalso|done|exfalso].
      - rewrite Hcur in Hr; [done|lia].
      - rewrite Htok in Hend; [done|lia]. }
    assert (t = cur) as ->.
    { eapply occurs_inj; [done|apply occurs_middle|done]. }
    destruct cur; [done|]. simpl. by apply list_elem_of_singleton.
Qed.

Lemma execAll_runs s : forall pre cur pos start text,
  text = pre ++ cur ++ s ->
  pos = (length pre + length cur)%nat -> start = length pre ->
  ScanInv text pre cur ->
  forall i t,
    (i, t) ∈ execAll pos start cur s
    <-> Run text i t /\ (length pre <= i)%nat.
Proof.
  induction s as [|c rest IH]; intros pre cur pos start text -> -> -> Hinv i t.
  - simpl. rewrite flush_runs; [|done|].
    + split; [intros [? ?]; split; [done|lia]|].
      intros [HR Hge]. split; [done|]. split; [done|].
      pose proof (run_tok _ _ _ HR i) as Ht.
      pose proof (run_ne _ _ _ HR). 
      assert (tokAt (pre ++ cur ++ []) i = true) as Hti
        by (apply Ht; destruct t; [done | simpl; lia]).
      apply tokAt_lt in Hti. rewrite !length_app in Hti. simpl in Hti. lia.
    + destruct (tokAt _ _) eqn:E; [|done]. apply tokAt_lt in E.
      rewrite !length_app in E. simpl in E. lia.
  - pose proof (execAll_decision pre cur rest c (proj1 Hinv) (proj2 Hinv)) as Hd.
    simpl in Hd.
    assert (Hext : tokAt (pre ++ cur ++ c :: rest) (length pre + length cur) = true ->
                   forall st, st = length pre ->
                   (i, t) ∈ execAll (S (length pre + length cur)) st (cur ++ [c]) rest
                   <-> Run (pre ++ cur ++ c :: rest) i t /\ (length pre <= i)%nat).
    { intros Htrue st ->. apply (IH pre (cur ++ [c])).
      - by rewrite <- !app_assoc.
      - rewrite length_app. simpl. lia.
      - done.
      - destruct Hinv as [Hcur Hleft]. split; [|done].
        intros k Hk. rewrite length_app in Hk. simpl in Hk.
        destruct (decide (k = length pre + length cur)%nat) as [->|]; [done|].
        apply Hcur. lia. }
    simpl. destruct (isAlnum c) eqn:Ha.
    + apply Hext; [by rewrite Hd|]. destruct cur; simpl; lia.
    + simpl in Hd. destruct (_ && _ && _) eqn:Hj.
      * by apply Hext.
      * rewrite elem_of_app.
        rewrite (flush_runs pre cur (c :: rest) Hinv Hd).
        rewrite (IH (pre ++ cur ++ [c]) [] (S (length pre + length cur))
                    (S (length pre + length cur)) (pre ++ cur ++ c :: rest)).
        -- rewrite !length_app. simpl. split.
           ++ intros [[HR ?]|[HR ?]]; (split; [done|lia]).
           ++ intros [HR Hge].
              destruct (decide (i <= length pre + length cur)%nat);
                [left | right]; (split; [done|lia]).
        -- by rewrite <- !app_assoc.
        -- rewrite !length_app. simpl. lia.
        -- rewrite !length_app. simpl. lia.
        -- split; [simpl; intros k Hk; lia|]. intros _.
           rewrite !length_app. simpl.
           replace (length pre + (length cur + 1) - 1)%nat
             with (length pre + length cur)%nat by lia.
           done.
Qed.

(** The matches of the regular expression are the maximal runs of token
    characters. *)
Lemma regexMatches_runs text i t : (i, t) ∈ regexMatches text <-> Run text i t.
Proof.
  unfold regexMatches.
  rewrite (execAll_runs text [] [] 0%nat 0%nat text); try done.
  - simpl. split; [by intros [? _] | intros; split; [done|lia]].
  - split; [simpl; intros k Hk; lia | done].
Qed.

(** The matches come in the order of their positions. *)
Lemma execAll_sorted s : forall pos start cur,
  (cur <> [] -> (start <= pos)%nat) ->
  StronglySorted lt (execAll pos start cur s).*1
  /\ Forall (fun i => ((if bool_decide (cur = []) then pos else start) <= i)%nat)
            (execAll pos start cur s).*1.
Proof.
  induction s as [|c rest IH]; intros pos start cur Hstart.
  - simpl. destruct cur as [|x cur]; simpl.
    + split; constructor.
    + split; repeat constructor.
  - assert (Hext : forall st,
               st = (if bool_decide (cur = []) then pos else start) ->
               StronglySorted lt (execAll (S pos) st (cur ++ [c]) rest).*1
               /\ Forall (fun i => ((if bool_decide (cur = []) then pos else start) <= i)%nat)
                         (execAll (S pos) st (cur ++ [c]) rest).*1).
    { intros st ->. destruct (IH (S pos)
        (if bool_decide (cur = []) then pos else start) (cur ++ [c])) as [H1 H2].
      - intros _. case_bool_decide; [lia|]. specialize (Hstart H). lia.
      - split; [done|].
        rewrite bool_decide_eq_false_2 in H2 by (by destruct cur). done. }
    simpl. destruct (isAlnum c).
    + apply Hext. by destruct cur.
    + destruct (_ && _ && _) eqn:Hj.
      * apply Hext. apply andb_prop in Hj as [Hj _]. apply andb_prop in Hj as [_ Hj].
        apply negb_true_iff in Hj. by rewrite Hj.
      * destruct (IH (S pos) (S pos) []) as [H1 H2]; [done|].
        rewrite bool_decide_eq_true_2 in H2 by done.
        rewrite fmap_app. destruct cur as [|x cur]; simpl.
        -- split; [done|]. eapply list.Forall_impl; [exact H2|]. simpl. lia.
        -- specialize (Hstart ltac:(done)). split.
           ++ constructor; [done|].
              eapply list.Forall_impl; [exact H2|]. simpl. lia.
           ++ constructor; [lia|].
              eapply list.Forall_impl; [exact H2|]. simpl. lia.
Qed.

Lemma regexMatches_sorted text : StronglySorted lt (regexMatches text).*1.
Proof. by apply execAll_sorted. Qed.

(** ** The shape of a token *)

Lemma occurs_lookup text i t k :
  occurs text i t -> (k < length t)%nat -> t !! k = text !! (i + k)%nat.
Proof.
  unfold occurs. intros E Hk. rewrite <- E at 1.
  rewrite lookup_take_lt by done. by rewrite lookup_drop.
Qed.

Lemma occurs_intro text i t :
  (forall k, (k < length t)%nat -> t !! k = text !! (i + k)%nat) ->
  occurs text i t.
Proof.
  unfold occurs. intros H. apply list_eq. intros k.
  destruct (decide (k < length t)%nat) as [Hk|Hk].
  - rewrite lookup_take_lt by done. rewrite lookup_drop. by rewrite H.
  - rewrite lookup_take_ge by lia. symmetry. apply lookup_ge_None. lia.
Qed.

Lemma TokenShape_ne t : TokenShape t -> t <> [].
Proof. destruct 1 as [r Hr _|t j r _ _ _ _]; [done | by destruct t]. Qed.

Lemma allAlnum_lookup r k c : allAlnum r -> r !! k = Some c -> isAlnum c = true.
Proof.
  unfold allAlnum. rewrite forallb_forall. intros H Hk. apply H.
  apply list_elem_of_In. by eapply list_elem_of_lookup_2.
Qed.

Lemma allAlnum_app a b : allAlnum (a ++ b) <-> allAlnum a /\ allAlnum b.
Proof. unfold allAlnum. rewrite forallb_app. apply andb_true_iff. Qed.

Lemma TokenShape_last t : TokenShape t -> optIs isAlnum (list.last t) = true.
Proof.
  assert (H : forall r, r <> [] -> allAlnum r -> optIs isAlnum (list.last r) = true).
  { intros r Hne Hr. destruct r as [|x r] using rev_ind; [done|].
    rewrite last_snoc. simpl. apply allAlnum_app in Hr as [_ Hr].
    unfold allAlnum in Hr. simpl in Hr. by rewrite andb_true_r in Hr. }
  destruct 1 as [r Hne Hr|t j r _ _ Hne Hr]; [by apply H|].
  rewrite last_app_cons. destruct r as [|x r]; [done|].
  change (list.last (j :: x :: r)) with (list.last (x :: r)). by apply H.
Qed.

Lemma TokenShape_snoc t c : TokenShape t -> isAlnum c = true -> TokenShape (t ++ [c]).
Proof.
  assert (H : forall r, allAlnum r -> isAlnum c = true -> allAlnum (r ++ [c])).
  { intros r Hr Hc. apply allAlnum_app. split; [done|].
    unfold allAlnum. simpl. by rewrite Hc. }
  destruct 1 as [r Hne Hr|t j r Ht Hj Hne Hr]; intros Hc.
  - apply shape_run; [by destruct r | by apply H].
  - rewrite <- app_assoc. simpl. apply shape_join; [done|done|by destruct r|by apply H].
Qed.

Lemma TokenShape_cons t c : TokenShape t -> isAlnum c = true -> TokenShape (c :: t).
Proof.
  induction 1 as [r Hne Hr|t j r Ht IH Hj Hne Hr]; intros Hc.
  - apply shape_run; [done|]. unfold allAlnum in *. simpl. by rewrite Hc.
  - change (c :: t ++ j :: r) with ((c :: t) ++ j :: r).
    apply shape_join; auto.
Qed.

Lemma TokenShape_cons_joiner t a j :
  TokenShape t -> isAlnum a = true -> isJoiner j = true -> TokenShape (a :: j :: t).
Proof.
  assert (Ha : isAlnum a = true -> TokenShape [a]).
  { intros H. apply shape_run; [done|]. unfold allAlnum. simpl. by rewrite H. }
  induction 1 as [r Hne Hr|t j' r Ht IH Hj' Hne Hr]; intros Hc Hj.
  - apply (shape_join [a] j r); auto.
  - change (a :: j :: t ++ j' :: r) with ((a :: j :: t) ++ j' :: r).
    apply shape_join; auto.
Qed.

(** Inside a token every character is a token character of the token
    itself, and conversely. *)
Lemma TokenShape_tokAt t :
  TokenShape t -> forall k, (k < length t)%nat -> tokAt t k = true.
Proof.
  induction 1 as [r Hne Hr|t j r Ht IH Hj Hne Hr]; intros k Hk.
  - unfold tokAt. destruct (lookup_lt_is_Some_2 r k Hk) as [c Hc].
    rewrite Hc. by rewrite (allAlnum_lookup r k c Hr Hc).
  - rewrite length_app in Hk. simpl in Hk. unfold tokAt.
    destruct (Nat.lt_trichotomy k (length t)) as [Hlt|[->|Hgt]].
    + (* inside [t] *)
      specialize (IH k Hlt). unfold tokAt in IH.
      rewrite lookup_app_l by done.
      destruct (t !! k) as [c|] eqn:Hc; [|done].
      destruct (isAlnum c); [done|]. simpl in *.
      apply andb_prop in IH as [IH Hn]. apply andb_prop in IH as [-> Hb].
      simpl.
      assert (before (t ++ j :: r) k = before t k) as ->.
      { destruct k as [|k]; [done|]. simpl. apply lookup_app_l. lia. }
      rewrite Hb. simpl.
      destruct (t !! S k) as [d|] eqn:Hd; [|done].
      by rewrite (lookup_app_l_Some _ _ _ _ Hd).
    + (* the joiner *)
      rewrite list_lookup_middle by done. rewrite Hj.
      rewrite before_app_last, (TokenShape_last t Ht).
      replace (S (length t)) with (length t + 1)%nat by lia.
      rewrite lookup_app_r by lia.
      replace (length t + 1 - length t)%nat with 1%nat by lia. simpl.
      destruct r as [|x r]; [done|]. simpl.
      unfold allAlnum in Hr. simpl in Hr. apply andb_prop in Hr as [-> _].
      apply orb_true_r.
    + (* inside [r] *)
      rewrite lookup_app_r by lia.
      destruct (k - length t)%nat as [|m] eqn:E; [lia|]. simpl.
      destruct (r !! m) as [c|] eqn:Hc.
      * by rewrite (allAlnum_lookup r m c Hr Hc).
      * apply lookup_ge_None in Hc. lia.
Qed.

Lemma tokAt_TokenShape : forall n t,
  (length t <= n)%nat -> t <> [] ->
  (forall k, (k < length t)%nat -> tokAt t k = true) ->
  TokenShape t.
Proof.
  induction n as [|n IH]; intros t Hn Hne Htok.
  { destruct t; [done | simpl in Hn; lia]. }
  destruct t as [|c t0] using rev_ind; [done|]. clear IHt0.
  rewrite length_app in Hn. simpl in Hn.
  (* the last character is alphanumeric *)
  assert (Hc : isAlnum c = true).
  { specialize (Htok (length t0)). rewrite length_app in Htok. simpl in Htok.
    specialize (Htok ltac:(lia)). unfold tokAt in Htok.
    rewrite list_lookup_middle in Htok by done.
    replace (S (length t0)) with (length t0 + 1)%nat in Htok by lia.
    rewrite lookup_app_r in Htok by lia.
    replace (length t0 + 1 - length t0)%nat with 1%nat in Htok by lia.
    simpl in Htok. rewrite andb_false_r in Htok. by rewrite orb_false_r in Htok. }
  (* a prefix that ends in an alphanumeric inherits the hypothesis *)
  assert (Hpre : forall p q d,
             t0 ++ [c] = p ++ d :: q -> isAlnum d = true ->
             forall k, (k < length (p ++ [d]))%nat -> tokAt (p ++ [d]) k = true).
  { intros p q d E Hd k Hk. rewrite length_app in Hk. simpl in Hk.
    specialize (Htok k). rewrite E, length_app in Htok. simpl in Htok.
    specialize (Htok ltac:(lia)). unfold tokAt in *.
    replace (p ++ d :: q) with ((p ++ [d]) ++ q) in Htok
      by (by rewrite <- app_assoc).
    rewrite lookup_app_l in Htok by (rewrite length_app; simpl; lia).
    destruct ((p ++ [d]) !! k) as [x|] eqn:Hx; [|done].
    destruct (isAlnum x) eqn:Hax; [done|]. simpl in *.
    apply andb_prop in Htok as [Htok Hnext].
    apply andb_prop in Htok as [-> Hbef]. simpl.
    assert (k < length p)%nat as Hlt.
    { destruct (decide (k = length p)) as [->|]; [|lia].
      rewrite list_lookup_middle in Hx by done. congruence. }
    assert (before ((p ++ [d]) ++ q) k = before (p ++ [d]) k) as Hb.
    { destruct k as [|k]; [done|]. simpl. apply lookup_app_l.
      rewrite length_app. simpl. lia. }
    rewrite Hb in Hbef. rewrite Hbef. simpl.
    rewrite lookup_app_l in Hnext by (rewrite length_app; simpl; lia). done. }
  destruct t0 as [|d t1] using rev_ind; [|clear IHt1].
  { apply shape_run; [done|]. unfold allAlnum. simpl. by rewrite Hc. }
  rewrite length_app in Hn. simpl in Hn.
  destruct (isAlnum d) eqn:Hd.
  - (* the run goes on to the left *)
    apply TokenShape_snoc; [|done]. apply IH.
    + rewrite length_app. simpl. lia.
    + by destruct t1.
    + apply (Hpre t1 [c] d); [by rewrite <- app_assoc | done].
  - (* a joiner: a shorter token before it *)
    assert (Hj : tokAt ((t1 ++ [d]) ++ [c]) (length t1) = true).
    { apply Htok. rewrite !length_app. simpl. lia. }
    unfold tokAt in Hj. rewrite <- app_assoc in Hj. simpl in Hj.
    rewrite list_lookup_middle in Hj by done. rewrite Hd in Hj. simpl in Hj.
    apply andb_prop in Hj as [Hj _]. apply andb_prop in Hj as [Hj Hb].
    rewrite before_app_last in Hb.
    destruct t1 as [|e t2] using rev_ind; [done|]. clear IHt2.
    rewrite last_snoc in Hb. simpl in Hb.
    rewrite <- !app_assoc. simpl.
    replace (t2 ++ e :: d :: [c]) with ((t2 ++ [e]) ++ d :: [c])
      by (by rewrite <- app_assoc).
    apply shape_join; [|done|done|by unfold allAlnum; simpl; rewrite Hc].
    apply IH.
    + rewrite !length_app in Hn. rewrite length_app. simpl in *. lia.
    + by destruct t2.
    + apply (Hpre t2 [d; c] e); [by rewrite <- !app_assoc | done].
Qed.

Lemma occurs_before text i t k :
  occurs text i t -> (0 < k < length t)%nat -> before t k = before text (i + k).
Proof.
  intros Ho Hk. destruct k as [|k]; [lia|].
  rewrite Nat.add_succ_r. simpl. apply occurs_lookup; [done|lia].
Qed.

Lemma tokAt_occurs text i t k :
  occurs text i t -> (k < length t)%nat ->
  tokAt t k = true -> tokAt text (i + k) = true.
Proof.
  intros Ho Hk. unfold tokAt.
  rewrite <- (occurs_lookup text i t k Ho Hk).
  destruct (t !! k) as [c|]; [|done].
  destruct (isAlnum c); [done|]. simpl.
  intros H. apply andb_prop in H as [H Hn]. apply andb_prop in H as [-> Hb].
  simpl. apply andb_true_intro. split.
  - destruct k as [|k]; [done|].
    by rewrite <- (occurs_before text i t (S k) Ho) by lia.
  - destruct (t !! S k) as [d|] eqn:Hd; [|done].
    assert (S k < length t)%nat by (by eapply lookup_lt_Some).
    rewrite <- Nat.add_succ_r. by rewrite <- (occurs_lookup text i t (S k) Ho), Hd.
Qed.

Lemma tokAt_within text i t :
  occurs text i t ->
  optIs isAlnum (head t) = true -> optIs isAlnum (list.last t) = true ->
  (forall k, (k < length t)%nat -> tokAt text (i + k) = true) ->
  forall k, (k < length t)%nat -> tokAt t k = true.
Proof.
  intros Ho Hh Hl Htok k Hk. specialize (Htok k Hk). unfold tokAt in *.
  rewrite <- (occurs_lookup text i t k Ho Hk) in Htok.
  destruct (t !! k) as [c|] eqn:Hc; [|done].
  destruct (isAlnum c) eqn:Ha; [done|]. simpl in *.
  apply andb_prop in Htok as [H Hn]. apply andb_prop in H as [-> Hb]. simpl.
  assert (0 < k)%nat as Hk0.
  { destruct k; [|lia]. destruct t; simpl in *; congruence. }
  assert (S k < length t)%nat as Hk1.
  { destruct (decide (S k = length t)) as [E|]; [|lia]. exfalso.
    destruct t as [|x t] using rev_ind; [done|].
    rewrite length_app in E. simpl in E.
    rewrite last_snoc in Hl. simpl in Hl.
    rewrite list_lookup_middle in Hc by lia. congruence. }
  rewrite (occurs_before text i t k Ho) by lia. rewrite Hb. simpl.
  rewrite (occurs_lookup text i t (S k) Ho Hk1).
  by rewrite Nat.add_succ_r.
Qed.

Lemma occurs_cons text i t d :
  text !! i = Some d -> occurs text (S i) t -> occurs text i (d :: t).
Proof.
  intros Hd Ho. apply occurs_intro. intros [|k] Hk; simpl in *.
  - by rewrite Nat.add_0_r.
  - rewrite (occurs_lookup text (S i) t k Ho) by lia. f_equal. lia.
Qed.

Lemma occurs_snoc text i t d :
  text !! (i + length t)%nat = Some d -> occurs text i t -> occurs text i (t ++ [d]).
Proof.
  intros Hd Ho. apply occurs_intro. intros k Hk.
  rewrite length_app in Hk. simpl in Hk.
  destruct (decide (k = length t)) as [->|].
  - by rewrite list_lookup_middle.
  - rewrite lookup_app_l by lia. apply occurs_lookup; [done|lia].
Qed.

Lemma Run_first_alnum text i t : Run text i t -> optIs isAlnum (head t) = true.
Proof.
  intros [Hne Ho Htok Hl Hr].
  destruct t as [|c t]; [done|]. simpl.
  pose proof (Htok i ltac:(simpl; lia)) as Hi. unfold tokAt in Hi.
  pose proof (occurs_lookup text i (c :: t) 0 Ho ltac:(simpl; lia)) as Hc.
  rewrite Nat.add_0_r in Hc. simpl in Hc. rewrite <- Hc in Hi.
  destruct (isAlnum c) eqn:Ha; [done|]. simpl in Hi.
  apply andb_prop in Hi as [Hi _]. apply andb_prop in Hi as [_ Hb].
  destruct i as [|i]; [done|]. simpl in Hb.
  specialize (Hl ltac:(lia)). replace (S i - 1)%nat with i in Hl by lia.
  unfold tokAt in Hl. destruct (text !! i) as [d|]; [|done]. simpl in Hb.
  by rewrite Hb in Hl.
Qed.

Lemma Run_last_alnum text i t : Run text i t -> optIs isAlnum (list.last t) = true.
Proof.
  intros [Hne Ho Htok Hl Hr].
  destruct t as [|c t] using rev_ind; [done|]. rewrite last_snoc. simpl.
  rewrite length_app in Htok, Hr. simpl in Htok, Hr.
  pose proof (Htok (i + length t)%nat ltac:(lia)) as Hi. unfold tokAt in Hi.
  pose proof (occurs_lookup text i (t ++ [c]) (length t) Ho) as Hc.
  rewrite length_app in Hc. simpl in Hc. specialize (Hc ltac:(lia)).
  rewrite list_lookup_middle in Hc by done. rewrite <- Hc in Hi.
  destruct (isAlnum c) eqn:Ha; [done|]. simpl in Hi.
  apply andb_prop in Hi as [_ Hn].
  replace (i + (length t + 1))%nat with (S (i + length t)) in Hr by lia.
  unfold tokAt in Hr. destruct (text !! S (i + length t)) as [d|]; [|done].
  simpl in Hn. by rewrite Hn in Hr.
Qed.

(** The maximal runs of token characters are the maximal matches of the
    token pattern. *)
Lemma Run_MaximalMatch text i t : Run text i t <-> MaximalMatch TokenShape text i t.
Proof.
  split.
  - intros HR. pose proof HR as [Hne Ho Htok Hl Hr].
    assert (Hshape : TokenShape t).
    { apply (tokAt_TokenShape (length t)); [lia|done|].
      apply (tokAt_within text i t Ho);
        [by eapply Run_first_alnum | by eapply Run_last_alnum|].
      intros k Hk. apply Htok. lia. }
    split; [done|]. split; [done|].
    intros i' t' Hs' Ho' Hle Hend.
    assert (Htok' : forall k, (i' <= k < i' + length t')%nat -> tokAt text k = true).
    { intros k Hk. replace k with (i' + (k - i'))%nat by lia.
      apply (tokAt_occurs text i' t'); [done|lia|].
      apply TokenShape_tokAt; [done|lia]. }
    assert (0 < length t)%nat by (destruct t; [done | simpl; lia]).
    assert (i' = i) as ->.
    { destruct (decide (i' = i)) as [|Hn]; [done|]. exfalso.
      rewrite Htok' in Hl; [by specialize (Hl ltac:(lia))|lia]. }
    split; [done|].
    assert (length t' = length t) as Hlen.
    { destruct (decide (length t' = length t)) as [|Hn]; [done|]. exfalso.
      rewrite Htok' in Hr; [done|lia]. }
    by eapply occurs_inj.
  - intros (Hs & Ho & Hmax).
    pose proof (TokenShape_ne t Hs) as Hne.
    assert (0 < length t)%nat by (destruct t; [done | simpl; lia]).
    split; [done|done| | |].
    + intros k Hk. replace k with (i + (k - i))%nat by lia.
      apply (tokAt_occurs text i t); [done|lia|].
      apply TokenShape_tokAt; [done|lia].
    + (* a token character on the left would extend the match *)
      intros Hi. destruct i as [|i]; [lia|].
      replace (S i - 1)%nat with i by lia.
      destruct (tokAt text i) eqn:Ht; [exfalso|done].
      unfold tokAt in Ht. destruct (text !! i) as [d|] eqn:Hd; [|done].
      destruct (isAlnum d) eqn:Ha.
      * destruct (Hmax i (d :: t)) as [E _]; [by apply TokenShape_cons
          |by apply occurs_cons|lia|simpl; lia|lia].
      * simpl in Ht. apply andb_prop in Ht as [Ht _].
        apply andb_prop in Ht as [Hj Hb].
        destruct i as [|i]; [done|]. simpl in Hb.
        destruct (text !! i) as [a|] eqn:Hai; [|done]. simpl in Hb.
        destruct (Hmax i (a :: d :: t)) as [E _];
          [by apply TokenShape_cons_joiner
          |by apply occurs_cons; [|apply occurs_cons]|lia|simpl; lia|lia].
    + (* and so would one on the right *)
      destruct (tokAt text (i + length t)) eqn:Ht; [exfalso|done].
      unfold tokAt in Ht.
      destruct (text !! (i + length t)%nat) as [d|] eqn:Hd; [|done].
      destruct (isAlnum d) eqn:Ha.
      * destruct (Hmax i (t ++ [d])) as [_ E];
          [by apply TokenShape_snoc|by apply occurs_snoc|lia
          |rewrite length_app; simpl; lia|].
        apply (f_equal length) in E. rewrite length_app in E. simpl in E. lia.
      * simpl in Ht. apply andb_prop in Ht as [Ht Hn].
        apply andb_prop in Ht as [Hj _].
        destruct (text !! S (i + length t)) as [a|] eqn:Hai; [|done].
        simpl in Hn.
        destruct (Hmax i (t ++ d :: [a])) as [_ E].
        -- apply shape_join; [done|done|done|].
           unfold allAlnum. simpl. by rewrite Hn.
        -- replace (t ++ [d; a]) with ((t ++ [d]) ++ [a])
             by (by rewrite <- app_assoc).
           apply occurs_snoc; [|by apply occurs_snoc].
           rewrite length_app. simpl.
           replace (i + (length t + 1))%nat with (S (i + length t)) by lia. done.
        -- lia.
        -- rewrite length_app. simpl. lia.
        -- apply (f_equal length) in E. rewrite length_app in E. simpl in E. lia.
Qed.

Lemma alnum_not_space c : isAlnum c = true -> isWhiteSpace c = false.
Proof.
  unfold isAlnum, isWhiteSpace. intros H.
  rewrite !orb_true_iff, !andb_true_iff, !N.leb_le in H.
  apply not_true_iff_false. intros Hw.
  rewrite !orb_true_iff, !andb_true_iff, !N.leb_le, !N.eqb_eq in Hw. lia.
Qed.

Lemma joiner_not_space c : isJoiner c = true -> isWhiteSpace c = false.
Proof.
  unfold isJoiner, isWhiteSpace. intros H.
  rewrite !orb_true_iff, !N.eqb_eq in H.
  apply not_true_iff_false. intros Hw.
  rewrite !orb_true_iff, !andb_true_iff, !N.leb_le, !N.eqb_eq in Hw. lia.
Qed.

Lemma allAlnum_no_space r : allAlnum r -> Forall (fun c => isWhiteSpace c = false) r.
Proof.
  unfold allAlnum. induction r as [|c r IH]; simpl; [constructor|].
  intros H. apply andb_prop in H as [Hc Hr].
  constructor; [by apply alnum_not_space | auto].
Qed.

Lemma TokenShape_no_space t :
  TokenShape t -> Forall (fun c => isWhiteSpace c = false) t.
Proof.
  induction 1 as [r Hne Hr|t j r Ht IH Hj Hne Hr].
  - by apply allAlnum_no_space.
  - apply list.Forall_app. split; [done|].
    constructor; [by apply joiner_not_space | by apply allAlnum_no_space].
Qed.

(** [C4], as amended.  [defaultTokenize] normalizes and then returns, in
    the order of their positions, exactly the maximal parts of the
    normalized text that match "runs of one or more alphanumerics, every
    two consecutive runs joined by one hyphen or apostrophe" (any number
    of joins); it is a total function and no token is empty or contains
    white space. *)
Theorem defaultTokenize_maximal_matches (h : Host) (s : jsstring) :
  exists matches : list (nat * jsstring),
    defaultTokenize h s = matches.*2
    /\ StronglySorted lt matches.*1
    /\ (forall i t,
           (i, t) ∈ matches
           <-> MaximalMatch TokenShape (defaultNormalize h s) i t)
    /\ Forall (fun t => t <> [] /\ Forall (fun c => isWhiteSpace c = false) t)
              (defaultTokenize h s).
Proof.
  exists (regexMatches (defaultNormalize h s)).
  assert (Hspec : forall i t,
             (i, t) ∈ regexMatches (defaultNormalize h s)
             <-> MaximalMatch TokenShape (defaultNormalize h s) i t).
  { intros i t. by rewrite regexMatches_runs, Run_MaximalMatch. }
  split; [done|]. split; [apply regexMatches_sorted|]. split; [done|].
  unfold defaultTokenize. apply list.Forall_forall. intros t Ht.
  change (List.map snd ?l) with (l.*2) in Ht.
  apply list_elem_of_fmap in Ht as ([i t'] & -> & Hin). simpl.
  apply Hspec in Hin as [Hs _].
  split; [by apply TokenShape_ne | by apply TokenShape_no_space].
Qed.

(** [C4] as stated fails: "a-b-c" is one token, with two joiners, and
    does not match "a run, optionally a single joiner and one more
    run". *)
Lemma defaultTokenize_two_joiners :
  defaultTokenize UnicodeFragment.host (lit "a-b-c") = [lit "a-b-c"]
  /\ ~ SingleJoinShape (lit "a-b-c").
Proof.
  split; [reflexivity|].
  intros [[_ H]|(r1 & j & r2 & E & Hne & H1 & Hj & Hne2 & H2)].
  - discriminate H.
  - destruct r1 as [|a r1]; [done|]. injection E as <- E.
    destruct r1 as [|b r1].
    + injection E as <- <-. discriminate H2.
    + injection E as <- E. discriminate H1.
Qed.

(** ** The balanced path: a quoted span leaves no gap

    Inputs are described as a sequence of segments: text without quote
    characters, and quoted spans. *)


























(** Nor do two alphanumerics that become adjacent always stay so: the
    tokenizer normalizes the remainder first.  In the input made of a,
    the quoted x, b and U+0307, the remainder is a, b, U+0307; NFKC
    composes b and U+0307 into U+1E03, which is no ASCII letter or
    digit, and the only token is a. *)
Lemma quoted_span_composition_not_fused :
  let input :=
    lit "a" ++ QUOTE :: lit "x" ++ QUOTE
      :: lit "b" ++ [CompositionFragment.DOT_ABOVE] in
  let remainder := lit "ab" ++ [CompositionFragment.DOT_ABOVE] in
  Constructed CompositionFragment.host composingBuilder
  /\ SearchQueryBuilder.analyzeQuotes input = Some (true, [lit "x"], remainder)
  /\ defaultNormalize CompositionFragment.host remainder
     = lit "a" ++ [CompositionFragment.B_DOT_ABOVE]
  /\ isAlnum CompositionFragment.B_DOT_ABOVE = false
  /\ exists pq,
       SearchQueryBuilder.prepare CompositionFragment.host composingBuilder input
       = Some pq
       /\ cleanedTokens pq = [lit "a"].
Proof.
  split; [exists plainOptions; split; reflexivity|].
  split; [reflexivity|]. split; [reflexivity|]. split; [reflexivity|].
  eexists. split; reflexivity.
Qed.

(** ** [build]: the failure links and the outputs

    The classical invariants of the Aho-Corasick construction, for the
    breadth-first search of [build]. *)

Lemma suffix_shorter {A} (a b X : list A) :
  a `suffix_of` X -> b `suffix_of` X -> (length a <= length b)%nat ->
  a `suffix_of` b.
Proof.
  intros Ha Hb Hlen.
  destruct (suffix_weak_total a b X Ha Hb) as [H|H]; [done|].
  rewrite (suffix_length_eq _ _ H Hlen). done.
Qed.

Lemma suffix_snoc_cases {A} (q' X : list A) k :
  q' `suffix_of` X ++ [k] ->
  q' = [] \/ exists q, q' = q ++ [k] /\ q `suffix_of` X.
Proof.
  intros H. destruct q' as [|x q'] using rev_ind; [by left|]. right.
  pose proof (suffix_snoc_inv_1 _ _ _ _ H) as ->.
  apply suffix_snoc_inv_2 in H. eauto.
Qed.

Lemma goto_exit ac paths k X j :
  WF ac paths ->
  j = 0%nat \/ is_Some (getProp (TokenAC.nextAt ac j) k) ->
  Cand paths X k j ->
  LongestSuffixNode paths (X ++ [k])
    (default 0%nat (getProp (TokenAC.nextAt ac j) k)).
Proof.
  intros W Hexit (p & Hp & Hsuf & Hmax). pose proof (wf_trie _ _ W) as T.
  pose proof (trie_lt T _ _ Hp) as Hj.
  pose proof (nextAt_is_lookup _ _ _ W Hj) as Hjo.
  destruct (getProp (TokenAC.nextAt ac j) k) as [u|] eqn:Hk; simpl.
  - destruct (ti_edge _ _ T _ _ _ _ Hjo Hk) as (p' & Hp' & Hu).
    assert (p' = p) as -> by congruence.
    exists (p ++ [k]). split; [done|]. split; [by apply suffix_app|].
    intros q' w' Hq' Hw'.
    destruct (suffix_snoc_cases _ _ _ Hq') as [->|(q & -> & Hq)]; [simpl; lia|].
    destruct (ti_parent _ _ T _ _ _ Hw') as [w Hw].
    pose proof (Hmax q w w' Hq Hw Hw'). rewrite !length_app. simpl. lia.
  - destruct Hexit as [->|[? ?]]; [|done].
    exists []. split; [apply T|]. split; [apply suffix_nil|].
    intros q' w' Hq' Hw'.
    destruct (suffix_snoc_cases _ _ _ Hq') as [->|(q & -> & Hq)]; [simpl; lia|].
    exfalso.
    destruct (ti_parent _ _ T _ _ _ Hw') as [w Hw].
    pose proof (Hmax q w w' Hq Hw Hw') as Hlen.
    assert (p = []) as -> by (pose proof (ti_root _ _ T); congruence).
    destruct q; [|simpl in Hlen; lia].
    pose proof (trie_inj T _ _ _ Hw (ti_root _ _ T)) as ->.
    pose proof (ti_node _ _ T _ _ _ _ Hw Hw') as Hn.
    unfold TokenAC.nextAt in Hk. congruence.
Qed.

Lemma Cand_fail ac paths k X j :
  WF ac paths ->
  (0 < j)%nat -> getProp (TokenAC.nextAt ac j) k = None ->
  FailOK ac paths j ->
  Cand paths X k j -> Cand paths X k (TokenAC.failAt ac j).
Proof.
  intros W Hj0 Hk HF (p & Hp & Hsuf & Hmax). pose proof (wf_trie _ _ W) as T.
  destruct (HF p Hp) as (q0 & Hq0 & Hsuf0 & Hmax0).
  assert (Htl : tail p `suffix_of` p).
  { destruct p; simpl; [done|]. by apply suffix_cons_r. }
  exists q0. split; [done|]. split; [by repeat (etrans; [eassumption|])|].
  intros q w w' Hq Hw Hw'.
  pose proof (Hmax q w w' Hq Hw Hw') as Hlen.
  pose proof (suffix_shorter _ _ _ Hq Hsuf Hlen) as Hqp.
  apply (Hmax0 q w); [|done].
  destruct p as [|x p]; simpl.
  { apply suffix_nil_inv in Hqp as ->. done. }
  destruct q as [|y q]; [apply suffix_nil|].
  apply suffix_cons_inv in Hqp as [Heq|Hqp]; [|done].
  exfalso. rewrite Heq in Hw, Hw'. pose proof (trie_inj T _ _ _ Hw Hp) as ->.
  pose proof (ti_node _ _ T _ _ _ _ Hp Hw') as Hn.
  unfold TokenAC.nextAt in Hk. congruence.
Qed.

Lemma goto_correct ac paths k X :
  WF ac paths ->
  forall fuel j j',
    (forall w, (0 < w < length (TokenAC.next ac))%nat ->
               (depth paths w <= depth paths j)%nat -> FailOK ac paths w) ->
    Cand paths X k j ->
    TokenAC.followFail fuel ac j k = Some j' ->
    LongestSuffixNode paths (X ++ [k])
      (default 0%nat (getProp (TokenAC.nextAt ac j') k)).
Proof.
  intros W. pose proof (wf_trie _ _ W) as T.
  assert (Hstep : forall j,
    ((j =? 0)%nat || isSome (getProp (TokenAC.nextAt ac j) k) = true ->
     j = 0%nat \/ is_Some (getProp (TokenAC.nextAt ac j) k))
    /\ ((j =? 0)%nat || isSome (getProp (TokenAC.nextAt ac j) k) = false ->
        (0 < j)%nat /\ getProp (TokenAC.nextAt ac j) k = None)).
  { intros j. destruct (Nat.eqb_spec j 0) as [->|Hne]; simpl.
    - split; [by left | done].
    - destruct (getProp _ k) eqn:E; simpl; split; try done.
      + intros _. right. eauto.
      + intros _. split; [lia | done]. }
  induction fuel as [|fuel IH]; intros j j' HF HC E; simpl in E;
    destruct (Hstep j) as [Hexit Hgo];
    destruct ((j =? 0)%nat || isSome (getProp (TokenAC.nextAt ac j) k)) eqn:C;
    try discriminate.
  - injection E as <-. apply goto_exit; auto.
  - injection E as <-. apply goto_exit; auto.
  - destruct (Hgo eq_refl) as [Hj0 Hk].
    assert (Hjlt : (j < length (TokenAC.next ac))%nat).
    { destruct HC as (p & Hp & _). by eapply trie_lt. }
    destruct (wf_fail _ _ W j) as [Hf Hdf]; [lia|].
    apply (IH (TokenAC.failAt ac j)); [|by apply Cand_fail; auto|done].
    intros w Hw Hd. apply HF; [done | lia].
Qed.

Lemma failAt_setFail ac u f w :
  (u < length (TokenAC.fail ac))%nat ->
  TokenAC.failAt (TokenAC.setFail ac u f) w
  = if decide (w = u) then f else TokenAC.failAt ac w.
Proof.
  intros Hu. unfold TokenAC.failAt. simpl. destruct (decide (w = u)) as [->|Hne].
  - by rewrite list_lookup_insert_eq.
  - by rewrite list_lookup_insert_ne.
Qed.

Lemma outAt_setOut ac v o w :
  (v < length (TokenAC.out ac))%nat ->
  TokenAC.outAt (TokenAC.setOut ac v o) w
  = if decide (w = v) then o else TokenAC.outAt ac w.
Proof.
  intros Hv. unfold TokenAC.outAt. simpl. destruct (decide (w = v)) as [->|Hne].
  - by rewrite list_lookup_insert_eq.
  - by rewrite list_lookup_insert_ne.
Qed.

Lemma FailOK_same ac ac' paths u :
  TokenAC.failAt ac' u = TokenAC.failAt ac u ->
  FailOK ac paths u -> FailOK ac' paths u.
Proof. intros E H p Hp. rewrite E. by apply H. Qed.

Lemma path_snoc nx paths w p :
  TrieInv nx paths -> (0 < w)%nat -> paths !! w = Some p ->
  exists q k v, p = q ++ [k] /\ paths !! v = Some q
                /\ getProp (default [] (nx !! v)) k = Some w.
Proof.
  intros T Hw Hp. destruct p as [|k q _] using rev_ind.
  - pose proof (trie_inj T _ _ _ Hp (ti_root _ _ T)). lia.
  - destruct (ti_parent _ _ T _ _ _ Hp) as [v Hv].
    exists q, k, v. split; [done|]. split; [done|].
    by eapply ti_node.
Qed.

Lemma depth_lookup paths v p : paths !! v = Some p -> depth paths v = length p.
Proof. unfold depth. by intros ->. Qed.

(** Breadth-first order: when [v] is at the head of the queue, every
    state nearer the root has left the queue. *)
Lemma bfs_level ac paths seqs visited v q' :
  BfsInv ac paths seqs visited (v :: q') ->
  forall d w, depth paths w = d ->
    (0 < w < length (TokenAC.next ac))%nat ->
    (d < depth paths v)%nat -> w ∈ visited.
Proof.
  intros B. pose proof (bi_wf _ _ _ _ _ B) as W. pose proof (wf_trie _ _ W) as T.
  induction d as [d IH] using lt_wf_ind. intros w Hd [Hw0 Hwlt] Hlt.
  destruct (trie_path T w Hwlt) as [p Hp].
  destruct (path_snoc _ _ _ _ T Hw0 Hp) as (q & k & pw & -> & Hpw & Hedge).
  pose proof (depth_lookup _ _ _ Hp) as Hdw.
  rewrite Hdw, length_app in Hd. rewrite length_app in Hdw. simpl in Hd, Hdw.
  assert (Hin : w ∈ visited ++ v :: q').
  { destruct (decide (pw = 0%nat)) as [->|Hne].
    - by eapply (bi_root _ _ _ _ _ B).
    - eapply (bi_children _ _ _ _ _ B); [|exact Hedge].
      apply (IH (length q)); [lia | by apply depth_lookup | | lia].
      split; [lia | by eapply trie_lt]. }
  apply elem_of_app in Hin as [Hin|Hin]; [done|]. exfalso.
  apply list_elem_of_lookup in Hin as [i Hi].
  assert (depth paths v <= depth paths w)%nat; [|lia].
  apply (bi_sorted _ _ _ _ _ B (length visited) (length visited + i)); [| |lia].
  - by rewrite lookup_app_r, Nat.sub_diag by lia.
  - rewrite lookup_app_r by lia. by replace (length visited + i - length visited)%nat with i by lia.
Qed.

Lemma OutFull_root ac paths seqs visited q :
  BfsInv ac paths seqs visited q -> Registered paths seqs ->
  OutFull ac paths seqs 0.
Proof.
  intros B R p pid Hp.
  pose proof (wf_trie _ _ (bi_wf _ _ _ _ _ B)) as T.
  assert (p = []) as -> by (pose proof (ti_root _ _ T); congruence).
  assert (H0 : 0%nat ∉ visited).
  { intros Hin. destruct (bi_q _ _ _ _ _ B) as [_ Hq].
    destruct (Hq 0%nat) as [? _]; [apply elem_of_app; by left | lia]. }
  rewrite (bi_out_todo _ _ _ _ _ B 0%nat pid H0). split.
  - intros (s & Hs & Hps). exists s. split; [done|].
    assert (s = []) as -> by congruence. done.
  - intros (s & Hs & Hsuf). apply suffix_nil_inv in Hsuf as ->.
    exfalso. eapply (reg_ne _ _ R); [|done]. by eapply list_elem_of_lookup_2.
Qed.

Lemma LongestSuffixNode_Cand paths X k j :
  LongestSuffixNode paths X j -> Cand paths X k j.
Proof.
  intros (p & Hp & Hsuf & Hmax). exists p. split; [done|]. split; [done|].
  intros q w w' Hq Hw _. by eapply Hmax.
Qed.

Lemma tail_snoc {A} (p : list A) k : p <> [] -> tail (p ++ [k]) = tail p ++ [k].
Proof. by destruct p. Qed.

Lemma childSteps_correct paths v o pv :
  (0 < v)%nat -> paths !! v = Some pv ->
  forall ks, (forall k, k ∈ ks -> k ∈ o.*1) ->
  forall ac q, WF ac paths -> TokenAC.next ac !! v = Some o ->
    (forall w, (0 < w < length (TokenAC.next ac))%nat ->
               (depth paths w <= depth paths v)%nat -> FailOK ac paths w) ->
  exists ac',
    foldl (TokenAC.childStep v) (Some (ac, q)) ks
    = Some (ac', q ++ List.map (fun k => default 0%nat (getProp o k)) ks)
    /\ WF ac' paths /\ TokenAC.next ac' = TokenAC.next ac
    /\ TokenAC.phrases ac' = TokenAC.phrases ac
    /\ TokenAC.pLens ac' = TokenAC.pLens ac
    /\ TokenAC.out ac' = TokenAC.out ac
    /\ (forall w, w ∉ List.map (fun k => default 0%nat (getProp o k)) ks ->
          TokenAC.failAt ac' w = TokenAC.failAt ac w)
    /\ (forall u, u ∈ List.map (fun k => default 0%nat (getProp o k)) ks ->
          FailOK ac' paths u).
Proof.
  intros Hv0 Hpv. induction ks as [|k ks IH]; intros Hks ac q W Ho HF; simpl.
  - exists ac. rewrite app_nil_r. repeat (split; [done|]).
    intros u Hu. by apply elem_of_nil in Hu.
  - pose proof (wf_trie _ _ W) as T.
    assert (Hvlt : (v < length (TokenAC.next ac))%nat) by (by eapply lookup_lt_Some).
    rewrite (nextAt_lookup _ _ _ Ho).
    destruct (getProp_is_Some o k) as [u Hu]; [apply Hks; left|].
    rewrite Hu. simpl.
    destruct (wf_fail _ _ W v) as [Hf Hdf]; [lia|].
    destruct (followFail_enough ac paths k _ W Hf) as (j & E & Hj & Hdj).
    rewrite E.
    pose proof (depth_child T _ _ _ _ Ho Hu) as Hdu.
    destruct (trie_child_lt T _ _ _ _ Ho Hu) as [Hu0 Hult].
    set (f := default 0%nat (getProp (TokenAC.nextAt ac j) k)).
    assert (Hfu : (f < length (TokenAC.next ac))%nat
                  /\ (depth paths f < depth paths u)%nat).
    { subst f. destruct (getProp (TokenAC.nextAt ac j) k) as [w|] eqn:Hw; simpl.
      - pose proof (nextAt_is_lookup _ _ _ W Hj) as Hjo.
        split; [by eapply (trie_child_lt T)|].
        rewrite (depth_child T _ _ _ _ Hjo Hw). lia.
      - rewrite (depth_root T). lia. }
    destruct Hfu as [Hflt Hfd].
    pose proof (WF_setFail ac paths u f W Hflt Hfd) as W'.
    assert (Hufail : (u < length (TokenAC.fail ac))%nat)
      by (rewrite (wf_fail_len _ _ W); lia).
    assert (Hpvne : pv <> []).
    { intros ->. pose proof (trie_inj T _ _ _ Hpv (ti_root _ _ T)). lia. }
    assert (HFu : FailOK (TokenAC.setFail ac u f) paths u).
    { intros p Hp. rewrite failAt_setFail by done.
      rewrite decide_True by done.
      destruct (ti_edge _ _ T _ _ _ _ Ho Hu) as (pv' & Hpv' & Hpu).
      assert (pv' = pv) as -> by congruence.
      assert (p = pv ++ [k]) as -> by congruence.
      rewrite tail_snoc by done.
      eapply (goto_correct ac paths k (tail pv) W); [| |exact E].
      - intros w Hw Hd. apply HF; [done | lia].
      - apply LongestSuffixNode_Cand. apply (HF v); [lia | lia | done]. }
    destruct (IH (fun k' H => Hks k' (list_elem_of_further _ _ _ H))
                 (TokenAC.setFail ac u f) (q ++ [u]) W' Ho)
      as (ac' & E' & W'' & Hn & Hph & Hpl & Hout & Hsame & Hnew).
    { intros w Hw Hd. simpl in Hw.
      apply (FailOK_same ac); [|by apply HF].
      rewrite failAt_setFail by done.
      rewrite decide_False; [done|]. intros ->. lia. }
    exists ac'. rewrite E', <- app_assoc.
    repeat (split; [done|]). split.
    + intros w Hw. apply not_elem_of_cons in Hw as [Hne Hw].
      rewrite (Hsame w Hw), failAt_setFail by done.
      by rewrite decide_False.
    + intros u' Hu'.
      destruct (decide (u' ∈ List.map (fun k => default 0%nat (getProp o k)) ks))
        as [Hin|Hnin]; [by apply Hnew|].
      apply elem_of_cons in Hu' as [->|Hu']; [|done].
      apply (FailOK_same (TokenAC.setFail ac u f)); [by apply Hsame | done].
Qed.

Lemma rootSteps_correct paths nx o :
  nx !! 0%nat = Some o ->
  forall ks, (forall k, k ∈ ks -> k ∈ o.*1) ->
  forall ac q, WF ac paths -> TokenAC.next ac = nx ->
    (forall w, TokenAC.failAt ac w = 0%nat) ->
  exists ac',
    foldl TokenAC.rootStep (ac, q) ks
    = (ac', q ++ List.map (fun k => default 0%nat (getProp o k)) ks)
    /\ WF ac' paths /\ TokenAC.next ac' = nx
    /\ TokenAC.phrases ac' = TokenAC.phrases ac
    /\ TokenAC.pLens ac' = TokenAC.pLens ac
    /\ TokenAC.out ac' = TokenAC.out ac
    /\ (forall w, TokenAC.failAt ac' w = 0%nat).
Proof.
  intros Ho. induction ks as [|k ks IH]; intros Hks ac q W Hnx H0; simpl.
  - exists ac. by rewrite app_nil_r.
  - subst nx. pose proof (wf_trie _ _ W) as T.
    rewrite (nextAt_lookup _ _ _ Ho).
    destruct (getProp_is_Some o k) as [u Hu]; [apply Hks; left|].
    rewrite Hu. simpl.
    destruct (trie_child_lt T _ _ _ _ Ho Hu) as [Hu0 Hult].
    destruct (Nat.eqb_spec u 0) as [->|_]; [lia|].
    assert (W' : WF (TokenAC.setFail ac u 0) paths).
    { apply WF_setFail; [done|lia|].
      rewrite (depth_root T). apply (depth_pos T). lia. }
    destruct (IH (fun k' H => Hks k' (list_elem_of_further _ _ _ H))
                 (TokenAC.setFail ac u 0) (q ++ [u]) W' eq_refl)
      as (ac' & E & W'' & Hn & Hph & Hpl & Hout & Hf).
    { intros w. rewrite failAt_setFail by (rewrite (wf_fail_len _ _ W); lia).
      destruct (decide (w = u)); [done | apply H0]. }
    exists ac'. rewrite E, <- app_assoc. done.
Qed.

Lemma QInv_step nx paths visited v q' o :
  TrieInv nx paths -> nx !! v = Some o ->
  QInv nx visited (v :: q') ->
  QInv nx (visited ++ [v]) (q' ++ childrenOf o).
Proof.
  intros T Ho [Hnd Hq].
  destruct (Hq v) as [[Hv0 Hvlt] _]; [apply elem_of_app; right; left|].
  destruct (childrenOf_spec paths _ v o T Ho) as [Hcnd Hc].
  assert (Hfresh : forall u, u ∈ childrenOf o -> u ∉ visited ++ v :: q').
  { intros u Hu Hin. apply Hc in Hu as [k Hk].
    destruct (Hq u Hin) as [_ Hpar].
    destruct (Hpar v o k Ho Hk) as [->|Hd]; [lia|].
    apply list.NoDup_app in Hnd as (_ & Hdis & _).
    apply (Hdis v Hd). left. }
  split.
  - replace ((visited ++ [v]) ++ q' ++ childrenOf o)
      with ((visited ++ v :: q') ++ childrenOf o)
      by (by rewrite <- !app_assoc).
    apply list.NoDup_app. split; [done|].
    split; [|done]. intros x Hx Hx'. by apply (Hfresh x).
  - intros u Hu.
    assert (u ∈ visited ++ v :: q' \/ u ∈ childrenOf o) as [Hold|Hnew].
    { rewrite !elem_of_app, list_elem_of_singleton in Hu.
      rewrite elem_of_app, elem_of_cons. tauto. }
    + destruct (Hq u Hold) as [Hr Hpar]. split; [done|].
      intros w ow k Hw Hk.
      destruct (Hpar w ow k Hw Hk); [by left | right; apply elem_of_app; by left].
    + apply Hc in Hnew as [k Hk]. split.
      * by eapply (trie_child_lt T).
      * intros w ow k' Hw Hk'.
        destruct (trie_unique_parent T _ _ _ _ _ _ _ Hw Hk' Ho Hk) as [-> _].
        right. apply elem_of_app. right. left.
Qed.

(** When [v] is at the head of the queue, every state that is not
    farther from the root than [v] has entered the queue. *)
Lemma bfs_level_le ac paths seqs visited v q' w :
  BfsInv ac paths seqs visited (v :: q') ->
  (0 < w < length (TokenAC.next ac))%nat ->
  (depth paths w <= depth paths v)%nat -> w ∈ visited ++ v :: q'.
Proof.
  intros B [Hw0 Hwlt] Hd.
  pose proof (bi_wf _ _ _ _ _ B) as W. pose proof (wf_trie _ _ W) as T.
  destruct (trie_path T w Hwlt) as [p Hp].
  destruct (path_snoc _ _ _ _ T Hw0 Hp) as (q & k & pw & -> & Hpw & Hedge).
  rewrite (depth_lookup _ _ _ Hp), length_app in Hd. simpl in Hd.
  destruct (decide (pw = 0%nat)) as [->|Hne].
  - by eapply (bi_root _ _ _ _ _ B).
  - eapply (bi_children _ _ _ _ _ B); [|exact Hedge].
    apply (bfs_level _ _ _ _ _ _ B (length q)); [by apply depth_lookup | | lia].
    split; [lia | by eapply trie_lt].
Qed.

Lemma bfs_step ac paths seqs visited v q' o :
  Registered paths seqs ->
  BfsInv ac paths seqs visited (v :: q') ->
  TokenAC.next ac !! v = Some o ->
  forall ac1,
    ac1 = match TokenAC.outAt ac (TokenAC.failAt ac v) with
          | [] => ac
          | _ => TokenAC.setOut ac v
                   (TokenAC.outAt ac v ++ TokenAC.outAt ac (TokenAC.failAt ac v))
          end ->
  exists ac2,
    foldl (TokenAC.childStep v) (Some (ac1, q')) (objectKeys (TokenAC.nextAt ac1 v))
    = Some (ac2, q' ++ childrenOf o)
    /\ BfsInv ac2 paths seqs (visited ++ [v]) (q' ++ childrenOf o)
    /\ TokenAC.next ac2 = TokenAC.next ac
    /\ TokenAC.phrases ac2 = TokenAC.phrases ac
    /\ TokenAC.pLens ac2 = TokenAC.pLens ac.
Proof.
  intros R B Ho ac1 Hac1.
  pose proof (bi_wf _ _ _ _ _ B) as W. pose proof (wf_trie _ _ W) as T.
  pose proof (bi_q _ _ _ _ _ B) as Q. destruct Q as [Hnd Hq].
  assert (Hvin : v ∈ visited ++ v :: q') by (apply elem_of_app; right; left).
  destruct (Hq v Hvin) as [[Hv0 Hvlt] _].
  destruct (trie_path T v Hvlt) as [pv Hpv].
  assert (Hvnv : v ∉ visited).
  { intros Hin. apply list.NoDup_app in Hnd as (_ & Hdis & _).
    apply (Hdis v Hin). left. }
  set (f := TokenAC.failAt ac v) in *.
  destruct (bi_fail _ _ _ _ _ B v Hvin pv Hpv) as (qf & Hqf & Hsuf_f & Hmax_f).
  fold f in Hqf.
  assert (Hpvne : pv <> []).
  { intros ->. pose proof (trie_inj T _ _ _ Hpv (ti_root _ _ T)). lia. }
  assert (Htl : tail pv `suffix_of` pv).
  { destruct pv; simpl; [done|]. by apply suffix_cons_r. }
  assert (Hdf : (depth paths f < depth paths v)%nat).
  { rewrite (depth_lookup _ _ _ Hqf), (depth_lookup _ _ _ Hpv).
    apply suffix_length in Hsuf_f. destruct pv; [done|]. simpl in *. lia. }
  pose proof (trie_lt T _ _ Hqf) as Hflt.
  assert (HOf : OutFull ac paths seqs f).
  { destruct (decide (f = 0%nat)) as [E|Hne].
    - rewrite E. by eapply OutFull_root.
    - apply (bi_out_done _ _ _ _ _ B).
      apply (bfs_level _ _ _ _ _ _ B (depth paths f)); [done | lia | done]. }
  (* the outputs after the copy *)
  assert (H1 : WF ac1 paths /\ TokenAC.next ac1 = TokenAC.next ac
               /\ TokenAC.fail ac1 = TokenAC.fail ac
               /\ TokenAC.phrases ac1 = TokenAC.phrases ac
               /\ TokenAC.pLens ac1 = TokenAC.pLens ac
               /\ forall w pid,
                    pid ∈ TokenAC.outAt ac1 w
                    <-> pid ∈ TokenAC.outAt ac w
                        \/ (w = v /\ pid ∈ TokenAC.outAt ac f)).
  { subst ac1. destruct (TokenAC.outAt ac f) as [|x l] eqn:E.
    - repeat (split; [done|]). intros w pid. split; [by left|].
      intros [H|[_ H]]; [done | by apply elem_of_nil in H].
    - split.
      { apply WF_setOut; [done|]. intros pid Hpid.
        apply elem_of_app in Hpid as [H|H]; [by eapply wf_out|].
        rewrite <- E in H. by eapply wf_out. }
      repeat (split; [done|]). intros w pid.
      rewrite outAt_setOut by (rewrite (wf_out_len _ _ W); lia).
      destruct (decide (w = v)) as [->|Hne].
      + rewrite elem_of_app. tauto.
      + split; [by left|]. intros [H|[? _]]; done. }
  destruct H1 as (W1 & Hn1 & Hf1 & Hph1 & Hpl1 & Hout1).
  assert (Hfail1 : forall w, TokenAC.failAt ac1 w = TokenAC.failAt ac w).
  { intros w. unfold TokenAC.failAt. by rewrite Hf1. }
  assert (HOv : OutFull ac1 paths seqs v).
  { intros p pid Hp. assert (p = pv) as -> by congruence.
    rewrite Hout1, (bi_out_todo _ _ _ _ _ B v pid Hvnv), (HOf qf pid Hqf).
    split.
    - intros [(s & Hs & Hps)|[_ (s & Hs & Hsuf)]]; exists s; (split; [done|]).
      + assert (s = pv) as -> by congruence. done.
      + by repeat (etrans; [eassumption|]).
    - intros (s & Hs & Hsuf).
      assert (Hsne : s <> []).
      { eapply (reg_ne _ _ R). by eapply list_elem_of_lookup_2. }
      destruct pv as [|x tl]; [done|]. destruct s as [|y s']; [done|].
      apply suffix_cons_inv in Hsuf as [Heq|Hsuf].
      + left. exists (y :: s'). split; [done|]. by rewrite Heq.
      + right. split; [done|]. exists (y :: s'). split; [done|].
        destruct (reg_node _ _ R _ _ Hs) as [w Hw].
        apply (suffix_shorter _ _ tl); [done | done |].
        by eapply Hmax_f. }
  assert (Ho1 : TokenAC.next ac1 !! v = Some o) by (by rewrite Hn1).
  rewrite (nextAt_lookup _ _ _ Ho1).
  destruct (childSteps_correct paths v o pv Hv0 Hpv (objectKeys o)) with
    (ac := ac1) (q := q')
    as (ac2 & E & W2 & Hn2 & Hph2 & Hpl2 & Hout2 & Hsame & Hnew);
    [by intros k Hk; rewrite <- (objectKeys_perm o) | done | done | |].
  { intros w Hw Hd. rewrite Hn1 in Hw.
    apply (FailOK_same ac); [apply Hfail1|].
    apply (bi_fail _ _ _ _ _ B). by eapply bfs_level_le. }
  fold (childrenOf o) in E, Hsame, Hnew.
  destruct (childrenOf_spec paths _ v o T Ho) as [Hcnd Hc].
  assert (Hcd : forall u, u ∈ childrenOf o -> depth paths u = S (depth paths v)).
  { intros u Hu. apply Hc in Hu as [k Hk]. by eapply depth_child. }
  assert (Happ : (visited ++ [v]) ++ q' ++ childrenOf o
                 = (visited ++ v :: q') ++ childrenOf o)
    by (by rewrite <- !app_assoc).
  assert (HoutAt : forall w, TokenAC.outAt ac2 w = TokenAC.outAt ac1 w).
  { intros w. unfold TokenAC.outAt. by rewrite Hout2. }
  assert (HnextAt : forall w, TokenAC.nextAt ac2 w = TokenAC.nextAt ac w).
  { intros w. unfold TokenAC.nextAt. by rewrite Hn2, Hn1. }
  exists ac2. split; [done|]. split; [|split; [congruence|split; congruence]].
  split.
  - done.
  - rewrite Hn2, Hn1. by eapply QInv_step.
  - (* nearest the root first *)
    rewrite Happ. intros i j a b Hi Hj Hij.
    apply lookup_app_Some in Hi as [Hi|[Hige Hi]];
      apply lookup_app_Some in Hj as [Hj|[Hjge Hj]].
    + by eapply (bi_sorted _ _ _ _ _ B).
    + rewrite (Hcd b) by (by eapply list_elem_of_lookup_2).
      apply (bi_near _ _ _ _ _ B); [left | by eapply list_elem_of_lookup_2].
    + apply lookup_lt_Some in Hj. lia.
    + rewrite (Hcd a), (Hcd b) by (by eapply list_elem_of_lookup_2). done.
  - rewrite Happ. intros a b Ha Hb.
    assert (Hva : (depth paths v <= depth paths a)%nat).
    { apply elem_of_app in Ha as [Ha|Ha]; [|rewrite (Hcd a Ha); lia].
      apply list_elem_of_lookup in Ha as [i Hi].
      apply (bi_sorted _ _ _ _ _ B (length visited) (length visited + S i)); [| |lia].
      - by rewrite lookup_app_r, Nat.sub_diag by lia.
      - rewrite lookup_app_r by lia.
        by replace (length visited + S i - length visited)%nat with (S i) by lia. }
    apply elem_of_app in Hb as [Hb|Hb]; [|rewrite (Hcd b Hb); lia].
    pose proof (bi_near _ _ _ _ _ B v b ltac:(left) Hb). lia.
  - rewrite Happ. intros k u Hk. rewrite HnextAt in Hk.
    apply elem_of_app. left. by eapply (bi_root _ _ _ _ _ B).
  - rewrite Happ. intros v' k u Hv' Hk. rewrite HnextAt in Hk.
    apply elem_of_app in Hv' as [Hv'|Hv'].
    + apply elem_of_app. left. by eapply (bi_children _ _ _ _ _ B).
    + apply list_elem_of_singleton in Hv' as ->.
      apply elem_of_app. right. apply Hc. exists k.
      by rewrite (nextAt_lookup _ _ _ Ho) in Hk.
  - rewrite Happ. intros u Hu.
    destruct (decide (u ∈ childrenOf o)) as [Hin|Hnin]; [by apply Hnew|].
    apply elem_of_app in Hu as [Hu|Hu]; [|done].
    apply (FailOK_same ac); [by rewrite (Hsame u Hnin) | by apply (bi_fail _ _ _ _ _ B)].
  - intros v' Hv' p pid Hp. rewrite HoutAt.
    apply elem_of_app in Hv' as [Hv'|Hv'].
    + rewrite Hout1.
      rewrite <- (bi_out_done _ _ _ _ _ B v' Hv' p pid Hp).
      split; [|by left]. intros [H|[-> _]]; done.
    + apply list_elem_of_singleton in Hv' as ->. by apply HOv.
  - intros w pid Hw. rewrite HoutAt, Hout1.
    rewrite <- (bi_out_todo _ _ _ _ _ B w pid).
    + split; [|by left]. intros [H|[-> _]]; [done|].
      exfalso. apply Hw. apply elem_of_app. right. left.
    + intros Hin. apply Hw. apply elem_of_app. by left.
Qed.

Lemma bfs_correct paths seqs :
  Registered paths seqs ->
  forall fuel ac q visited,
    BfsInv ac paths seqs visited q ->
    (length (TokenAC.next ac) <= S (fuel + length visited))%nat ->
    exists ac' visited',
      TokenAC.bfs fuel ac q = Some ac'
      /\ BfsInv ac' paths seqs visited' []
      /\ TokenAC.next ac' = TokenAC.next ac
      /\ TokenAC.phrases ac' = TokenAC.phrases ac
      /\ TokenAC.pLens ac' = TokenAC.pLens ac.
Proof.
  intros R. induction fuel as [|fuel IH]; intros ac q visited B Hfuel;
    (destruct q as [|v q']; [by exists ac, visited|]);
    destruct (bi_q _ _ _ _ _ B) as [Hnd Hq].
  - exfalso. pose proof (NoDup_below _ (length (TokenAC.next ac)) Hnd) as Hb.
    rewrite length_app in Hb. simpl in Hb.
    assert (length visited + S (length q') <= length (TokenAC.next ac) - 1)%nat; [|lia].
    apply Hb. intros x Hx. by apply Hq.
  - cbn [TokenAC.bfs].
    destruct (Hq v) as [[Hv0 Hvlt] _]; [apply elem_of_app; right; left|].
    destruct (lookup_lt_is_Some_2 _ _ Hvlt) as [o Ho].
    destruct (bfs_step ac paths seqs visited v q' o R B Ho _ eq_refl)
      as (ac2 & E & B2 & Hn2 & Hph2 & Hpl2).
    rewrite E.
    destruct (IH ac2 (q' ++ childrenOf o) (visited ++ [v]) B2)
      as (ac' & visited' & E' & B' & Hn' & Hph' & Hpl').
    { rewrite Hn2, length_app. simpl. lia. }
    exists ac', visited'. rewrite E'. split; [done|]. split; [done|].
    split; [congruence|]. split; congruence.
Qed.

(** When the queue is empty every state but the root has been visited. *)
Lemma bfs_all_visited ac paths seqs visited :
  BfsInv ac paths seqs visited [] ->
  forall d w, depth paths w = d ->
    (0 < w < length (TokenAC.next ac))%nat -> w ∈ visited.
Proof.
  intros B. pose proof (bi_wf _ _ _ _ _ B) as W. pose proof (wf_trie _ _ W) as T.
  induction d as [d IH] using lt_wf_ind. intros w Hd [Hw0 Hwlt].
  destruct (trie_path T w Hwlt) as [p Hp].
  destruct (path_snoc _ _ _ _ T Hw0 Hp) as (q & k & pw & -> & Hpw & Hedge).
  rewrite (depth_lookup _ _ _ Hp), length_app in Hd. simpl in Hd.
  assert (Hin : w ∈ visited ++ []).
  { destruct (decide (pw = 0%nat)) as [->|Hne].
    - by eapply (bi_root _ _ _ _ _ B).
    - eapply (bi_children _ _ _ _ _ B); [|exact Hedge].
      apply (IH (length q)); [lia | by apply depth_lookup |].
      split; [lia | by eapply trie_lt]. }
  by rewrite app_nil_r in Hin.
Qed.

Lemma Inv_Registered ac paths seqs : Inv ac paths seqs -> Registered paths seqs.
Proof. intros I. split; [apply I | apply I]. Qed.

(** [build] finishes and leaves the failure links and outputs of the
    Aho-Corasick automaton of the registered sequences. *)
Lemma build_correct ac paths seqs :
  Inv ac paths seqs ->
  exists ac', TokenAC.build ac = Some ac'
              /\ Built ac' paths seqs
              /\ TokenAC.next ac' = TokenAC.next ac.
Proof.
  intros I. pose proof (Inv_WF _ _ _ I) as W. pose proof (wf_trie _ _ W) as T.
  pose proof (Inv_Registered _ _ _ I) as R.
  unfold TokenAC.build.
  destruct (TokenAC.next ac !! 0%nat) as [o|] eqn:Ho.
  2:{ apply lookup_ge_None in Ho. pose proof (ti_root _ _ T) as Hr.
      apply lookup_lt_Some in Hr. rewrite (ti_len _ _ T) in Hr. lia. }
  rewrite (nextAt_lookup _ _ _ Ho).
  assert (Hf0 : forall w, TokenAC.failAt ac w = 0%nat).
  { intros w. unfold TokenAC.failAt.
    destruct (TokenAC.fail ac !! w) eqn:E; [|done]. simpl.
    by eapply inv_fail0. }
  destruct (rootSteps_correct paths _ o Ho (objectKeys o)) with
    (ac := ac) (q := @nil nat)
    as (ac0 & E & W0 & Hn0 & Hph0 & Hpl0 & Hout0 & Hfail0);
    [by intros k Hk; rewrite <- (objectKeys_perm o) | done | done | done |].
  rewrite E. simpl. fold (childrenOf o).
  destruct (childrenOf_spec paths _ 0%nat o T Ho) as [Hcnd Hc].
  assert (Hcd : forall u, u ∈ childrenOf o -> depth paths u = 1%nat).
  { intros u Hu. apply Hc in Hu as [k Hk].
    rewrite (depth_child T _ _ _ _ Ho Hk), (depth_root T). done. }
  assert (B0 : BfsInv ac0 paths seqs [] (childrenOf o)).
  { split; simpl.
    - done.
    - rewrite Hn0. split; [done|]. simpl. intros u Hu.
      apply Hc in Hu as [k Hk]. split.
      + by eapply (trie_child_lt T).
      + intros w ow k' Hw Hk'.
        destruct (trie_unique_parent T _ _ _ _ _ _ _ Hw Hk' Ho Hk) as [-> _].
        by left.
    - intros i j a b Hi Hj _.
      rewrite (Hcd a), (Hcd b) by (by eapply list_elem_of_lookup_2). done.
    - intros a b Ha Hb. rewrite (Hcd a Ha), (Hcd b Hb). lia.
    - intros k u Hk. apply Hc. exists k.
      unfold TokenAC.nextAt in Hk. by rewrite Hn0, Ho in Hk.
    - intros v k u Hv. by apply elem_of_nil in Hv.
    - intros u Hu p Hp. rewrite Hfail0.
      apply Hc in Hu as [k Hk].
      destruct (ti_edge _ _ T _ _ _ _ Ho Hk) as (p0 & Hp0 & Hpu).
      assert (p0 = []) as -> by (pose proof (ti_root _ _ T); congruence).
      assert (p = [k]) as -> by (simpl in Hpu; congruence).
      exists []. simpl. split; [apply T|]. split; [done|].
      intros q' w' Hq' _. apply suffix_nil_inv in Hq' as ->. done.
    - intros v Hv. by apply elem_of_nil in Hv.
    - intros v pid _. unfold TokenAC.outAt. rewrite Hout0.
      apply (inv_out _ _ _ I). }
  destruct (bfs_correct paths seqs R (length (TokenAC.next ac)) ac0
              (childrenOf o) [] B0)
    as (ac' & visited' & E' & B' & Hn' & Hph' & Hpl').
  { rewrite Hn0. simpl. lia. }
  exists ac'. rewrite E'. split; [done|]. split; [|congruence].
  pose proof (bi_wf _ _ _ _ _ B') as W'.
  assert (Hall : forall w, (0 < w)%nat -> is_Some (paths !! w) -> w ∈ visited').
  { intros w Hw0 [p Hp].
    apply (bfs_all_visited _ _ _ _ B' (depth paths w)); [done|].
    split; [done|]. by eapply (trie_lt (wf_trie _ _ W')). }
  split.
  - done.
  - done.
  - rewrite Hph', Hph0. apply I.
  - rewrite Hpl', Hpl0. apply I.
  - intros u Hu p Hp.
    apply (bi_fail _ _ _ _ _ B' u); [|done].
    rewrite app_nil_r. apply Hall; [done | eauto].
  - intros v p pid Hp. destruct (decide (v = 0%nat)) as [->|Hne].
    + by eapply OutFull_root.
    + apply (bi_out_done _ _ _ _ _ B' v); [|done].
      apply Hall; [lia | eauto].
Qed.

(** ** [findAll]: the matches *)

Lemma walk_paths nx paths :
  TrieInv nx paths ->
  forall toks node p u,
    paths !! node = Some p ->
    walk nx node toks = Some u <-> paths !! u = Some (p ++ toks).
Proof.
  intros T. induction toks as [|tok rest IH]; intros node p u Hp; simpl.
  - rewrite app_nil_r. split.
    + by intros [= <-].
    + intros Hu. f_equal. by eapply (trie_inj T).
  - pose proof (trie_lt T _ _ Hp) as Hlt.
    destruct (lookup_lt_is_Some_2 _ _ Hlt) as [o Ho]. rewrite Ho. simpl.
    replace (p ++ tok :: rest) with ((p ++ [tok]) ++ rest)
      by (by rewrite <- app_assoc).
    destruct (getProp o tok) as [c|] eqn:Hk.
    + destruct (ti_edge _ _ T _ _ _ _ Ho Hk) as (p' & Hp' & Hc).
      assert (p' = p) as -> by congruence. by apply IH.
    + split; [done|]. intros Hu. exfalso.
      destruct (trie_prefix_closed _ _ _ _ T _ Hu) as [c Hc].
      pose proof (ti_node _ _ T _ _ _ _ Hp Hc) as Hn.
      rewrite Ho in Hn. simpl in Hn. congruence.
Qed.

Lemma advance_correct ac paths seqs X state tok s' :
  Built ac paths seqs ->
  LongestSuffixNode paths X state ->
  TokenAC.advance ac state tok = Some s' ->
  LongestSuffixNode paths (X ++ [tok]) s'.
Proof.
  intros B HL E. unfold TokenAC.advance in E.
  destruct (TokenAC.followFail _ ac state tok) as [j|] eqn:Ej; [|done].
  injection E as <-.
  eapply (goto_correct ac paths tok X (built_wf _ _ _ B)); [| |exact Ej].
  - intros w [Hw0 _] _. by apply (built_fail _ _ _ B).
  - by apply LongestSuffixNode_Cand.
Qed.

Lemma mapGet_Some_elem {V} (m : list (Z * V)) k v :
  mapGet m k = Some v -> (k, v) ∈ m.
Proof.
  induction m as [|[k' v'] m IH]; simpl; [done|].
  destruct (Z.eqb_spec k' k) as [->|Hne].
  - intros [= ->]. left.
  - intros H. right. by apply IH.
Qed.

Lemma mapGet_elem {V} (m : list (Z * V)) k v :
  NoDup m.*1 -> (k, v) ∈ m -> mapGet m k = Some v.
Proof.
  induction m as [|[k' v'] m IH]; simpl; intros Hnd Hin.
  - by apply elem_of_nil in Hin.
  - apply list.NoDup_cons in Hnd as [Hnin Hnd].
    apply elem_of_cons in Hin as [[= -> ->]|Hin].
    + by rewrite Z.eqb_refl.
    + destruct (Z.eqb_spec k' k) as [->|Hne]; [|by apply IH].
      exfalso. apply Hnin. apply list_elem_of_fmap. by exists (k, v).
Qed.

(** The candidates of a scan are the occurrences of the registered
    sequences that end in the tokens still to be read. *)
Lemma candidates_spec ac paths seqs :
  Built ac paths seqs ->
  forall tokens seen state cs,
    LongestSuffixNode paths seen state ->
    candidates ac (length seen) state tokens = Some cs ->
    forall c,
      c ∈ cs
      <-> exists pid s pre post,
            seqs !! pid = Some s
            /\ seen ++ tokens = pre ++ s ++ post
            /\ (length seen < length pre + length s)%nat
            /\ c = (Z.of_nat (length pre),
                    TokenAC.mkEntry (length pre + length s - 1)
                                    (join (lit " ") s)).
Proof.
  intros B. pose proof (built_reg _ _ _ B) as R.
  induction tokens as [|tok rest IH]; intros seen state cs HL E c; simpl in E.
  - injection E as <-. split; [intros H; by apply elem_of_nil in H|].
    intros (pid & s & pre & post & _ & Heq & Hlen & _). exfalso.
    rewrite app_nil_r in Heq. apply (f_equal length) in Heq.
    rewrite !length_app in Heq. lia.
  - destruct (TokenAC.advance ac state tok) as [state'|] eqn:Ea; [|done].
    destruct (candidates ac (S (length seen)) state' rest) as [cs'|] eqn:Ec; [|done].
    injection E as <-.
    pose proof (advance_correct _ _ _ _ _ _ _ B HL Ea) as HL'.
    assert (Hlen' : S (length seen) = length (seen ++ [tok]))
      by (rewrite length_app; simpl; lia).
    rewrite Hlen' in Ec. specialize (IH _ _ _ HL' Ec c).
    destruct HL' as (p' & Hp' & Hsuf' & Hmax').
    rewrite elem_of_app, IH. clear IH.
    rewrite list_elem_of_omap. split.
    + intros [(pid & Hpid & Hc)|(pid & s & pre & post & Hs & Heq & Hlen & ->)].
      * apply (built_out _ _ _ B state' p' pid Hp') in Hpid as (s & Hs & Hsuf).
        assert (Hss : s `suffix_of` seen ++ [tok]) by (by etrans).
        destruct Hss as [pre Hpre].
        unfold candidate in Hc.
        rewrite (built_pLens _ _ _ B), (built_phrases _ _ _ B) in Hc.
        change (List.map ?f ?l) with (f <$> l) in Hc.
        rewrite !list_lookup_fmap, Hs in Hc. simpl in Hc.
        pose proof (f_equal length Hpre) as Hl. rewrite !length_app in Hl.
        simpl in Hl.
        destruct (Z.leb_spec 0 (Z.of_nat (length seen) - Z.of_nat (length s) + 1))
          as [_|?]; [|lia].
        injection Hc as <-.
        exists pid, s, pre, rest. split; [done|]. split.
        { replace (seen ++ tok :: rest) with ((seen ++ [tok]) ++ rest)
            by (by rewrite <- app_assoc).
          rewrite Hpre. by rewrite <- !app_assoc. }
        assert (s <> []) by (eapply (reg_ne _ _ R); by eapply list_elem_of_lookup_2).
        assert (0 < length s)%nat by (destruct s; [done | simpl; lia]).
        split; [lia|]. f_equal; [lia|]. f_equal. lia.
      * exists pid, s, pre, post. split; [done|]. split.
        { by rewrite <- app_assoc in Heq. }
        rewrite length_app in Hlen. simpl in Hlen. split; [lia | done].
    + intros (pid & s & pre & post & Hs & Heq & Hlen & ->).
      destruct (decide (length pre + length s = S (length seen))%nat) as [Hend|Hlater].
      * left. exists pid.
        assert (Hpre : seen ++ [tok] = pre ++ s).
        { replace (seen ++ tok :: rest) with ((seen ++ [tok]) ++ rest) in Heq
            by (by rewrite <- app_assoc).
          rewrite app_assoc in Heq.
          apply app_inj_1 in Heq as [? _]; [done|].
          rewrite !length_app. simpl. lia. }
        assert (Hss : s `suffix_of` seen ++ [tok]) by (by exists pre).
        split.
        -- apply (built_out _ _ _ B state' p' pid Hp'). exists s. split; [done|].
           destruct (reg_node _ _ R _ _ Hs) as [w Hw].
           apply (suffix_shorter _ _ (seen ++ [tok])); [done | done |].
           by eapply Hmax'.
        -- unfold candidate.
           rewrite (built_pLens _ _ _ B), (built_phrases _ _ _ B).
           change (List.map ?f ?l) with (f <$> l).
           rewrite !list_lookup_fmap, Hs. simpl.
           destruct (Z.leb_spec 0 (Z.of_nat (length seen) - Z.of_nat (length s) + 1))
             as [_|?]; [|lia].
           f_equal. f_equal; [lia|]. f_equal. lia.
      * right. exists pid, s, pre, post. split; [done|]. split.
        { by rewrite <- app_assoc. }
        rewrite length_app. simpl. split; [lia | done].
Qed.

Lemma buildAC_Built inputs :
  exists ac paths,
    buildAC inputs = Some ac
    /\ Built ac paths (uniq (nonEmptySeqs inputs))
    /\ TokenAC.next ac = TokenAC.next (addAll inputs).
Proof.
  destruct (addAll_store inputs) as [paths I].
  destruct (build_correct _ _ _ I) as (ac & E & B & Hn).
  by exists ac, paths.
Qed.

Lemma walk_root ac paths toks u :
  WF ac paths ->
  walk (TokenAC.next ac) 0 toks = Some u <-> paths !! u = Some toks.
Proof.
  intros W. pose proof (wf_trie _ _ W) as T.
  by rewrite (walk_paths _ _ T toks 0%nat [] u (ti_root _ _ T)).
Qed.

Lemma elem_of_registered inputs s :
  s ∈ uniq (nonEmptySeqs inputs) <-> s ∈ inputs /\ s <> [].
Proof.
  rewrite elem_of_uniq. unfold nonEmptySeqs.
  rewrite list_elem_of_In, filter_In, <- list_elem_of_In.
  rewrite negb_true_iff, bool_decide_eq_false. done.
Qed.

Lemma phraseAt_inj tokens start s s' :
  phraseAt tokens start s -> phraseAt tokens start s' ->
  length s = length s' -> s = s'.
Proof.
  intros (_ & pre & post & E & Hl) (_ & pre' & post' & E' & Hl') Hlen.
  rewrite E in E'. apply app_inj_1 in E' as [_ E']; [|lia].
  by apply app_inj_1 in E' as [? _].
Qed.

(** [findAll] in two steps: the [best] map holds, for every start index
    at which a registered sequence stands in the tokens, the occurrence
    that ends last; the result lists the phrases of [best]. *)
Lemma findAll_as_best h ac paths seqs tokens r :
  Built ac paths seqs ->
  TokenAC.findAll h ac tokens = Some r ->
  exists cs best,
    BestOf cs best
    /\ (forall c,
          c ∈ cs
          <-> exists pid s pre post,
                seqs !! pid = Some s /\ tokens = pre ++ s ++ post
                /\ c = (Z.of_nat (length pre),
                        TokenAC.mkEntry (length pre + length s - 1)
                                        (canonical s)))
    /\ NoDup r
    /\ (forall m, m ∈ r <-> exists st e, (st, e) ∈ best /\ m = TokenAC.phrase e).
Proof.
  intros B E. pose proof (built_wf _ _ _ B) as W.
  pose proof (wf_trie _ _ W) as T. pose proof (built_reg _ _ _ B) as R.
  unfold TokenAC.findAll in E.
  destruct (length (TokenAC.next ac) =? 1)%nat eqn:Hone.
  { injection E as <-. exists [], []. split; [apply BestOf_nil|]. split.
    - intros c. split; [intros H; by apply elem_of_nil in H|].
      intros (pid & s & pre & post & Hpid & _). exfalso.
      destruct (reg_node _ _ R _ _ Hpid) as [v Hv].
      pose proof (trie_lt T _ _ Hv) as Hlt. apply Nat.eqb_eq in Hone.
      assert (v = 0%nat) as -> by lia.
      assert (s = []) as -> by (pose proof (ti_root _ _ T); congruence).
      eapply (reg_ne _ _ R); [|done]. by eapply list_elem_of_lookup_2.
    - split; [constructor|]. intros m. split; [intros H; by apply elem_of_nil in H|].
      intros (st & e & H & _). by apply elem_of_nil in H. }
  rewrite scan_candidates in E.
  destruct (candidates ac 0 0 tokens) as [cs|] eqn:Ec; [|done].
  injection E as <-.
  assert (HL : LongestSuffixNode paths [] 0%nat).
  { exists []. split; [apply T|]. split; [done|].
    intros q' w' Hq' _. apply suffix_nil_inv in Hq' as ->. done. }
  pose proof (candidates_spec _ _ _ B tokens [] 0%nat cs HL Ec) as Hcs.
  simpl in Hcs.
  pose proof (foldl_keep_BestOf cs [] [] BestOf_nil) as Hbest. simpl in Hbest.
  exists cs, (foldl keep [] cs). split; [done|]. split; [|split].
  - intros c. rewrite Hcs. unfold canonical. split.
    + intros (pid & s & pre & post & Hs & Heq & _ & ->). by exists pid, s, pre, post.
    + intros (pid & s & pre & post & Hs & Heq & ->). exists pid, s, pre, post.
      split; [done|]. split; [done|]. split; [|done].
      assert (s <> []) by (eapply (reg_ne _ _ R); by eapply list_elem_of_lookup_2).
      destruct s; [done | simpl; lia].
  - rewrite (sortBy_perm (TokenAC.byLengthThenLocale h) _). apply uniq_NoDup.
  - intros m.
    rewrite (sortBy_perm (TokenAC.byLengthThenLocale h) _), elem_of_uniq.
    change (List.map ?f ?l) with (f <$> l). rewrite list_elem_of_fmap. split.
    + intros ([st e] & -> & Hin). by exists st, e.
    + intros (st & e & Hin & ->). by exists (st, e).
Qed.

(** No occurrence is missed: where a registered sequence stands in the
    tokens, [findAll] reports the longest registered sequence that stands
    at the same index. *)
Lemma findAll_covers h ac paths seqs tokens r start s :
  Built ac paths seqs ->
  TokenAC.findAll h ac tokens = Some r ->
  s ∈ seqs -> phraseAt tokens start s ->
  exists s',
    s' ∈ seqs /\ phraseAt tokens start s'
    /\ (forall s'', s'' ∈ seqs -> phraseAt tokens start s'' ->
                    (length s'' <= length s')%nat)
    /\ canonical s' ∈ r.
Proof.
  intros B E Hs (Hne & pre & post & Heq & Hl).
  pose proof (built_reg _ _ _ B) as R.
  destruct (findAll_as_best _ _ _ _ _ _ B E) as (cs & best & Hbest & Hcs & _ & Hr).
  assert (Hcand : forall s0 pre0 post0,
            s0 ∈ seqs -> tokens = pre0 ++ s0 ++ post0 -> length pre0 = start ->
            (Z.of_nat start,
             TokenAC.mkEntry (start + length s0 - 1) (canonical s0)) ∈ cs).
  { intros s0 pre0 post0 Hs0 Heq0 <-.
    apply list_elem_of_lookup in Hs0 as [pid Hpid].
    apply Hcs. by exists pid, s0, pre0, post0. }
  pose proof (Hcand s pre post Hs Heq Hl) as Hc.
  destruct (best_covers _ _ Hbest _ _ Hc) as [e' Hget].
  pose proof (best_longest _ _ Hbest _ _ Hget) as HLg.
  assert (Hc' : (Z.of_nat start, e') ∈ cs).
  { destruct HLg as (pre0 & post0 & -> & _). apply elem_of_app. right. left. }
  apply Hcs in Hc' as (pid' & s' & pre' & post' & Hs' & Heq' & [= Hst ->]).
  apply Nat2Z.inj in Hst.
  assert (Hsne' : s' <> [])
    by (eapply (reg_ne _ _ R); by eapply list_elem_of_lookup_2).
  exists s'. split; [by eapply list_elem_of_lookup_2|].
  split; [split; [done|]; by exists pre', post'|]. split.
  - intros s'' Hs'' (Hne'' & pre'' & post'' & Heq'' & Hl'').
    pose proof (Hcand s'' pre'' post'' Hs'' Heq'' Hl'') as Hc''.
    pose proof (Longest_bound _ _ _ _ HLg Hc'') as Hb. simpl in Hb.
    destruct s''; [done|]. destruct s'; [done|]. simpl in *. lia.
  - apply Hr. eexists _, _. split; [by eapply mapGet_Some_elem|]. done.
Qed.

(** What [findAll] returns on a built automaton: for every start index at
    which a registered sequence stands in the tokens, the canonical string
    of the longest one, and nothing else. *)
Lemma findAll_matches h ac paths seqs tokens r :
  Built ac paths seqs ->
  TokenAC.findAll h ac tokens = Some r ->
  forall m,
    m ∈ r
    <-> exists start s,
          s ∈ seqs /\ phraseAt tokens start s
          /\ (forall s', s' ∈ seqs -> phraseAt tokens start s' ->
                         (length s' <= length s)%nat)
          /\ m = canonical s.
Proof.
  intros B E m. pose proof (built_reg _ _ _ B) as R. split.
  - destruct (findAll_as_best _ _ _ _ _ _ B E) as (cs & best & Hbest & Hcs & _ & Hr).
    rewrite Hr. intros (st & e & Hin & ->).
    pose proof (mapGet_elem _ _ _ (best_keys _ _ Hbest) Hin) as Hget.
    pose proof (best_longest _ _ Hbest _ _ Hget) as HLg.
    assert (Hc : (st, e) ∈ cs).
    { destruct HLg as (pre & post & -> & _). apply elem_of_app. right. left. }
    apply Hcs in Hc as (pid & s & pre & post & Hs & Heq & [= -> ->]).
    assert (Hsne : s <> [])
      by (eapply (reg_ne _ _ R); by eapply list_elem_of_lookup_2).
    exists (length pre), s. split; [by eapply list_elem_of_lookup_2|].
    split; [split; [done|]; by exists pre, post|]. split; [|done].
    intros s' Hs' (Hne' & pre' & post' & Heq' & Hl').
    apply list_elem_of_lookup in Hs' as [pid' Hpid'].
    assert (Hc' : (Z.of_nat (length pre),
                   TokenAC.mkEntry (length pre + length s' - 1) (canonical s')) ∈ cs).
    { apply Hcs. exists pid', s', pre', post'. by rewrite Hl'. }
    pose proof (Longest_bound _ _ _ _ HLg Hc') as Hb. simpl in Hb.
    destruct s; [done|]. destruct s'; [done|]. simpl in *. lia.
  - intros (start & s & Hs & Hat & Hmax & ->).
    destruct (findAll_covers _ _ _ _ _ _ _ _ B E Hs Hat)
      as (s' & Hs' & Hat' & Hmax' & Hin).
    assert (s' = s) as ->; [|done].
    apply (phraseAt_inj tokens start); [done | done |].
    pose proof (Hmax s' Hs' Hat'). pose proof (Hmax' s Hs Hat). lia.
Qed.

Lemma stateAfter_correct ac paths seqs :
  Built ac paths seqs ->
  forall tokens seen state,
    LongestSuffixNode paths seen state ->
    exists s, stateAfter ac state tokens = Some s
              /\ LongestSuffixNode paths (seen ++ tokens) s.
Proof.
  intros B. pose proof (built_wf _ _ _ B) as W.
  induction tokens as [|tok rest IH]; intros seen state HL; simpl.
  - exists state. by rewrite app_nil_r.
  - assert (Hlt : (state < length (TokenAC.next ac))%nat).
    { destruct HL as (q & Hq & _). by eapply (trie_lt (wf_trie _ _ W)). }
    destruct (advance_total ac paths state tok W Hlt) as (s' & Ea & _).
    rewrite Ea.
    destruct (IH (seen ++ [tok]) s' (advance_correct _ _ _ _ _ _ _ B HL Ea))
      as (s & Es & HLs).
    exists s. split; [done|]. by rewrite <- app_assoc in HLs.
Qed.

Lemma LongestSuffixNode_walk ac paths X w :
  WF ac paths ->
  LongestSuffixNode paths X w ->
  exists q,
    walk (TokenAC.next ac) 0 q = Some w
    /\ q `suffix_of` X
    /\ forall q', q' `suffix_of` X ->
                  is_Some (walk (TokenAC.next ac) 0 q') ->
                  (length q' <= length q)%nat.
Proof.
  intros W (q & Hq & Hsuf & Hmax). exists q.
  split; [by apply (walk_root _ paths)|]. split; [done|].
  intros q' Hq' [w' Hw']. apply (walk_root _ paths) in Hw'; [|done].
  by eapply Hmax.
Qed.

Lemma LongestSuffixNode_root paths nx :
  TrieInv nx paths -> LongestSuffixNode paths [] 0%nat.
Proof.
  intros T. exists []. split; [apply T|]. split; [done|].
  intros q' w' Hq' _. apply suffix_nil_inv in Hq' as ->. done.
Qed.

(** [X4].  [build] ends, leaves the edges and the phrase store as
    [addTokens] made them, and sets the failure link of every state other
    than the root to the state of the longest proper suffix of the state's
    path that is a path of the trie. *)
Theorem build_failure_links (inputs : list (list jsstring)) :
  exists ac,
    buildAC inputs = Some ac
    /\ TokenAC.next ac = TokenAC.next (addAll inputs)
    /\ TokenAC.phrases ac = TokenAC.phrases (addAll inputs)
    /\ TokenAC.pLens ac = TokenAC.pLens (addAll inputs)
    /\ forall p u,
         p <> [] -> walk (TokenAC.next ac) 0 p = Some u ->
         exists q,
           walk (TokenAC.next ac) 0 q = Some (TokenAC.failAt ac u)
           /\ q `suffix_of` tail p
           /\ forall q', q' `suffix_of` tail p ->
                         is_Some (walk (TokenAC.next ac) 0 q') ->
                         (length q' <= length q)%nat.
Proof.
  destruct (buildAC_Built inputs) as (ac & paths & E & B & Hn).
  exists ac. split; [done|]. split; [done|].
  destruct (buildAC_total inputs) as (ac0 & paths0 & E0 & _ & Hph & Hpl).
  assert (ac0 = ac) as -> by congruence.
  split; [done|]. split; [done|]. intros p u Hne Hu.
  pose proof (built_wf _ _ _ B) as W. pose proof (wf_trie _ _ W) as T.
  apply (walk_root _ paths) in Hu; [|done].
  apply (LongestSuffixNode_walk ac paths); [done|].
  apply (built_fail _ _ _ B); [|done].
  destruct u; [|lia]. pose proof (ti_root _ _ T). congruence.
Qed.

(** [X5].  After [build] the outputs of a state are the ids of the
    registered sequences that are suffixes of the state's path; the id of
    a sequence indexes its canonical string in [phrases] and its number of
    tokens in [pLens]. *)
Theorem build_outputs (inputs : list (list jsstring)) :
  exists ac,
    buildAC inputs = Some ac
    /\ forall p v pid,
         walk (TokenAC.next ac) 0 p = Some v ->
         (pid ∈ TokenAC.outAt ac v
          <-> exists s,
                uniq (nonEmptySeqs inputs) !! pid = Some s
                /\ s `suffix_of` p
                /\ TokenAC.phrases ac !! pid = Some (canonical s)
                /\ TokenAC.pLens ac !! pid = Some (length s)).
Proof.
  destruct (buildAC_Built inputs) as (ac & paths & E & B & Hn).
  exists ac. split; [done|]. intros p v pid Hv.
  pose proof (built_wf _ _ _ B) as W.
  apply (walk_root _ paths) in Hv; [|done].
  rewrite (built_out _ _ _ B v p pid Hv). split.
  - intros (s & Hs & Hsuf). exists s. split; [done|]. split; [done|].
    rewrite (built_phrases _ _ _ B), (built_pLens _ _ _ B).
    change (List.map ?f ?l) with (f <$> l).
    by rewrite !list_lookup_fmap, Hs.
  - intros (s & Hs & Hsuf & _). by exists s.
Qed.

(** [X6].  When the loop of [findAll] has read the tokens, [state] is
    the state of the longest suffix of the tokens read that is a path of
    the trie. *)
Theorem findAll_state (inputs : list (list jsstring)) (tokens : list jsstring) :
  exists ac state q,
    buildAC inputs = Some ac
    /\ stateAfter ac 0 tokens = Some state
    /\ walk (TokenAC.next ac) 0 q = Some state
    /\ q `suffix_of` tokens
    /\ forall q', q' `suffix_of` tokens ->
                  is_Some (walk (TokenAC.next ac) 0 q') ->
                  (length q' <= length q)%nat.
Proof.
  destruct (buildAC_Built inputs) as (ac & paths & E & B & Hn).
  pose proof (built_wf _ _ _ B) as W.
  destruct (stateAfter_correct _ _ _ B tokens [] 0%nat
              (LongestSuffixNode_root _ _ (wf_trie _ _ W))) as (s & Es & HL).
  simpl in HL.
  destruct (LongestSuffixNode_walk ac paths _ _ W HL) as (q & Hq & Hsuf & Hmax).
  by exists ac, s, q.
Qed.

(** [X1].  On the automaton built from any phrases and for any tokens,
    [findAll] returns a string exactly when it is the canonical string of
    a registered token sequence that stands in the tokens at some index
    and is the longest registered sequence standing at that index. *)
Theorem findAll_exact (h : Host) (inputs : list (list jsstring))
    (tokens : list jsstring) :
  exists ac r,
    buildAC inputs = Some ac
    /\ TokenAC.findAll h ac tokens = Some r
    /\ forall m,
         m ∈ r
         <-> exists start s,
               s ∈ inputs /\ phraseAt tokens start s
               /\ (forall s', s' ∈ inputs -> phraseAt tokens start s' ->
                              (length s' <= length s)%nat)
               /\ m = canonical s.
Proof.
  destruct (buildAC_Built inputs) as (ac & paths & E & B & Hn).
  destruct (findAll_total h ac paths tokens (built_wf _ _ _ B)) as [r Er].
  exists ac, r. split; [done|]. split; [done|]. intros m.
  rewrite (findAll_matches _ _ _ _ _ _ B Er m). split.
  - intros (start & s & Hs & Hat & Hmax & ->). exists start, s.
    apply elem_of_registered in Hs as [Hs _]. split; [done|]. split; [done|].
    split; [|done]. intros s' Hs' Hat'. apply Hmax; [|done].
    apply elem_of_registered. split; [done | apply Hat'].
  - intros (start & s & Hs & Hat & Hmax & ->). exists start, s.
    split; [apply elem_of_registered; split; [done | apply Hat]|].
    split; [done|]. split; [|done]. intros s' Hs' Hat'. apply Hmax; [|done].
    by apply elem_of_registered in Hs' as [? _].
Qed.

(** [X2].  No occurrence is missed: where a registered sequence [s]
    stands in the tokens, [findAll] reports a registered sequence that
    starts at the same index and has [s] as a prefix; when [s] ends the
    tokens that sequence is [s] itself, so a registered phrase given as the
    tokens is found. *)
Theorem findAll_no_occurrence_missed (h : Host) (inputs : list (list jsstring))
    (pre s post : list jsstring) :
  s ∈ inputs -> s <> [] ->
  exists ac r s',
    buildAC inputs = Some ac
    /\ TokenAC.findAll h ac (pre ++ s ++ post) = Some r
    /\ s' ∈ inputs /\ s `prefix_of` s' /\ s' `prefix_of` s ++ post
    /\ canonical s' ∈ r
    /\ (post = [] -> canonical s ∈ r).
Proof.
  intros Hs Hne.
  destruct (buildAC_Built inputs) as (ac & paths & E & B & Hn).
  destruct (findAll_total h ac paths (pre ++ s ++ post) (built_wf _ _ _ B))
    as [r Er].
  assert (Hat : phraseAt (pre ++ s ++ post) (length pre) s).
  { split; [done|]. by exists pre, post. }
  destruct (findAll_covers _ _ _ _ _ _ _ _ B Er
              (proj2 (elem_of_registered inputs s) (conj Hs Hne)) Hat)
    as (s' & Hs' & Hat' & Hmax & Hin).
  apply elem_of_registered in Hs' as [Hs' Hne'].
  destruct Hat' as (_ & pre' & post' & Heq & Hl).
  apply app_inj_1 in Heq as [_ Heq]; [|done].
  assert (Hp' : s' `prefix_of` s ++ post) by (by exists post').
  assert (Hlen : (length s <= length s')%nat).
  { apply Hmax; [|done]. by apply elem_of_registered. }
  assert (Hp : s `prefix_of` s').
  { destruct (prefix_weak_total s s' (s ++ post)) as [H|H];
      [by exists post | done | done |].
    apply prefix_length_eq in H; [by rewrite H | done]. }
  exists ac, r, s'. repeat (split; [done|]).
  intros ->. rewrite app_nil_r in Hp'.
  assert (s' = s) as ->; [|done].
  apply prefix_length_eq; [done|]. done.
Qed.

Lemma findAll_no_occurrence_missed_witness :
  let inputs := [[lit "pre"; lit "clear"]; [lit "trade"]] in
  [lit "pre"; lit "clear"] ∈ inputs
  /\ exists ac r s',
       buildAC inputs = Some ac
       /\ TokenAC.findAll UnicodeFragment.host ac
            ([lit "i"] ++ [lit "pre"; lit "clear"] ++ [lit "a"; lit "trade"])
          = Some r
       /\ s' ∈ inputs /\ canonical s' ∈ r.
Proof.
  intros inputs.
  assert (Hin : [lit "pre"; lit "clear"] ∈ inputs) by (left).
  split; [exact Hin|].
  destruct (findAll_no_occurrence_missed UnicodeFragment.host inputs
              [lit "i"] [lit "pre"; lit "clear"] [lit "a"; lit "trade"]
              Hin ltac:(discriminate))
    as (ac & r & s' & E & Er & Hs' & _ & _ & Hr & _).
  by exists ac, r, s'.
Defined.

Lemma NoDup_subset_length {A} (l k : list A) :
  NoDup l -> (forall x, x ∈ l -> x ∈ k) -> (length l <= length k)%nat.
Proof.
  intros Hnd Hsub. apply submseteq_length. by apply NoDup_submseteq.
Qed.

(** [X3].  [findAll] returns at most one string per token and at most
    one per registered phrase, and every string it returns is in the
    phrase store; for no tokens, and on an automaton without phrases, the
    result is empty. *)
Theorem findAll_bounded (h : Host) (inputs : list (list jsstring))
    (tokens : list jsstring) :
  exists ac r,
    buildAC inputs = Some ac
    /\ TokenAC.findAll h ac tokens = Some r
    /\ (length r <= length tokens)%nat
    /\ (length r <= length (TokenAC.phrases ac))%nat
    /\ (forall m, m ∈ r -> m ∈ TokenAC.phrases ac).
Proof.
  destruct (buildAC_Built inputs) as (ac & paths & E & B & Hn).
  destruct (findAll_total h ac paths tokens (built_wf _ _ _ B)) as [r Er].
  exists ac, r. split; [done|]. split; [done|].
  pose proof (built_reg _ _ _ B) as R.
  destruct (findAll_as_best _ _ _ _ _ _ B Er) as (cs & best & Hbest & Hcs & Hnd & Hr).
  assert (Hkey : forall st e, (st, e) ∈ best ->
            exists pid s pre post,
              uniq (nonEmptySeqs inputs) !! pid = Some s
              /\ tokens = pre ++ s ++ post
              /\ st = Z.of_nat (length pre) /\ TokenAC.phrase e = canonical s).
  { intros st e Hin.
    pose proof (mapGet_elem _ _ _ (best_keys _ _ Hbest) Hin) as Hget.
    destruct (best_longest _ _ Hbest _ _ Hget) as (pre0 & post0 & Hsplit & _).
    assert (Hc : (st, e) ∈ cs) by (rewrite Hsplit; apply elem_of_app; right; left).
    apply Hcs in Hc as (pid & s & pre & post & Hs & Heq & [= -> ->]).
    by exists pid, s, pre, post. }
  assert (Hmem : forall m, m ∈ r -> m ∈ TokenAC.phrases ac).
  { intros m Hm. apply Hr in Hm as (st & e & Hin & ->).
    destruct (Hkey st e Hin) as (pid & s & pre & post & Hs & _ & _ & ->).
    rewrite (built_phrases _ _ _ B). change (List.map ?f ?l) with (f <$> l).
    apply list_elem_of_fmap. exists s. split; [done|].
    by eapply list_elem_of_lookup_2. }
  split; [|split; [by apply NoDup_subset_length | done]].
  transitivity (length best).
  - rewrite <- (length_fmap (fun kv : Z * TokenAC.entry => TokenAC.phrase kv.2) best).
    apply NoDup_subset_length; [done|]. intros m Hm.
    apply Hr in Hm as (st & e & Hin & ->).
    apply list_elem_of_fmap. by exists (st, e).
  - transitivity (length (Z.of_nat <$> seq 0 (length tokens)));
      [|by rewrite length_fmap, length_seq].
    rewrite <- (length_fmap fst best).
    apply NoDup_subset_length; [apply Hbest|]. intros st Hst.
    apply list_elem_of_fmap in Hst as ([st' e] & -> & Hin). simpl.
    destruct (Hkey st' e Hin) as (pid & s & pre & post & Hs & Heq & -> & _).
    apply list_elem_of_fmap. exists (length pre). split; [done|].
    apply elem_of_seq.
    assert (s <> []) by (eapply (reg_ne _ _ R); by eapply list_elem_of_lookup_2).
    apply (f_equal length) in Heq. rewrite !length_app in Heq.
    destruct s; [done|]. simpl in Heq. lia.
Qed.

(** [X7].  After any insertions the arrays stay aligned and the edges
    form a tree: [fail] and [out] are as long as [next], [pLens] as long
    as [phrases]; every edge leads from a state of the automaton to
    another state that is not the root; every state but the root has
    exactly one incoming edge; every failure link is still 0; a phrase
    id that is an output indexes [phrases] and is an output of one state
    only; and every index of [phrases] is an output of some state: each
    phrase id is an output of exactly one state. *)
Theorem addTokens_keeps_trie_shape (inputs : list (list jsstring)) :
  let ac := addAll inputs in
  length (TokenAC.fail ac) = length (TokenAC.next ac)
  /\ length (TokenAC.out ac) = length (TokenAC.next ac)
  /\ length (TokenAC.pLens ac) = length (TokenAC.phrases ac)
  /\ (forall v k u,
        getProp (TokenAC.nextAt ac v) k = Some u ->
        (v < length (TokenAC.next ac))%nat
        /\ (0 < u < length (TokenAC.next ac))%nat /\ u <> v)
  /\ (forall v k v' k' u,
        getProp (TokenAC.nextAt ac v) k = Some u ->
        getProp (TokenAC.nextAt ac v') k' = Some u ->
        v = v' /\ k = k')
  /\ (forall u, (0 < u < length (TokenAC.next ac))%nat ->
        exists v k, getProp (TokenAC.nextAt ac v) k = Some u)
  /\ (forall v, TokenAC.failAt ac v = 0%nat)
  /\ (forall v pid,
        pid ∈ TokenAC.outAt ac v ->
        (v < length (TokenAC.next ac))%nat
        /\ (pid < length (TokenAC.phrases ac))%nat
        /\ forall v', pid ∈ TokenAC.outAt ac v' -> v' = v)
  /\ (forall pid,
        (pid < length (TokenAC.phrases ac))%nat ->
        exists v, (v < length (TokenAC.next ac))%nat
                  /\ pid ∈ TokenAC.outAt ac v).
Proof.
  intros ac. destruct (addAll_store inputs) as [paths I]. fold ac in I.
  pose proof (Inv_WF _ _ _ I) as W. pose proof (wf_trie _ _ W) as T.
  assert (Hedge : forall v k u,
            getProp (TokenAC.nextAt ac v) k = Some u ->
            TokenAC.next ac !! v = Some (TokenAC.nextAt ac v)).
  { intros v k u Hk. unfold TokenAC.nextAt in *.
    destruct (TokenAC.next ac !! v) eqn:Ev; [done | simpl in Hk; done]. }
  split; [apply I|]. split; [apply I|]. split; [apply W|].
  split; [|split; [|split; [|split; [|split]]]].
  - intros v k u Hk. pose proof (Hedge _ _ _ Hk) as Hv.
    split; [by eapply lookup_lt_Some|].
    split; [by eapply (trie_child_lt T)|].
    intros ->. pose proof (depth_child T _ _ _ _ Hv Hk). lia.
  - intros v k v' k' u Hk Hk'.
    by eapply (trie_unique_parent T); [eapply Hedge | | eapply Hedge |].
  - intros u [Hu0 Hult]. destruct (trie_path T u Hult) as [p Hp].
    destruct (path_snoc _ _ _ _ T Hu0 Hp) as (q & k & v & -> & Hv & Hk).
    by exists v, k.
  - intros v. unfold TokenAC.failAt.
    destruct (TokenAC.fail ac !! v) eqn:Ef; [|done]. simpl.
    by eapply inv_fail0.
  - intros v pid Hpid.
    pose proof (proj1 (inv_out _ _ _ I v pid) Hpid) as (s & Hs & Hv).
    split; [by eapply (trie_lt T)|]. split; [by eapply wf_out|].
    intros v' Hpid'.
    apply (inv_out _ _ _ I) in Hpid' as (s' & Hs' & Hv').
    assert (s' = s) as -> by congruence. by eapply (trie_inj T).
  - intros pid Hpid.
    rewrite (inv_phrases _ _ _ I), length_map in Hpid.
    destruct (lookup_lt_is_Some_2 _ _ Hpid) as [s Hs].
    destruct (inv_seq_node _ _ _ I pid s Hs) as [v Hv].
    exists v. split; [by eapply (trie_lt T)|].
    apply (inv_out _ _ _ I). by exists s.
Qed.

(** ** The tokenizer and its separators *)

Lemma flush_tokens start cur :
  (flush start cur).*2 = match cur with [] => [] | _ => [cur] end.
Proof. by destruct cur. Qed.

(** The matched texts do not depend on where the counting starts. *)
Lemma execAll_tokens_indep s : forall pos start cur pos' start',
  (execAll pos start cur s).*2 = (execAll pos' start' cur s).*2.
Proof.
  induction s as [|c rest IH]; intros pos start cur pos' start'; simpl.
  - by rewrite !flush_tokens.
  - destruct (isAlnum c); [apply IH|].
    destruct (isJoiner c && negb (bool_decide (cur = [])) && headIs isAlnum rest);
      [apply IH|].
    rewrite !fmap_app, !flush_tokens. f_equal. apply IH.
Qed.

Lemma headIs_app_sep (rest b : jsstring) c :
  isAlnum c = false -> headIs isAlnum (rest ++ c :: b) = headIs isAlnum rest.
Proof. intros Hc. destruct rest; simpl; [done | done]. Qed.

(** A separator ends the match in progress and the scan starts afresh
    behind it. *)
Lemma execAll_separator (a b : jsstring) c :
  isSeparator c = true ->
  forall pos start cur,
    (execAll pos start cur (a ++ c :: b)).*2
    = (execAll pos start cur a).*2 ++ (regexMatches b).*2.
Proof.
  intros Hsep. apply andb_true_iff in Hsep as [Ha Hj].
  apply negb_true_iff in Ha, Hj.
  induction a as [|x a IH]; intros pos start cur; simpl.
  - rewrite Ha, Hj. simpl. rewrite fmap_app. f_equal.
    apply execAll_tokens_indep.
  - destruct (isAlnum x); [apply IH|].
    rewrite (headIs_app_sep a b c Ha).
    destruct (isJoiner x && negb (bool_decide (cur = [])) && headIs isAlnum a);
      [apply IH|].
    rewrite !fmap_app, IH. by rewrite app_assoc.
Qed.

(** A text made of token characters only is one match. *)
Lemma execAll_all_tok s : forall cur,
  (forall k, (k < length (cur ++ s))%nat -> tokAt (cur ++ s) k = true) ->
  execAll (length cur) 0 cur s = flush 0 (cur ++ s).
Proof.
  induction s as [|c rest IH]; intros cur Hall; simpl.
  - by rewrite app_nil_r.
  - assert (Hd : tokAt (cur ++ c :: rest) (length cur)
                = isAlnum c
                  || (isJoiner c && negb (bool_decide (cur = []))
                      && headIs isAlnum rest)).
    { apply (execAll_decision [] cur rest c); [|done].
      intros k Hk. apply Hall. rewrite length_app. simpl in *. lia. }
    rewrite Hall in Hd by (rewrite length_app; simpl; lia).
    assert (Hnext : execAll (S (length cur)) 0 (cur ++ [c]) rest
                    = flush 0 (cur ++ c :: rest)).
    { replace (S (length cur)) with (length (cur ++ [c]))
        by (rewrite length_app; simpl; lia).
      rewrite (IH (cur ++ [c])); rewrite <- app_assoc; [done|]. apply Hall. }
    destruct (isAlnum c) eqn:Hc.
    + rewrite <- Hnext. f_equal. by destruct cur.
    + simpl in Hd. rewrite <- Hd. exact Hnext.
Qed.

Lemma regexMatches_token t : TokenShape t -> regexMatches t = [(0%nat, t)].
Proof.
  intros Ht. unfold regexMatches.
  change (execAll 0 0 [] t) with (execAll (length (@nil N)) 0 [] t).
  rewrite (execAll_all_tok t []); simpl.
  - pose proof (TokenShape_ne _ Ht). by destruct t.
  - by apply TokenShape_tokAt.
Qed.

Lemma join_cons (sep x : jsstring) (xs : list jsstring) :
  xs <> [] -> join sep (x :: xs) = x ++ sep ++ join sep xs.
Proof. by destruct xs. Qed.

Lemma space_isSeparator : isSeparator SPACE = true.
Proof. reflexivity. Qed.

Lemma regexMatches_join ts :
  Forall TokenShape ts -> (regexMatches (join (lit " ") ts)).*2 = ts.
Proof.
  induction 1 as [|t ts Ht Hts IH]; [done|].
  destruct ts as [|t' ts].
  - simpl. by rewrite (regexMatches_token t Ht).
  - rewrite join_cons by done.
    change (lit " " ++ ?r) with (SPACE :: r).
    unfold regexMatches at 1.
    rewrite (execAll_separator t _ SPACE space_isSeparator).
    fold (regexMatches t). rewrite (regexMatches_token t Ht), IH. done.
Qed.

(** ** [prepare]: matches, stop words and clauses *)

Lemma newAC_buildAC tokenize opts :
  SearchQueryBuilder.newAC tokenize opts = buildAC (registeredOf tokenize opts).
Proof.
  unfold SearchQueryBuilder.newAC, buildAC, addAll, registeredOf.
  destruct (SearchQueryBuilder.nonEmpty (PrepareQueryOptions.pretokenizedUtterances opts));
    [done|].
  destruct (SearchQueryBuilder.nonEmpty (PrepareQueryOptions.utterances opts));
    [|done].
  by rewrite foldl_addPhrase.
Qed.

Lemma new_Built h opts b :
  PrepareQueryOptions.acOverride opts = None ->
  SearchQueryBuilder.new h opts = Some b ->
  exists paths,
    Built (SearchQueryBuilder.ac b) paths
      (uniq (nonEmptySeqs (registeredOf (SearchQueryBuilder.tokenize b) opts))).
Proof.
  intros Hov E. unfold SearchQueryBuilder.new in E. rewrite Hov in E.
  destruct (SearchQueryBuilder.newAC _ opts) as [ac|] eqn:Eac; [|done].
  injection E as <-. simpl. rewrite newAC_buildAC in Eac.
  destruct (buildAC_Built
              (registeredOf
                 (default (defaultTokenize h) (PrepareQueryOptions.tokenize opts))
                 opts))
    as (ac' & paths & E' & B & _).
  exists paths. congruence.
Qed.

Lemma new_fields h opts b :
  SearchQueryBuilder.new h opts = Some b ->
  SearchQueryBuilder.stopWords b = PrepareQueryOptions.stopWords opts
  /\ SearchQueryBuilder.normalize b
     = default (defaultNormalize h) (PrepareQueryOptions.normalize opts)
  /\ SearchQueryBuilder.tokenize b
     = default (defaultTokenize h) (PrepareQueryOptions.tokenize opts)
  /\ SearchQueryBuilder.wrap b
     = default defaultWrap (PrepareQueryOptions.wrap opts)
  /\ SearchQueryBuilder.alwaysIncludeCleaned b
     = PrepareQueryOptions.alwaysIncludeCleaned opts.
Proof.
  unfold SearchQueryBuilder.new. intros E.
  destruct (match PrepareQueryOptions.acOverride opts with
            | Some ac => Some ac
            | None => SearchQueryBuilder.newAC _ opts
            end); [|done].
  by injection E as <-.
Qed.

Lemma phraseAt_nil start s : ~ phraseAt [] start s.
Proof.
  intros (Hne & pre & post & E & _). symmetry in E.
  apply app_eq_nil in E as [_ E]. apply app_eq_nil in E as [E _]. done.
Qed.

(** [X8].  For a builder made by the constructor without [acOverride],
    [utteranceMatches] holds exactly the canonical strings of the
    registered sequences (the pretokenized utterances when there are any,
    else the tokens of the utterances) that stand in [cleanedTokens] at
    some index and are the longest registered sequence standing there. *)
Theorem prepare_matches_registered (h : Host) (opts : PrepareQueryOptions.t)
    (b : SearchQueryBuilder.t) (s : jsstring) :
  PrepareQueryOptions.acOverride opts = None ->
  SearchQueryBuilder.new h opts = Some b ->
  exists pq,
    SearchQueryBuilder.prepare h b s = Some pq
    /\ forall m,
         m ∈ utteranceMatches pq
         <-> exists start seq,
               seq ∈ registeredOf (SearchQueryBuilder.tokenize b) opts
               /\ phraseAt (cleanedTokens pq) start seq
               /\ (forall seq',
                      seq' ∈ registeredOf (SearchQueryBuilder.tokenize b) opts ->
                      phraseAt (cleanedTokens pq) start seq' ->
                      (length seq' <= length seq)%nat)
               /\ m = canonical seq.
Proof.
  intros Hov E.
  assert (HC : Constructed h b) by (by exists opts).
  destruct (prepare_total h b s HC) as [pq Hpq]. exists pq. split; [done|].
  destruct (decide (trim s = [])) as [Hblank|Hne].
  { rewrite (prepare_blank h b s Hblank) in Hpq. injection Hpq as <-. simpl.
    intros m. split; [intros H; by apply elem_of_nil in H|].
    intros (start & seq & _ & Hat & _). by apply phraseAt_nil in Hat. }
  destruct (prepare_Some h b s pq Hne Hpq) as (bal & prot & rem & ms & _ & Hf & ->).
  simpl. destruct (new_Built h opts b Hov E) as [paths B]. intros m.
  rewrite (findAll_matches _ _ _ _ _ _ B Hf m). split.
  - intros (start & seq & Hs & Hat & Hmax & ->). exists start, seq.
    apply elem_of_registered in Hs as [Hs _]. split; [done|]. split; [done|].
    split; [|done]. intros s' Hs' Hat'. apply Hmax; [|done].
    apply elem_of_registered. split; [done | apply Hat'].
  - intros (start & seq & Hs & Hat & Hmax & ->). exists start, seq.
    split; [apply elem_of_registered; split; [done | apply Hat]|].
    split; [done|]. split; [|done]. intros s' Hs' Hat'. apply Hmax; [|done].
    by apply elem_of_registered in Hs' as [? _].
Qed.

Lemma prepare_matches_registered_witness :
  let opts :=
    {| PrepareQueryOptions.stopWords := [lit "a"; lit "i"];
       PrepareQueryOptions.utterances := Some [lit "pre clear"; lit "Pre-Clear trade"];
       PrepareQueryOptions.pretokenizedUtterances := None;
       PrepareQueryOptions.normalize := None;
       PrepareQueryOptions.tokenize := None;
       PrepareQueryOptions.wrap := None;
       PrepareQueryOptions.alwaysIncludeCleaned := false;
       PrepareQueryOptions.acOverride := None |} in
  PrepareQueryOptions.acOverride opts = None
  /\ exists b pq,
       SearchQueryBuilder.new UnicodeFragment.host opts = Some b
       /\ SearchQueryBuilder.prepare UnicodeFragment.host b
            (lit "may i pre clear a trade") = Some pq
       /\ registeredOf (SearchQueryBuilder.tokenize b) opts
          = [[lit "pre"; lit "clear"]; [lit "pre-clear"; lit "trade"]]
       /\ cleanedTokens pq = [lit "may"; lit "pre"; lit "clear"; lit "trade"]
       /\ (lit "pre clear" ∈ utteranceMatches pq).
Proof.
  intros opts. split; [reflexivity|].
  destruct (new_total UnicodeFragment.host opts eq_refl) as [b E].
  destruct (prepare_matches_registered UnicodeFragment.host opts b
              (lit "may i pre clear a trade") eq_refl E) as (pq & Hpq & Hm).
  exists b, pq. split; [exact E|]. split; [exact Hpq|].
  destruct (new_fields _ _ _ E) as (Hstop & _ & Htok & _).
  assert (Hreg : registeredOf (SearchQueryBuilder.tokenize b) opts
                 = [[lit "pre"; lit "clear"]; [lit "pre-clear"; lit "trade"]]).
  { rewrite Htok. reflexivity. }
  assert (Hne : trim (lit "may i pre clear a trade") <> []) by discriminate.
  assert (Hct : cleanedTokens pq = [lit "may"; lit "pre"; lit "clear"; lit "trade"]).
  { destruct (prepare_Some _ _ _ _ Hne Hpq)
      as (bal & prot & rem & ms & Ha & _ & ->).
    simpl.
    assert (Hrem : rem = lit "may i pre clear a trade").
    { assert (SearchQueryBuilder.analyzeQuotes (lit "may i pre clear a trade")
              = Some (true, [], lit "may i pre clear a trade")) as Hc
        by reflexivity.
      congruence. }
    rewrite Hrem. unfold cleanedTokensOf. rewrite Hstop, Htok. reflexivity. }
  split; [exact Hreg|]. split; [exact Hct|].
  apply Hm. exists 1%nat, [lit "pre"; lit "clear"]. rewrite Hreg, Hct.
  split; [left|]. split.
  - split; [discriminate|]. exists [lit "may"], [lit "trade"]. split; reflexivity.
  - split; [|reflexivity]. intros seq' Hin Hat.
    apply elem_of_cons in Hin as [->|Hin]; [simpl; lia|].
    apply list_elem_of_singleton in Hin as ->. exfalso.
    destruct Hat as (_ & pre & post & Heq & Hl).
    destruct pre as [|x [|y pre]]; simpl in Hl; try lia.
    discriminate Heq.
Defined.

Lemma filter_no_stop_words (stop : list jsstring) (ts : list jsstring) :
  match stop with
  | [] => ts
  | _ => List.filter (fun t => negb (bool_decide (t ∈ stop))) ts
  end
  = List.filter (fun t => negb (bool_decide (t ∈ stop))) ts.
Proof.
  destruct stop as [|x stop]; [|done].
  induction ts as [|t ts IH]; cbn [List.filter]; [done|].
  rewrite bool_decide_eq_false_2 by (intros H; by apply elem_of_nil in H).
  cbn [negb]. by f_equal.
Qed.

Lemma filter_sublist {A} (p : A -> bool) (l : list A) :
  List.filter p l `sublist_of` l.
Proof.
  induction l as [|x l IH]; simpl; [done|].
  destruct (p x); [by apply sublist_skip | by apply sublist_cons].
Qed.

(** [X10].  [cleanedTokens] holds no stop word; for a non-blank input
    it is the tokens of the remainder with the stop words filtered out and
    the order kept, whether the stop-word set is empty or not. *)
Theorem cleanedTokens_drop_stop_words (h : Host) (b : SearchQueryBuilder.t)
    (s : jsstring) :
  Constructed h b ->
  exists pq,
    SearchQueryBuilder.prepare h b s = Some pq
    /\ (forall t, t ∈ cleanedTokens pq -> t ∉ SearchQueryBuilder.stopWords b)
    /\ (trim s <> [] ->
        exists bal prot rem,
          SearchQueryBuilder.analyzeQuotes s = Some (bal, prot, rem)
          /\ cleanedTokens pq
             = List.filter
                 (fun t => negb (bool_decide (t ∈ SearchQueryBuilder.stopWords b)))
                 (SearchQueryBuilder.tokenize b rem)
          /\ cleanedTokens pq `sublist_of` SearchQueryBuilder.tokenize b rem).
Proof.
  intros HC. destruct (prepare_total h b s HC) as [pq Hpq]. exists pq.
  split; [done|].
  destruct (decide (trim s = [])) as [Hblank|Hne].
  { rewrite (prepare_blank h b s Hblank) in Hpq. injection Hpq as <-. simpl.
    split; [|done]. intros t Ht. by apply elem_of_nil in Ht. }
  destruct (prepare_Some h b s pq Hne Hpq) as (bal & prot & rem & ms & Ha & _ & ->).
  simpl. unfold cleanedTokensOf. rewrite filter_no_stop_words. split.
  - intros t Ht. apply list_elem_of_In, filter_In in Ht as [_ Ht].
    apply negb_true_iff, bool_decide_eq_false in Ht. done.
  - intros _. exists bal, prot, rem. split; [done|]. split; [done|].
    apply filter_sublist.
Qed.

Lemma cleanedTokens_drop_stop_words_witness :
  exists b pq,
    Constructed UnicodeFragment.host b
    /\ SearchQueryBuilder.stopWords b = [lit "a"; lit "i"]
    /\ SearchQueryBuilder.prepare UnicodeFragment.host b (lit "may i clear a trade")
       = Some pq
    /\ cleanedTokens pq = [lit "may"; lit "clear"; lit "trade"].
Proof.
  set (opts :=
    {| PrepareQueryOptions.stopWords := [lit "a"; lit "i"];
       PrepareQueryOptions.utterances := None;
       PrepareQueryOptions.pretokenizedUtterances := None;
       PrepareQueryOptions.normalize := None;
       PrepareQueryOptions.tokenize := None;
       PrepareQueryOptions.wrap := None;
       PrepareQueryOptions.alwaysIncludeCleaned := false;
       PrepareQueryOptions.acOverride := None |}).
  destruct (new_total UnicodeFragment.host opts eq_refl) as [b E].
  assert (HC : Constructed UnicodeFragment.host b) by (by exists opts).
  destruct (cleanedTokens_drop_stop_words UnicodeFragment.host b
              (lit "may i clear a trade") HC) as (pq & Hpq & _ & Hrem).
  destruct (new_fields _ _ _ E) as (Hstop & _ & Htok & _).
  exists b, pq. split; [exact HC|]. split; [exact Hstop|]. split; [exact Hpq|].
  destruct (Hrem ltac:(discriminate)) as (bal & prot & rem & Ha & -> & _).
  assert (Hr : rem = lit "may i clear a trade").
  { assert (SearchQueryBuilder.analyzeQuotes (lit "may i clear a trade")
            = Some (true, [], lit "may i clear a trade")) as Hc by reflexivity.
    congruence. }
  rewrite Hr, Hstop, Htok. reflexivity.
Defined.

Lemma uniq_fmap_quoteExact (l : list jsstring) :
  uniq (List.map quoteExact l) = List.map quoteExact (uniq l).
Proof.
  change (List.map ?f ?x) with (f <$> x). unfold uniq.
  change (@nil jsstring) with (quoteExact <$> @nil jsstring) at 1.
  apply uniq_fmap_inj. intros x y _ _. apply quoteExact_inj.
Qed.

(** [X11].  For a non-blank input [queryString] is the [" OR "]-join of
    [wrap(quoteExact(t))] over the texts: the trimmed input, then the
    cleaned text (when it is not empty and [alwaysIncludeCleaned] is set
    or it differs from the normalized input), then the protected phrases,
    then the utterance matches, each text once, at its first place.
    Escaping never merges two different texts. *)
Theorem queryString_clauses (h : Host) (b : SearchQueryBuilder.t) (s : jsstring) :
  Constructed h b -> trim s <> [] ->
  exists pq,
    SearchQueryBuilder.prepare h b s = Some pq
    /\ queryString pq
       = join (lit " OR ")
           (List.map (fun t => SearchQueryBuilder.wrap b (quoteExact t))
              (uniq ([trim s] ++ cleanedClause b s (cleanedText pq)
                     ++ protectedPhrases pq ++ utteranceMatches pq))).
Proof.
  intros HC Hne. destruct (prepare_total h b s HC) as [pq Hpq]. exists pq.
  split; [done|].
  destruct (prepare_Some h b s pq Hne Hpq) as (bal & prot & rem & ms & Ha & _ & ->).
  simpl. rewrite clausesOf_escaped, uniq_fmap_quoteExact, List.map_map.
  f_equal. f_equal. f_equal. unfold clauseTexts, cleanedClause.
  f_equal. f_equal. f_equal.
  destruct bal; [done|].
  by destruct (analyzeQuotes_unbalanced _ _ _ Ha) as [-> _].
Qed.

Lemma queryString_clauses_witness :
  let s := lit "Pre-clear, now" in
  Constructed UnicodeFragment.host plainBuilder
  /\ trim s <> []
  /\ exists pq,
       SearchQueryBuilder.prepare UnicodeFragment.host plainBuilder s = Some pq
       /\ queryString pq
          = lit "/" ++ [QUOTE] ++ lit "Pre-clear, now" ++ [QUOTE] ++ lit "/ OR /"
            ++ [QUOTE] ++ lit "pre-clear now" ++ [QUOTE] ++ lit "/".
Proof.
  intros s. split; [exact plainBuilder_Constructed|].
  split; [discriminate|].
  destruct (queryString_clauses UnicodeFragment.host plainBuilder s
              plainBuilder_Constructed ltac:(discriminate)) as (pq & Hpq & Hq).
  exists pq. split; [exact Hpq|].
  assert (Hc : SearchQueryBuilder.prepare UnicodeFragment.host plainBuilder s
               = Some {| originalInput := s;
                         protectedPhrases := [];
                         cleanedTokens := [lit "pre-clear"; lit "now"];
                         cleanedText := lit "pre-clear now";
                         utteranceMatches := [];
                         queryString :=
                           lit "/" ++ [QUOTE] ++ lit "Pre-clear, now" ++ [QUOTE]
                           ++ lit "/ OR /" ++ [QUOTE] ++ lit "pre-clear now"
                           ++ [QUOTE] ++ lit "/";
                         hadUnbalancedQuotes := false |}) by reflexivity.
  rewrite Hc in Hpq. injection Hpq as <-. reflexivity.
Defined.

Lemma phraseAt_elem tokens start s t :
  phraseAt tokens start s -> t ∈ s -> t ∈ tokens.
Proof.
  intros (_ & pre & post & -> & _) Ht.
  apply elem_of_app. right. apply elem_of_app. by left.
Qed.

(** [X9].  Matching runs on the tokens left after the stop words are
    removed: every utterance match is the canonical string of a registered
    sequence all of whose tokens are cleaned tokens and none of whose
    tokens is a stop word, so an utterance that holds a stop word as a
    token is never matched. *)
Theorem matches_hold_no_stop_word (h : Host) (opts : PrepareQueryOptions.t)
    (b : SearchQueryBuilder.t) (s : jsstring) :
  PrepareQueryOptions.acOverride opts = None ->
  SearchQueryBuilder.new h opts = Some b ->
  exists pq,
    SearchQueryBuilder.prepare h b s = Some pq
    /\ forall m,
         m ∈ utteranceMatches pq ->
         exists seq,
           seq ∈ registeredOf (SearchQueryBuilder.tokenize b) opts
           /\ m = canonical seq
           /\ forall t, t ∈ seq ->
                t ∈ cleanedTokens pq
                /\ t ∉ PrepareQueryOptions.stopWords opts.
Proof.
  intros Hov E.
  assert (HC : Constructed h b) by (by exists opts).
  destruct (prepare_total h b s HC) as [pq Hpq]. exists pq. split; [done|].
  destruct (decide (trim s = [])) as [Hblank|Hne].
  { rewrite (prepare_blank h b s Hblank) in Hpq. injection Hpq as <-. simpl.
    intros m Hm. by apply elem_of_nil in Hm. }
  destruct (prepare_Some h b s pq Hne Hpq) as (bal & prot & rem & ms & _ & Hf & ->).
  simpl. destruct (new_Built h opts b Hov E) as [paths B]. intros m Hm.
  apply (findAll_matches _ _ _ _ _ _ B Hf m) in Hm
    as (start & seq & Hs & Hat & _ & ->).
  apply elem_of_registered in Hs as [Hs _].
  exists seq. split; [done|]. split; [done|]. intros t Ht.
  pose proof (phraseAt_elem _ _ _ _ Hat Ht) as Hin. split; [done|].
  destruct (new_fields _ _ _ E) as (Hstop & _). rewrite <- Hstop.
  unfold cleanedTokensOf in Hin. rewrite filter_no_stop_words in Hin.
  apply list_elem_of_In, filter_In in Hin as [_ Hin].
  by apply negb_true_iff, bool_decide_eq_false in Hin.
Qed.

Lemma matches_hold_no_stop_word_witness :
  let opts :=
    {| PrepareQueryOptions.stopWords := [lit "on"];
       PrepareQueryOptions.utterances := Some [lit "market on close"];
       PrepareQueryOptions.pretokenizedUtterances := None;
       PrepareQueryOptions.normalize := None;
       PrepareQueryOptions.tokenize := None;
       PrepareQueryOptions.wrap := None;
       PrepareQueryOptions.alwaysIncludeCleaned := false;
       PrepareQueryOptions.acOverride := None |} in
  PrepareQueryOptions.acOverride opts = None
  /\ exists b pq,
       SearchQueryBuilder.new UnicodeFragment.host opts = Some b
       /\ SearchQueryBuilder.prepare UnicodeFragment.host b
            (lit "market on close") = Some pq
       /\ registeredOf (SearchQueryBuilder.tokenize b) opts
          = [[lit "market"; lit "on"; lit "close"]]
       /\ utteranceMatches pq = [].
Proof.
  intros opts. split; [reflexivity|].
  destruct (new_total UnicodeFragment.host opts eq_refl) as [b E].
  destruct (matches_hold_no_stop_word UnicodeFragment.host opts b
              (lit "market on close") eq_refl E) as (pq & Hpq & Hm).
  exists b, pq. split; [exact E|]. split; [exact Hpq|].
  destruct (new_fields _ _ _ E) as (_ & _ & Htok & _).
  assert (Hreg : registeredOf (SearchQueryBuilder.tokenize b) opts
                 = [[lit "market"; lit "on"; lit "close"]]).
  { rewrite Htok. reflexivity. }
  split; [exact Hreg|].
  destruct (utteranceMatches pq) as [|m ms] eqn:Em; [reflexivity|]. exfalso.
  destruct (Hm m ltac:(left)) as (seq & Hseq & _ & Hstop).
  rewrite Hreg in Hseq. apply list_elem_of_singleton in Hseq as ->.
  destruct (Hstop (lit "on")) as [_ Hno]; [right; left|].
  apply Hno. left.
Defined.

Lemma defaultTokenize_shapes h s : Forall TokenShape (defaultTokenize h s).
Proof.
  apply list.Forall_forall. intros t Ht. unfold defaultTokenize in Ht.
  change (List.map ?f ?l) with (f <$> l) in Ht.
  apply list_elem_of_fmap in Ht as ([i t'] & -> & Hin). simpl.
  apply regexMatches_runs, Run_MaximalMatch in Hin. apply Hin.
Qed.

Lemma TokenShape_head t : TokenShape t -> optIs isAlnum (head t) = true.
Proof.
  induction 1 as [r Hne Hall | t j r Ht IH Hj Hne Hall].
  - destruct r as [|c r]; [done|]. simpl.
    unfold allAlnum in Hall. simpl in Hall. by apply andb_true_iff in Hall as [-> _].
  - pose proof (TokenShape_ne _ Ht). by destruct t.
Qed.

Lemma head_rev_last {A} (l : list A) : head (rev l) = list.last l.
Proof.
  destruct l as [|x l _] using rev_ind; [done|].
  by rewrite rev_unit, last_snoc.
Qed.

Lemma canonical_last ts :
  Forall TokenShape ts -> ts <> [] ->
  optIs isAlnum (list.last (canonical ts)) = true.
Proof.
  induction 1 as [|t ts Ht Hts IH]; [done|]. intros _.
  destruct ts as [|t' ts].
  - by apply TokenShape_last.
  - unfold canonical in *. rewrite join_cons by done.
    rewrite app_assoc, last_app. specialize (IH ltac:(done)).
    by destruct (list.last (join (lit " ") (t' :: ts))).
Qed.

Lemma canonical_trimmed ts : Forall TokenShape ts -> trimmedText (canonical ts).
Proof.
  intros Hts. destruct ts as [|t ts]; [done|]. split.
  - apply list.Forall_cons in Hts as [Ht _].
    pose proof (TokenShape_head _ Ht) as Hh. pose proof (TokenShape_ne _ Ht).
    unfold canonical. destruct t as [|c t]; [done|]. simpl in Hh.
    assert (headIs isWhiteSpace (join (lit " ") ((c :: t) :: ts))
            = isWhiteSpace c) as -> by (by destruct ts).
    by apply alnum_not_space.
  - rewrite headIs_head, head_rev_last.
    pose proof (canonical_last _ Hts ltac:(done)) as Hl.
    destruct (list.last (canonical (t :: ts))) as [c|]; [|done].
    simpl in *. by apply alnum_not_space.
Qed.

(** [X12].  With the default tokenizer every cleaned token has the
    shape of a token, [cleanedText] is the cleaned tokens joined by single
    spaces (trimming changes nothing), it is empty exactly when there is
    no cleaned token, and matching the token pattern over it gives the
    cleaned tokens back. *)
Theorem cleanedText_joins_tokens (h : Host) (b : SearchQueryBuilder.t)
    (s : jsstring) :
  Constructed h b ->
  SearchQueryBuilder.tokenize b = defaultTokenize h ->
  exists pq,
    SearchQueryBuilder.prepare h b s = Some pq
    /\ Forall TokenShape (cleanedTokens pq)
    /\ cleanedText pq = canonical (cleanedTokens pq)
    /\ (cleanedText pq = [] <-> cleanedTokens pq = [])
    /\ (regexMatches (cleanedText pq)).*2 = cleanedTokens pq.
Proof.
  intros HC Htok. destruct (prepare_total h b s HC) as [pq Hpq]. exists pq.
  split; [done|].
  assert (Hshape : Forall TokenShape (cleanedTokens pq)
                   /\ cleanedText pq = trim (canonical (cleanedTokens pq))).
  { destruct (decide (trim s = [])) as [Hblank|Hne].
    - rewrite (prepare_blank h b s Hblank) in Hpq. injection Hpq as <-. done.
    - destruct (prepare_Some h b s pq Hne Hpq)
        as (bal & prot & rem & ms & _ & _ & ->).
      simpl. split; [|done]. unfold cleanedTokensOf. rewrite Htok.
      rewrite filter_no_stop_words.
      apply list.Forall_forall. intros t Ht.
      apply list_elem_of_In, filter_In in Ht as [Ht _].
      apply list_elem_of_In in Ht.
      revert t Ht. apply list.Forall_forall, defaultTokenize_shapes. }
  destruct Hshape as [Hts Hct].
  rewrite (trim_fixed _ (canonical_trimmed _ Hts)) in Hct.
  split; [done|]. split; [done|]. split.
  - rewrite Hct. split.
    + destruct (cleanedTokens pq) as [|t ts]; [done|]. intros E. exfalso.
      apply list.Forall_cons in Hts as [Ht _].
      by apply (join_head_nonempty (lit " ") t ts (TokenShape_ne _ Ht)).
    + by intros ->.
  - rewrite Hct. by apply regexMatches_join.
Qed.

Lemma cleanedText_joins_tokens_witness :
  Constructed UnicodeFragment.host plainBuilder
  /\ SearchQueryBuilder.tokenize plainBuilder = defaultTokenize UnicodeFragment.host
  /\ exists pq,
       SearchQueryBuilder.prepare UnicodeFragment.host plainBuilder
         (lit "Pre-clear, now") = Some pq
       /\ cleanedText pq = canonical (cleanedTokens pq)
       /\ (regexMatches (cleanedText pq)).*2 = cleanedTokens pq.
Proof.
  split; [exact plainBuilder_Constructed|]. split; [reflexivity|].
  destruct (cleanedText_joins_tokens UnicodeFragment.host plainBuilder
              (lit "Pre-clear, now") plainBuilder_Constructed eq_refl)
    as (pq & Hpq & _ & Hct & _ & Hre).
  exists pq. split; [exact Hpq|]. split; [exact Hct | exact Hre].
Defined.

(** [X16].  A character that is neither alphanumeric nor a hyphen nor an
    apostrophe separates tokens: the matches of the token pattern in
    [a ++ c :: b] are the matches in [a] followed by the matches in
    [b]. *)
Theorem tokens_split_at_separator (a b : jsstring) (c : N) :
  isSeparator c = true ->
  (regexMatches (a ++ c :: b)).*2 = (regexMatches a).*2 ++ (regexMatches b).*2.
Proof. intros Hc. by apply execAll_separator. Qed.

Lemma tokens_split_at_separator_witness :
  isSeparator 44 = true
  /\ (regexMatches (lit "pre-clear-" ++ 44 :: lit "'now")).*2
     = [lit "pre-clear"; lit "now"].
Proof.
  split; [reflexivity|].
  rewrite (tokens_split_at_separator (lit "pre-clear-") (lit "'now") 44 eq_refl).
  reflexivity.
Defined.

(** [X17].  Joining tokens by single spaces and tokenizing again gives
    the tokens back: for texts of the shape of a token the matches of the
    token pattern in their join are the texts, and [defaultTokenize]
    returns them when the normalizer leaves the join unchanged. *)
Theorem defaultTokenize_join_roundtrip (h : Host) (ts : list jsstring) :
  Forall TokenShape ts ->
  (regexMatches (canonical ts)).*2 = ts
  /\ (defaultNormalize h (canonical ts) = canonical ts ->
      defaultTokenize h (canonical ts) = ts).
Proof.
  intros Hts. pose proof (regexMatches_join ts Hts) as Hr. split; [done|].
  intros Hn. unfold defaultTokenize. rewrite Hn. exact Hr.
Qed.

Lemma defaultTokenize_join_roundtrip_witness :
  let ts := defaultTokenize UnicodeFragment.host (lit "Pre-Clear the  TRADE!") in
  ts = [lit "pre-clear"; lit "the"; lit "trade"]
  /\ Forall TokenShape ts
  /\ defaultNormalize UnicodeFragment.host (canonical ts) = canonical ts
  /\ defaultTokenize UnicodeFragment.host (canonical ts) = ts.
Proof.
  intros ts. split; [reflexivity|].
  assert (Hts : Forall TokenShape ts) by apply defaultTokenize_shapes.
  split; [exact Hts|]. split; [reflexivity|].
  exact (proj2 (defaultTokenize_join_roundtrip UnicodeFragment.host ts Hts) eq_refl).
Defined.

(** ** Quoted spans *)

Lemma findClosing_spec input c : forall bound j f,
  findClosing bound input c j = Z.of_nat f ->
  (j <= f < length input)%nat
  /\ input !! f = Some c
  /\ eqChar (charAt input (Z.of_nat f - 1)) BACKSLASH = false
  /\ forall k, (j <= k < f)%nat ->
       ~ (input !! k = Some c
          /\ eqChar (charAt input (Z.of_nat k - 1)) BACKSLASH = false).
Proof.
  induction bound as [|bound IH]; intros j f E; simpl in E; [lia|].
  destruct (Nat.ltb_spec j (length input)) as [Hj|Hj]; [|lia].
  destruct (eqChar (input !! j) c
            && negb (eqChar (charAt input (Z.of_nat j - 1)) BACKSLASH)) eqn:Hhit.
  - apply Nat2Z.inj in E as <-.
    apply andb_true_iff in Hhit as [Hc Hb]. apply negb_true_iff in Hb.
    split; [lia|]. split.
    + destruct (input !! j) as [x|]; [|done]. simpl in Hc.
      apply N.eqb_eq in Hc. by subst.
    + split; [done|]. intros k Hk. lia.
  - destruct (IH _ _ E) as (Hr & Hf & Hesc & Hmin).
    split; [lia|]. split; [done|]. split; [done|].
    intros k Hk [Hkc Hkb].
    destruct (decide (k = j)) as [->|Hne]; [|apply (Hmin k); [lia | done]].
    rewrite Hkc, Hkb in Hhit. simpl in Hhit. by rewrite N.eqb_refl in Hhit.
Qed.

(** The text between two indices, taken out of the input. *)
Lemma slice_middle (input : jsstring) i f o c :
  (i < f)%nat -> input !! i = Some o -> input !! f = Some c ->
  input = take i input ++ o :: slice input (S i) f ++ c :: drop (S f) input.
Proof.
  intros Hif Ho Hc. unfold slice.
  rewrite <- (take_drop i input) at 1. f_equal.
  rewrite (drop_S _ _ _ Ho). f_equal.
  rewrite <- (take_drop (f - S i) (drop (S i) input)) at 1. f_equal.
  rewrite drop_drop. replace (S i + (f - S i))%nat with f by lia.
  by rewrite (drop_S _ _ _ Hc).
Qed.

Lemma slice_lookup (input : jsstring) i f k :
  (k < f - i)%nat -> slice input i f !! k = input !! (i + k)%nat.
Proof.
  intros Hk. unfold slice. rewrite lookup_take_lt by done. by rewrite lookup_drop.
Qed.

Lemma slice_length (input : jsstring) i f :
  (f <= length input)%nat -> length (slice input i f) = (f - i)%nat.
Proof. intros Hf. unfold slice. rewrite length_take, length_drop. lia. Qed.

Lemma charAt_nat (s : jsstring) k : charAt s (Z.of_nat k) = s !! k.
Proof.
  unfold charAt. destruct (Z.ltb_spec (Z.of_nat k) 0); [lia|].
  by rewrite Nat2Z.id.
Qed.

Lemma found_span input i f o c :
  QuoteFamily o c -> input !! i = Some o ->
  findClosing (length input - S i) input c (S i) = Z.of_nat f ->
  (i < f < length input)%nat /\ QuotedSpan input (slice input (S i) f).
Proof.
  intros Hfam Ho E.
  destruct (findClosing_spec _ _ _ _ _ E) as (Hr & Hf & Hesc & Hmin).
  split; [lia|].
  exists (take i input), (drop (S f) input), o, c.
  split; [done|]. split; [apply slice_middle; [lia | done | done]|].
  assert (Hlen : length (slice input (S i) f) = (f - S i)%nat)
    by (apply slice_length; lia).
  assert (Hq : o <> BACKSLASH).
  { destruct Hfam as [[-> _]|[-> _]]; done. }
  split.
  - intros Hlast.
    replace (Z.of_nat f - 1)%Z with (Z.of_nat (f - 1)) in Hesc by lia.
    rewrite charAt_nat in Hesc.
    destruct (slice input (S i) f) as [|x l] eqn:Es using rev_ind; [done|].
    rewrite last_snoc in Hlast. injection Hlast as ->.
    rewrite length_app in Hlen. simpl in Hlen.
    assert (Hx : (l ++ [BACKSLASH]) !! length l = Some BACKSLASH)
      by (by apply list_lookup_middle).
    rewrite <- Es, slice_lookup in Hx by lia.
    replace (S i + length l)%nat with (f - 1)%nat in Hx by lia.
    rewrite Hx in Hesc. by vm_compute in Hesc.
  - intros k Hk.
    assert (Hkl : (k < f - S i)%nat) by (rewrite <- Hlen; by eapply lookup_lt_Some).
    rewrite slice_lookup in Hk by done.
    assert (Hprev : eqChar (charAt input (Z.of_nat (S i + k) - 1)) BACKSLASH = true).
    { destruct (eqChar (charAt input (Z.of_nat (S i + k) - 1)) BACKSLASH) eqn:Eb;
        [done|].
      exfalso. apply (Hmin (S i + k)%nat); [lia | done]. }
    replace (Z.of_nat (S i + k) - 1)%Z with (Z.of_nat (i + k)) in Hprev by lia.
    rewrite charAt_nat in Hprev.
    destruct k as [|k'].
    + rewrite Nat.add_0_r, Ho in Hprev. cbn [eqChar] in Hprev.
      apply N.eqb_eq in Hprev. done.
    + exists k'. split; [done|]. rewrite slice_lookup by lia.
      replace (S i + k')%nat with (i + S k')%nat by lia.
      destruct (input !! (i + S k')%nat) as [x|]; [|done]. cbn [eqChar] in Hprev.
      apply N.eqb_eq in Hprev. by subst.
Qed.

(** What the scan adds from index [i] on: phrases that are quoted spans,
    and a remainder that is a subsequence of the rest of the input. *)
Lemma extractLoop_spec input : forall fuel i prot rem prot' rem',
  extractLoop fuel input i prot rem = Some (prot', rem') ->
  exists newp newr,
    prot' = prot ++ newp /\ rem' = rem ++ newr
    /\ newr `sublist_of` drop i input
    /\ Forall (fun p => trim p <> [] /\ QuotedSpan input p) newp
    /\ (length newr + sum_list ((fun p => length p + 2)%nat <$> newp)
        <= length input - i)%nat
    /\ ((forall k ch, (i <= k)%nat -> input !! k = Some ch ->
                      ch <> QUOTE /\ ch <> LDQUO) ->
        newp = [] /\ newr = drop i input).
Proof.
  induction fuel as [|fuel IH]; intros i prot rem prot' rem' E;
    cbn [extractLoop] in E;
    (destruct (Nat.leb_spec (length input) i) as [Hend|Hi];
     [ injection E as <- <-; exists [], [];
       rewrite !app_nil_r, drop_ge by lia; simpl;
       repeat (split; [done || lia|]); done |]); [done|].
  destruct (lookup_lt_is_Some_2 input i Hi) as [ch Hch].
  rewrite Hch in E. cbn [eqChar from_option] in E.
  set (startStraight := ch =? QUOTE) in *.
  set (startCurly := ch =? LDQUO) in *.
  set (endChar := if startStraight then QUOTE else RDQUO) in *.
  set (found := if startStraight || startCurly
                then findClosing (length input - S i) input endChar (S i)
                else (-1)%Z) in *.
  destruct ((startStraight || startCurly) && (Z.of_nat i <? found)%Z) eqn:Hspan.
  - apply andb_true_iff in Hspan as [Hstart Hfound].
    apply Z.ltb_lt in Hfound.
    assert (Hfam : QuoteFamily ch endChar).
    { subst endChar startStraight startCurly.
      destruct (N.eqb_spec ch QUOTE) as [Hq|_]; [by left|].
      simpl in Hstart. apply N.eqb_eq in Hstart. by right. }
    assert (Ef : found = Z.of_nat (Z.to_nat found)) by lia.
    subst found. rewrite Hstart in Ef, Hfound, E.
    set (f := Z.to_nat (findClosing (length input - S i) input endChar (S i))) in *.
    destruct (found_span input i f ch endChar Hfam Hch Ef) as [Hr Hsp].
    apply IH in E as (newp & newr & -> & -> & Hsub & Hall & Hlen & _).
    assert (Hsub' : newr `sublist_of` drop i input).
    { etrans; [exact Hsub|].
      replace (S f) with (i + (S f - i))%nat by lia.
      rewrite <- drop_drop. apply sublist_drop. }
    assert (Hsl : length (slice input (S i) f) = (f - S i)%nat)
      by (apply slice_length; lia).
    destruct (trim (slice input (S i) f)) eqn:Et.
    + exists newp, newr. repeat (split; [done || lia|]).
      intros Hno. destruct (Hno i ch ltac:(lia) Hch) as [H1 H2].
      destruct Hfam as [[-> _]|[-> _]]; done.
    + exists (slice input (S i) f :: newp), newr.
      split; [by rewrite <- app_assoc|]. split; [done|]. split; [done|].
      split; [constructor; [|done]; split; [by rewrite Et | done]|].
      split.
      { rewrite fmap_cons.
        change (sum_list (?x :: ?r)) with (x + sum_list r)%nat.
        rewrite Hsl. lia. }
      intros Hno. destruct (Hno i ch ltac:(lia) Hch) as [H1 H2].
      destruct Hfam as [[-> _]|[-> _]]; done.
  - apply IH in E as (newp & newr & -> & -> & Hsub & Hall & Hlen & Hcopy).
    exists newp, (ch :: newr). split; [done|].
    split; [by rewrite <- app_assoc|].
    rewrite (drop_S _ _ _ Hch).
    split; [by apply sublist_skip|]. split; [done|]. split; [simpl; lia|].
    intros Hno. destruct Hcopy as [-> ->]; [|done].
    intros k c Hk. apply Hno. lia.
Qed.

Lemma extract_spec input :
  exists prot rem0,
    extractQuotedPhrasesBalanced input = Some (prot, trim rem0)
    /\ rem0 `sublist_of` input
    /\ Forall (fun p => trim p <> [] /\ QuotedSpan input p) prot
    /\ (length rem0 + sum_list ((fun p => length p + 2)%nat <$> prot)
        <= length input)%nat
    /\ ((forall ch, ch ∈ input -> ch <> QUOTE /\ ch <> LDQUO) ->
        prot = [] /\ rem0 = input).
Proof.
  unfold extractQuotedPhrasesBalanced.
  destruct (extractLoop_total input (length input) 0 [] []) as [[prot rem0] E];
    [lia|].
  rewrite E. exists prot, rem0. split; [done|].
  apply extractLoop_spec in E as (newp & newr & -> & -> & Hsub & Hall & Hlen & Hno).
  simpl in *. rewrite Nat.sub_0_r in Hlen.
  repeat (split; [done|]). intros Hin. apply Hno. intros k ch _ Hk.
  apply Hin. by eapply list_elem_of_lookup_2.
Qed.

(** [X14].  [extractQuotedPhrasesBalanced] ends on every input; the
    remainder is the trimmed form of a subsequence of the input, every
    phrase is a non-blank quoted span of the input, the remainder and the
    phrases with their two marks are together no longer than the input,
    and an input without a straight or an opening curly mark gives no
    phrase and the trimmed input as remainder. *)
Theorem extract_removes_only_quoted_spans (input : jsstring) :
  exists prot rem0,
    extractQuotedPhrasesBalanced input = Some (prot, trim rem0)
    /\ rem0 `sublist_of` input
    /\ Forall (fun p => trim p <> [] /\ QuotedSpan input p) prot
    /\ (length rem0 + sum_list ((fun p => length p + 2)%nat <$> prot)
        <= length input)%nat
    /\ ((forall ch, ch ∈ input -> ch <> QUOTE /\ ch <> LDQUO) ->
        prot = [] /\ rem0 = input).
Proof. apply extract_spec. Qed.

(** [X13].  Every protected phrase that [prepare] returns is not empty,
    has no white space at its ends, comes with [hadUnbalancedQuotes]
    false, and is the trimmed text of a quoted span of the input: the text
    between an opening mark and the first closing mark of the same family
    after it that no backslash precedes. *)
Theorem protectedPhrases_are_quoted_spans (h : Host) (b : SearchQueryBuilder.t)
    (s : jsstring) :
  Constructed h b ->
  exists pq,
    SearchQueryBuilder.prepare h b s = Some pq
    /\ forall p,
         p ∈ protectedPhrases pq ->
         p <> [] /\ trim p = p /\ hadUnbalancedQuotes pq = false
         /\ exists inner, p = trim inner /\ QuotedSpan s inner.
Proof.
  intros HC. destruct (prepare_total h b s HC) as [pq Hpq]. exists pq.
  split; [done|].
  destruct (decide (trim s = [])) as [Hblank|Hne].
  { rewrite (prepare_blank h b s Hblank) in Hpq. injection Hpq as <-. simpl.
    intros p Hp. by apply elem_of_nil in Hp. }
  destruct (prepare_Some h b s pq Hne Hpq) as (bal & prot & rem & ms & Ha & _ & ->).
  simpl. intros p Hp. unfold SearchQueryBuilder.analyzeQuotes in Ha.
  destruct (hasBalancedStraightQuotes s && hasBalancedCurlyQuotes s).
  2:{ injection Ha as <- <- <-. by apply elem_of_nil in Hp. }
  destruct (extract_spec s) as (prot0 & rem0 & E & _ & Hall & _).
  rewrite E in Ha. injection Ha as <- <- <-.
  apply list_elem_of_In, filter_In in Hp as [Hp Hne'].
  apply negb_true_iff, bool_decide_eq_false in Hne'.
  apply in_map_iff in Hp as (inner & <- & Hin).
  split; [done|]. split; [apply trim_idem|]. split; [done|].
  exists inner. split; [done|].
  apply list_elem_of_In in Hin.
  by apply (proj1 (list.Forall_forall _ _) Hall inner Hin).
Qed.

Lemma protectedPhrases_are_quoted_spans_witness :
  let s := lit "say " ++ [LDQUO] ++ lit " hi there " ++ [RDQUO] ++ lit " now" in
  Constructed UnicodeFragment.host plainBuilder
  /\ exists pq,
       SearchQueryBuilder.prepare UnicodeFragment.host plainBuilder s = Some pq
       /\ protectedPhrases pq = [lit "hi there"]
       /\ QuotedSpan s (lit " hi there ").
Proof.
  intros s. split; [exact plainBuilder_Constructed|].
  destruct (protectedPhrases_are_quoted_spans UnicodeFragment.host plainBuilder s
              plainBuilder_Constructed) as (pq & Hpq & Hp).
  exists pq. split; [exact Hpq|].
  assert (Hprot : protectedPhrases pq = [lit "hi there"]).
  { assert (Hne : trim s <> []) by discriminate.
    destruct (prepare_Some _ _ _ _ Hne Hpq)
      as (bal & prot & rem & ms & Ha & _ & ->).
    simpl.
    assert (SearchQueryBuilder.analyzeQuotes s
            = Some (true, [lit "hi there"], lit "say  now")) as Hc by reflexivity.
    congruence. }
  split; [exact Hprot|].
  destruct (Hp (lit "hi there")) as (_ & _ & _ & inner & Htrim & Hspan).
  { rewrite Hprot. left. }
  exists (lit "say "), (lit " now"), LDQUO, RDQUO.
  split; [by right|]. split; [reflexivity|]. split; [discriminate|].
  intros k Hk. exfalso.
  do 12 (destruct k as [|k]; [discriminate Hk|]). discriminate Hk.
Defined.

(** ** [stripStrayQuotes]: the normal form *)

Lemma collapseSpaces_elem s : forall inRun c,
  c ∈ collapseSpaces inRun s ->
  c = SPACE \/ (c ∈ s /\ isWhiteSpace c = false).
Proof.
  induction s as [|x s IH]; intros inRun c Hc; simpl in Hc.
  - by apply elem_of_nil in Hc.
  - destruct (isWhiteSpace x) eqn:Hx.
    + destruct inRun.
      * destruct (IH _ _ Hc) as [?|[? ?]]; [by left | right; split; [by right | done]].
      * apply elem_of_cons in Hc as [->|Hc]; [by left|].
        destruct (IH _ _ Hc) as [?|[? ?]]; [by left | right; split; [by right | done]].
    + apply elem_of_cons in Hc as [->|Hc]; [right; split; [left | done]|].
      destruct (IH _ _ Hc) as [?|[? ?]]; [by left | right; split; [by right | done]].
Qed.

Lemma collapseSpaces_head s : headIs isWhiteSpace (collapseSpaces true s) = false.
Proof.
  induction s as [|x s IH]; simpl; [done|].
  destruct (isWhiteSpace x) eqn:Hx; [done|]. simpl. done.
Qed.

Lemma collapseSpaces_noadj s : forall inRun l1 a b l2,
  collapseSpaces inRun s = l1 ++ a :: b :: l2 ->
  ~ (isWhiteSpace a = true /\ isWhiteSpace b = true).
Proof.
  induction s as [|x s IH]; intros inRun l1 a b l2 E; simpl in E.
  - by destruct l1.
  - destruct (isWhiteSpace x) eqn:Hx; [destruct inRun|].
    + by eapply IH.
    + destruct l1 as [|y l1]; simpl in E.
      * injection E as <- E. pose proof (collapseSpaces_head s) as Hh.
        rewrite E in Hh. simpl in Hh. intros [_ Hb]. congruence.
      * injection E as <- E. by eapply IH.
    + destruct l1 as [|y l1]; simpl in E.
      * injection E as <- E. intros [Ha _]. congruence.
      * injection E as <- E. by eapply IH.
Qed.

Lemma collapseSpaces_kept s : forall inRun,
  List.filter isKept (collapseSpaces inRun s) = List.filter isKept s.
Proof.
  induction s as [|x s IH]; intros inRun; simpl; [done|].
  destruct (isWhiteSpace x) eqn:Hx.
  - assert (isKept x = false) as -> by (unfold isKept; by rewrite Hx, andb_false_r).
    destruct inRun; [apply IH|]. simpl. apply IH.
  - simpl. rewrite IH. done.
Qed.

Lemma quotes_to_space_kept s :
  List.filter isKept (List.map (fun c => if isQuoteChar c then SPACE else c) s)
  = List.filter isKept s.
Proof.
  induction s as [|x s IH]; simpl; [done|].
  destruct (isQuoteChar x) eqn:Hx.
  - assert (isKept x = false) as -> by (unfold isKept; by rewrite Hx).
    simpl. exact IH.
  - rewrite IH. done.
Qed.

Lemma allSpace_kept ws : allSpace ws -> List.filter isKept ws = [].
Proof.
  unfold allSpace. induction ws as [|x ws IH]; simpl; [done|].
  intros H. apply andb_true_iff in H as [Hx H].
  assert (isKept x = false) as -> by (unfold isKept; by rewrite Hx, andb_false_r).
  by apply IH.
Qed.

Lemma collapseSpaces_fixed r : forall inRun,
  (forall c, c ∈ r -> isWhiteSpace c = true -> c = SPACE) ->
  (forall l1 a b l2, r = l1 ++ a :: b :: l2 ->
     ~ (isWhiteSpace a = true /\ isWhiteSpace b = true)) ->
  (inRun = true -> headIs isWhiteSpace r = false) ->
  collapseSpaces inRun r = r.
Proof.
  induction r as [|x r IH]; intros inRun Hsp Hadj Hhead; simpl; [done|].
  assert (Hadj' : forall l1 a b l2, r = l1 ++ a :: b :: l2 ->
            ~ (isWhiteSpace a = true /\ isWhiteSpace b = true)).
  { intros l1 a b l2 ->. by apply (Hadj (x :: l1) a b l2). }
  assert (Hsp' : forall c, c ∈ r -> isWhiteSpace c = true -> c = SPACE).
  { intros c Hc. apply Hsp. by right. }
  destruct (isWhiteSpace x) eqn:Hx.
  - destruct inRun; [by specialize (Hhead eq_refl); simpl in Hhead; congruence|].
    rewrite (Hsp x ltac:(left) Hx). f_equal. apply IH; [done | done |].
    intros _. destruct r as [|y r]; [done|]. simpl.
    destruct (isWhiteSpace y) eqn:Hy; [|done].
    exfalso. by apply (Hadj [] x y r).
  - f_equal. apply IH; [done | done | done].
Qed.

(** [X15].  The result of [stripStrayQuotes] holds no quote character,
    no white space but single spaces between other characters, and the
    characters of the input that are neither quote characters nor white
    space, in their order; [stripStrayQuotes] leaves its own results
    unchanged. *)
Theorem stripStrayQuotes_normal_form (s : jsstring) :
  let r := stripStrayQuotes s in
  (forall c, c ∈ r ->
     isQuoteChar c = false /\ (isWhiteSpace c = true -> c = SPACE))
  /\ trimmedText r
  /\ (forall l1 a b l2, r = l1 ++ a :: b :: l2 ->
        ~ (isWhiteSpace a = true /\ isWhiteSpace b = true))
  /\ List.filter isKept r = List.filter isKept s
  /\ stripStrayQuotes r = r.
Proof.
  intros r. unfold stripStrayQuotes in r.
  set (m := List.map (fun c => if isQuoteChar c then SPACE else c) s) in *.
  set (r' := collapseSpaces false m) in *.
  destruct (trim_parts r') as (ws1 & ws2 & Hr' & Hws1 & Hws2 & Htrim).
  fold r in Hr', Htrim.
  assert (Helem : forall c, c ∈ r ->
            isQuoteChar c = false /\ (isWhiteSpace c = true -> c = SPACE)).
  { intros c Hc.
    assert (Hc' : c ∈ r').
    { rewrite Hr'. apply elem_of_app. right. apply elem_of_app. by left. }
    destruct (collapseSpaces_elem _ _ _ Hc') as [->|[Hm Hns]]; [done|].
    split; [|congruence].
    apply list_elem_of_In, in_map_iff in Hm as (x & Hx & _).
    destruct (isQuoteChar x) eqn:Eq; [by subst | by subst]. }
  assert (Hadj : forall l1 a b l2, r = l1 ++ a :: b :: l2 ->
            ~ (isWhiteSpace a = true /\ isWhiteSpace b = true)).
  { intros l1 a b l2 E.
    apply (collapseSpaces_noadj m false (ws1 ++ l1) a b (l2 ++ ws2)).
    fold r'. rewrite Hr', E. by rewrite <- !app_assoc. }
  split; [done|]. split; [done|]. split; [done|]. split.
  - rewrite <- (quotes_to_space_kept s). fold m.
    rewrite <- (collapseSpaces_kept m false). fold r'.
    rewrite Hr'. rewrite !List.filter_app.
    by rewrite (allSpace_kept _ Hws1), (allSpace_kept _ Hws2), app_nil_r.
  - unfold stripStrayQuotes.
    assert (List.map (fun c => if isQuoteChar c then SPACE else c) r = r) as ->.
    { rewrite <- (List.map_id r) at 2. apply List.map_ext_in. intros c Hc.
      apply list_elem_of_In, Helem in Hc as [-> _]. done. }
    rewrite collapseSpaces_fixed; [by apply trim_fixed | | done | done].
    intros c Hc. by apply Helem.
Qed.

(** ** White space, quote characters and the token pattern *)

Lemma space_not_token c :
  isWhiteSpace c = true -> isAlnum c = false /\ isJoiner c = false.
Proof.
  intros Hc. split.
  - destruct (isAlnum c) eqn:E; [|done].
    apply alnum_not_space in E. congruence.
  - destruct (isJoiner c) eqn:E; [|done].
    apply joiner_not_space in E. congruence.
Qed.

Lemma quote_isSeparator c : isQuoteChar c = true -> isSeparator c = true.
Proof.
  unfold isQuoteChar. intros H.
  apply orb_true_iff in H as [H|H]; [apply orb_true_iff in H as [H|H]|];
    apply N.eqb_eq in H; by subst.
Qed.

(** Replacing separators by separators changes no match. *)
Lemma execAll_map_separators (f : N -> N) :
  (forall c, isSeparator c = true -> isSeparator (f c) = true) ->
  (forall c, isSeparator c = false -> f c = c) ->
  forall s pos start cur,
    (execAll pos start cur (List.map f s)).*2 = (execAll pos start cur s).*2.
Proof.
  intros Hsep Hfix.
  assert (Hal : forall c, isAlnum (f c) = isAlnum c).
  { intros c. destruct (isSeparator c) eqn:E.
    - pose proof (Hsep c E) as E'. unfold isSeparator in E, E'.
      apply andb_true_iff in E as [E _], E' as [E' _].
      apply negb_true_iff in E, E'. congruence.
    - by rewrite (Hfix c E). }
  assert (Hhd : forall r, headIs isAlnum (List.map f r) = headIs isAlnum r).
  { intros [|x r]; simpl; [done | apply Hal]. }
  induction s as [|c rest IH]; intros pos start cur; simpl; [done|].
  rewrite Hhd. destruct (isSeparator c) eqn:E.
  - pose proof (Hsep c E) as E'. unfold isSeparator in E, E'.
    apply andb_true_iff in E as [Ea Ej], E' as [Ea' Ej'].
    apply negb_true_iff in Ea, Ej, Ea', Ej'. rewrite Ea, Ej, Ea', Ej'. simpl.
    rewrite !fmap_app. f_equal. apply IH.
  - rewrite (Hfix c E). destruct (isAlnum c); [apply IH|].
    destruct (isJoiner c && negb (bool_decide (cur = [])) && headIs isAlnum rest);
      [apply IH|].
    rewrite !fmap_app. f_equal. apply IH.
Qed.

(** Collapsing runs of white space changes no match. *)
Lemma execAll_collapseSpaces s : forall inRun pos start cur,
  (inRun = true -> cur = []) ->
  (execAll pos start cur (collapseSpaces inRun s)).*2
  = (execAll pos start cur s).*2.
Proof.
  assert (Hhd : forall r, headIs isAlnum (collapseSpaces false r) = headIs isAlnum r).
  { intros [|x r]; simpl; [done|].
    destruct (isWhiteSpace x) eqn:E; [|done]. simpl.
    by destruct (space_not_token x E) as [-> _]. }
  induction s as [|c rest IH]; intros inRun pos start cur Hrun; simpl; [done|].
  destruct (isWhiteSpace c) eqn:Hc.
  - destruct (space_not_token c Hc) as [-> ->]. simpl.
    destruct inRun.
    + rewrite (Hrun eq_refl). simpl.
      rewrite (IH true pos start [] ltac:(done)).
      apply execAll_tokens_indep.
    + simpl. rewrite !fmap_app. f_equal. by apply IH.
  - simpl. rewrite Hhd. destruct (isAlnum c); [by apply IH|].
    destruct (isJoiner c && negb (bool_decide (cur = [])) && headIs isAlnum rest);
      [by apply IH|].
    rewrite !fmap_app. f_equal. by apply IH.
Qed.

Lemma regexMatches_allSpace ws : allSpace ws -> (regexMatches ws).*2 = [].
Proof.
  unfold allSpace, regexMatches. generalize 0%nat at 1 2.
  induction ws as [|c ws IH]; intros n H; simpl; [done|].
  simpl in H. apply andb_true_iff in H as [Hc H].
  destruct (space_not_token c Hc) as [-> ->]. simpl. by apply IH.
Qed.

Lemma regexMatches_leading ws s :
  allSpace ws -> (regexMatches (ws ++ s)).*2 = (regexMatches s).*2.
Proof.
  unfold allSpace, regexMatches. generalize 0%nat at 1 2.
  induction ws as [|c ws IH]; intros n H; simpl.
  - apply execAll_tokens_indep.
  - simpl in H. apply andb_true_iff in H as [Hc H].
    destruct (space_not_token c Hc) as [-> ->]. simpl. by apply IH.
Qed.

Lemma regexMatches_trailing ws s :
  allSpace ws -> (regexMatches (s ++ ws)).*2 = (regexMatches s).*2.
Proof.
  intros H. destruct ws as [|c ws]; [by rewrite app_nil_r|].
  unfold allSpace in H. simpl in H. apply andb_true_iff in H as [Hc H].
  unfold regexMatches at 1. rewrite execAll_separator.
  - rewrite (regexMatches_allSpace ws H). by rewrite app_nil_r.
  - unfold isSeparator. by destruct (space_not_token c Hc) as [-> ->].
Qed.

Lemma regexMatches_trim s : (regexMatches (trim s)).*2 = (regexMatches s).*2.
Proof.
  destruct (trim_parts s) as (ws1 & ws2 & Hs & H1 & H2 & _).
  rewrite Hs at 2.
  by rewrite (regexMatches_leading ws1 _ H1), (regexMatches_trailing ws2 _ H2).
Qed.

(** [X19].  Replacing the quote characters by spaces, collapsing the
    white space and trimming change nothing for the token pattern: its
    matches in [stripStrayQuotes s], and in [trim s], are its matches in
    [s]. *)
Theorem stripStrayQuotes_keeps_tokens (s : jsstring) :
  (regexMatches (stripStrayQuotes s)).*2 = (regexMatches s).*2
  /\ (regexMatches (trim s)).*2 = (regexMatches s).*2.
Proof.
  split; [|apply regexMatches_trim].
  unfold stripStrayQuotes. rewrite regexMatches_trim. unfold regexMatches.
  rewrite execAll_collapseSpaces by done.
  apply execAll_map_separators.
  - intros c Hc. by destruct (isQuoteChar c).
  - intros c Hc. destruct (isQuoteChar c) eqn:E; [|done].
    apply quote_isSeparator in E. congruence.
Qed.

(** ** Compact artifacts: [toCompact] and back *)

Lemma IdxInv_has dict idx t :
  IdxInv dict idx -> isSome (getProp idx t) = bool_decide (t ∈ dict).
Proof.
  intros [_ H]. destruct (getProp idx t) as [i|] eqn:E; simpl.
  - symmetry. apply bool_decide_eq_true_2. apply H in E.
    by eapply list_elem_of_lookup_2.
  - symmetry. apply bool_decide_eq_false_2. intros Hin.
    apply list_elem_of_lookup in Hin as [i Hi]. apply H in Hi. congruence.
Qed.

Lemma compactToken_spec dict idx ids t :
  IdxInv dict idx ->
  exists idx' i,
    compactToken (dict, idx, ids) t = (uniqStep dict t, idx', ids ++ [Some i])
    /\ IdxInv (uniqStep dict t) idx'
    /\ uniqStep dict t !! i = Some t.
Proof.
  intros I. unfold compactToken, uniqStep. rewrite (IdxInv_has _ _ _ I).
  destruct I as [Hnd Hidx].
  destruct (bool_decide (t ∈ dict)) eqn:Hin.
  - apply bool_decide_eq_true in Hin.
    apply list_elem_of_lookup in Hin as [i Hi].
    exists idx, i. rewrite (proj2 (Hidx t i) Hi). done.
  - apply bool_decide_eq_false in Hin.
    exists (setProp idx t (length dict)), (length dict).
    rewrite getProp_setProp_eq. split; [done|]. split.
    + split.
      * apply list.NoDup_app. split; [done|]. split; [|apply NoDup_singleton].
        intros x Hx Hx'. apply list_elem_of_singleton in Hx' as ->. done.
      * intros t' i. destruct (decide (t' = t)) as [->|Hne].
        -- rewrite getProp_setProp_eq. split.
           ++ intros [= <-]. by apply list_lookup_middle.
           ++ intros Hi. f_equal.
              apply lookup_app_Some in Hi as [Hi|[Hge Hi]].
              ** exfalso. apply Hin. by eapply list_elem_of_lookup_2.
              ** apply lookup_lt_Some in Hi as Hlt. simpl in Hlt. lia.
        -- rewrite getProp_setProp_ne by done. rewrite Hidx. split.
           ++ intros Hi. by apply lookup_app_l_Some.
           ++ intros Hi. apply lookup_app_Some in Hi as [Hi|[Hge Hi]]; [done|].
              exfalso. destruct (i - length dict)%nat; simpl in Hi; [|done].
              congruence.
    + by apply list_lookup_middle.
Qed.

Lemma uniqStep_prefix {A} `{EqDecision A} (dict : list A) t :
  dict `prefix_of` uniqStep dict t.
Proof.
  unfold uniqStep. destruct (bool_decide _); [done | by apply prefix_app_r].
Qed.

Lemma foldl_uniqStep_prefix {A} `{EqDecision A} (toks : list A) : forall dict,
  dict `prefix_of` foldl uniqStep dict toks.
Proof.
  induction toks as [|t toks IH]; intros dict; simpl; [done|].
  etrans; [apply uniqStep_prefix | apply IH].
Qed.

Lemma compactTokens_spec toks : forall dict idx ids,
  IdxInv dict idx ->
  exists idx' ns,
    foldl compactToken (dict, idx, ids) toks
    = (foldl uniqStep dict toks, idx', ids ++ (Some <$> ns))
    /\ IdxInv (foldl uniqStep dict toks) idx'
    /\ Forall2 (fun i t => foldl uniqStep dict toks !! i = Some t) ns toks.
Proof.
  induction toks as [|t toks IH]; intros dict idx ids I; cbn [foldl].
  - exists idx, []. by rewrite app_nil_r.
  - destruct (compactToken_spec dict idx ids t I) as (idx1 & i & -> & I1 & Hi).
    destruct (IH _ idx1 (ids ++ [Some i]) I1) as (idx' & ns & -> & I' & Hall).
    exists idx', (i :: ns). split; [by rewrite <- app_assoc|]. split; [done|].
    constructor; [|done].
    eapply prefix_lookup_Some; [exact Hi | apply foldl_uniqStep_prefix].
Qed.

Lemma Forall2_lookup_weaken (d d' : list jsstring) ns (toks : list jsstring) :
  d `prefix_of` d' ->
  Forall2 (fun i t => d !! i = Some t) ns toks ->
  Forall2 (fun i t => d' !! i = Some t) ns toks.
Proof.
  intros Hp. apply Forall2_impl. intros i t Hi. by eapply prefix_lookup_Some.
Qed.

Lemma compactPhrases_spec (ps : list jsstring) : forall dict idx out,
  IdxInv dict idx ->
  exists idx' (idxs : list (list nat)),
    foldl compactPhrase (dict, idx, out) ps
    = (foldl uniqStep dict (concat (List.map phraseTokens ps)), idx',
       out ++ List.map (List.map Some) idxs)
    /\ IdxInv (foldl uniqStep dict (concat (List.map phraseTokens ps))) idx'
    /\ Forall2 (Forall2 (fun i t =>
                   foldl uniqStep dict (concat (List.map phraseTokens ps)) !! i
                   = Some t))
               idxs (List.map phraseTokens ps).
Proof.
  induction ps as [|p ps IH]; intros dict idx out I;
    cbn [foldl List.map concat].
  - exists idx, []. by rewrite app_nil_r.
  - unfold compactPhrase at 2. fold (phraseTokens p).
    destruct (compactTokens_spec (phraseTokens p) dict idx [] I)
      as (idx1 & ns & -> & I1 & Hall1).
    cbn [app].
    destruct (IH _ idx1 (out ++ [Some <$> ns]) I1) as (idx' & idxs & E & I' & Hall).
    rewrite foldl_app. rewrite E.
    exists idx', (ns :: idxs). split; [by rewrite <- app_assoc|]. split; [done|].
    constructor; [|done].
    eapply Forall2_lookup_weaken; [|exact Hall1]. apply foldl_uniqStep_prefix.
Qed.

Lemma Forall2_lookup_map (d : list jsstring) (ns : list nat) (toks : list jsstring) :
  Forall2 (fun i t => d !! i = Some t) ns toks ->
  List.map (fun i => d !! i) ns = List.map Some toks
  /\ Forall (fun i => (i < length d)%nat) ns.
Proof.
  induction 1 as [|i t ns toks Hi _ [IH1 IH2]]; simpl; [done|].
  split; [by rewrite Hi, IH1|]. constructor; [by eapply lookup_lt_Some | done].
Qed.

(** [X18].  [toCompact] followed by [pretokenizeFromCompact] gives every
    phrase split at white space: the dictionary holds the distinct tokens
    of the trimmed phrases in the order of their first occurrence, every
    index that [toCompact] writes is defined and inside the dictionary,
    and expanding the artifact gives back the tokens, none of them
    [undefined]. *)
Theorem compact_roundtrip (phrases : list jsstring) (v : nat) :
  exists dict (idxs : list (list nat)),
    toCompact phrases = (dict, List.map (List.map Some) idxs)
    /\ pretokenizeFromCompact (CompactArtifact.mk v dict idxs)
       = List.map (fun p => List.map Some (splitWhiteSpace (trim p))) phrases
    /\ dict = uniq (concat (List.map (fun p => splitWhiteSpace (trim p)) phrases))
    /\ NoDup dict
    /\ Forall (Forall (fun i => (i < length dict)%nat)) idxs.
Proof.
  assert (I0 : IdxInv [] []).
  { split; [constructor|]. intros t i. simpl. split; [done|].
    by rewrite lookup_nil. }
  destruct (compactPhrases_spec phrases [] [] [] I0) as (idx' & idxs & E & I & Hall).
  unfold toCompact. rewrite E. simpl.
  fold (uniq (concat (List.map phraseTokens phrases))) in *.
  exists (uniq (concat (List.map phraseTokens phrases))), idxs.
  split; [done|]. split; [|split; [done|split; [apply uniq_NoDup|]]].
  - unfold pretokenizeFromCompact. simpl.
    clear E I. revert idxs Hall.
    set (d := uniq (concat (List.map phraseTokens phrases))). clearbody d.
    induction phrases as [|p ps IH]; intros idxs Hall; simpl in Hall.
    + by apply Forall2_nil_inv_r in Hall as ->.
    + apply Forall2_cons_inv_r in Hall as (ns & idxs' & Hns & Hall & ->).
      simpl. f_equal; [|by apply IH].
      by destruct (Forall2_lookup_map _ _ _ Hns).
  - clear E I. revert idxs Hall.
    set (d := uniq (concat (List.map phraseTokens phrases))). clearbody d.
    induction phrases as [|p ps IH]; intros idxs Hall; simpl in Hall.
    + apply Forall2_nil_inv_r in Hall as ->. constructor.
    + apply Forall2_cons_inv_r in Hall as (ns & idxs' & Hns & Hall & ->).
      constructor; [|by apply IH].
      by destruct (Forall2_lookup_map _ _ _ Hns).
Qed.
